(** * emoji-banner-generator: text to bitmap to emoji banner

    A shallow embedding of [bitmap.ts] (text normalisation, rasterisation,
    merging and trimming of bitmaps) and of [renderer.ts] (seeded generator,
    emoji selection, cell fitting and rendering), with the properties the
    specification states about them.

    JavaScript strings are sequences of UTF-16 code units: a string is a
    [list Z], one element per code unit, so that [length], indexing, [slice]
    and the regular expressions without the [u] flag read as in the source.
    JavaScript numbers that hold counts and indices are [Z] or [nat];
    numbers that go through a division are binary64 values, modelled in
    module [Float] as the rationals they denote, every operation rounded. *)

From Stdlib Require Import ZArith QArith Qround Qpower Lia Lqa.
From Stdlib Require Strings.String Strings.Ascii.
From stdpp Require Import base list gmap.

(** ** JavaScript string primitives *)

Module JS.

Local Open Scope Z_scope.

Abbreviation jsstring := (list Z).

Definition LF : Z := 10.
Definition CR : Z := 13.
Definition SPACE : Z := 32.
Definition HASH : Z := 35.
Definition QUESTION : Z := 63.
Definition BACKSLASH : Z := 92.
Definition LOWER_N : Z := 110.

(** [a.join(sep)] on an array of strings. *)
Fixpoint join (sep : jsstring) (parts : list jsstring) : jsstring :=
  match parts with
  | [] => []
  | [p] => p
  | p :: rest => p ++ sep ++ join sep rest
  end.

(** [s.split(c)] for a one-code-unit separator: never the empty array. *)
Fixpoint split (sep : Z) (s : jsstring) : list jsstring :=
  match s with
  | [] => [[]]
  | c :: rest =>
      if c =? sep then [] :: split sep rest
      else match split sep rest with
           | [] => [[c]]
           | l :: ls => (c :: l) :: ls
           end
  end.

Definition is_high_surrogate (c : Z) : bool := (0xD800 <=? c) && (c <=? 0xDBFF).
Definition is_low_surrogate (c : Z) : bool := (0xDC00 <=? c) && (c <=? 0xDFFF).

(** [Array.from(s)] and [[...s]]: the string iterator yields one string per
    code point, a surrogate pair being one code point of two code units. *)
Fixpoint Array_from (s : jsstring) : list jsstring :=
  match s with
  | [] => []
  | c :: rest =>
      match rest with
      | d :: rest' =>
          if is_high_surrogate c && is_low_surrogate d
          then [c; d] :: Array_from rest'
          else [c] :: Array_from rest
      | [] => [[c]]
      end
  end.

(** The string ends in a high surrogate, which a low surrogate after it
    would complete. *)
Definition ends_high (s : jsstring) : bool :=
  match last s with
  | Some c => is_high_surrogate c
  | None => false
  end.

(** [s.slice(0, n)]. *)
Definition slice0 (n : nat) (s : jsstring) : jsstring := take n s.

(** [s.replace(/\r\n/g, '\n')]. *)
Fixpoint replace_crlf (s : jsstring) : jsstring :=
  match s with
  | [] => []
  | c :: rest =>
      match rest with
      | d :: rest' =>
          if (c =? CR) && (d =? LF) then LF :: replace_crlf rest'
          else c :: replace_crlf rest
      | [] => [c]
      end
  end.

(** [s.replace(/\r/g, '\n')]. *)
Definition replace_cr (s : jsstring) : jsstring :=
  (fun c => if c =? CR then LF else c) <$> s.

End JS.

(** ** bitmap.ts *)

Module PixelFont.

(** The font record of [fonts.ts], which the bitmap module only reads:
    [map] is the object from a character to its pattern rows. *)
Record t := {
  map : gmap (list Z) (list (list Z));
  height : nat;
  letterSpacing : nat;
  lineSpacing : nat
}.

End PixelFont.

Module Bitmap.

Import JS.
Local Open Scope Z_scope.

Abbreviation Bitmap := (list (list bool)).

Definition MAX_TEXT_LENGTH : nat := 100.

Record TextToBitmapOptions := { vertical : option bool }.

(** The body of the [for] loop of [decodeEscapes], iterated: [i] is the loop
    index and [result] the string built so far. Each iteration advances [i]
    by at least one, so [length text] iterations are enough. *)
Fixpoint decodeEscapes_loop (fuel : nat) (text : jsstring) (i : nat)
    (result : jsstring) : jsstring :=
  match fuel with
  | O => result
  | S fuel' =>
      match text !! i with
      | None => result
      | Some char =>
          if negb (char =? BACKSLASH)
          then decodeEscapes_loop fuel' text (i + 1)%nat (result ++ [char])
          else
            match text !! (i + 1)%nat with
            | Some next =>
                if next =? LOWER_N
                then decodeEscapes_loop fuel' text (i + 2)%nat (result ++ [LF])
                else if next =? BACKSLASH
                then decodeEscapes_loop fuel' text (i + 2)%nat (result ++ [BACKSLASH])
                else decodeEscapes_loop fuel' text (i + 2)%nat
                       (result ++ BACKSLASH :: [next])
            | None =>
                decodeEscapes_loop fuel' text (i + 1)%nat (result ++ [BACKSLASH])
            end
      end
  end.

Definition decodeEscapes (text : jsstring) : jsstring :=
  decodeEscapes_loop (length text) text 0 [].

(** The decoding as the specification words it, by cases on the head of the
    text; [decodeEscapes_loop_correct] relates the loop above to it. *)
Fixpoint decodeEscapes_spec (text : jsstring) : jsstring :=
  match text with
  | [] => []
  | c :: rest =>
      if negb (c =? BACKSLASH) then c :: decodeEscapes_spec rest
      else
        match rest with
        | [] => [BACKSLASH]
        | next :: rest' =>
            if next =? LOWER_N then LF :: decodeEscapes_spec rest'
            else if next =? BACKSLASH then BACKSLASH :: decodeEscapes_spec rest'
            else BACKSLASH :: next :: decodeEscapes_spec rest'
        end
  end.

Definition normalizeTextInput (text : jsstring) (vertical : bool) : jsstring :=
  let decoded := decodeEscapes text in
  let normalizedNewlines := replace_cr (replace_crlf decoded) in
  if negb vertical then normalizedNewlines
  else
    let verticalizedLines :=
      (fun line =>
         if (length line =? 0)%nat then []
         else join [LF] (Array_from line)) <$> split LF normalizedNewlines in
    join [LF; LF] verticalizedLines.

(** [bitmap[i].every((cell) => !cell)]. *)
Definition every_not (row : list bool) : bool := forallb negb row.

Fixpoint trim_startRow (fuel : nat) (bitmap : Bitmap) (startRow : nat) : nat :=
  match fuel with
  | O => startRow
  | S fuel' =>
      match bitmap !! startRow with
      | Some row =>
          if every_not row then trim_startRow fuel' bitmap (S startRow)
          else startRow
      | None => startRow
      end
  end.

Fixpoint trim_endRow (fuel : nat) (bitmap : Bitmap) (endRow : Z) : Z :=
  match fuel with
  | O => endRow
  | S fuel' =>
      if 0 <=? endRow then
        match bitmap !! Z.to_nat endRow with
        | Some row =>
            if every_not row then trim_endRow fuel' bitmap (endRow - 1)
            else endRow
        | None => endRow
        end
      else endRow
  end.

(** [bitmap.slice(start, end)] for [0 <= start] and [0 <= end]. *)
Definition slice (start : nat) (end_ : Z) (bitmap : Bitmap) : Bitmap :=
  take (Z.to_nat end_ - start) (drop start bitmap).

Definition trimBitmap (bitmap : Bitmap) : Bitmap :=
  if (length bitmap =? 0)%nat then bitmap
  else
    let startRow := trim_startRow (length bitmap) bitmap 0 in
    let endRow := trim_endRow (length bitmap) bitmap (Z.of_nat (length bitmap) - 1) in
    if Z.of_nat startRow >? endRow then [[]]
    else slice startRow (endRow + 1) bitmap.

Section WithFont.

(** [String.prototype.toUpperCase], a built-in of the host. *)
Variable toUpperCase : jsstring -> jsstring.

Definition getCharacterPattern (char : jsstring) (font : PixelFont.t)
    : list jsstring :=
  match PixelFont.map font !! char with
  | Some pattern => pattern
  | None =>
      let upper := toUpperCase char in
      match PixelFont.map font !! upper with
      | Some pattern => pattern
      | None =>
          match PixelFont.map font !! [QUESTION] with
          | Some pattern => pattern
          | None =>
              match PixelFont.map font !! [SPACE] with
              | Some pattern => pattern
              | None => []
              end
          end
      end
  end.

(** [Math.max] folded over the pattern rows. *)
Definition patternWidth (pattern : list jsstring) : nat :=
  foldl (fun max row => Nat.max max (length row)) 0%nat pattern.

(** What one character pushes onto row [rowIndex]: [width] cells read off the
    pattern row, then the letter spacing unless the character is the last. *)
Definition pushed (font : PixelFont.t) (nChars charIndex : nat)
    (pattern : list jsstring) (width rowIndex : nat) : list bool :=
  let rowPattern := default [] (pattern !! rowIndex) in
  ((fun colIndex => bool_decide (rowPattern !! colIndex = Some HASH))
     <$> seq 0 width)
  ++ (if (charIndex <? nChars - 1)%nat
      then replicate (PixelFont.letterSpacing font) false
      else []).

(** The callback of [characters.forEach] in [renderLineToBitmap]; [rows] has
    [font.height] rows, which the inner loop visits in order. *)
Definition renderChar (font : PixelFont.t) (nChars : nat) (rows : Bitmap)
    (char : jsstring) (charIndex : nat) : Bitmap :=
  let pattern := getCharacterPattern char font in
  let width := patternWidth pattern in
  imap (fun rowIndex row => row ++ pushed font nChars charIndex pattern width rowIndex)
       rows.

Fixpoint forEach_chars (font : PixelFont.t) (nChars : nat) (charIndex : nat)
    (characters : list jsstring) (rows : Bitmap) : Bitmap :=
  match characters with
  | [] => rows
  | char :: rest =>
      forEach_chars font nChars (S charIndex) rest
        (renderChar font nChars rows char charIndex)
  end.

Definition renderLineToBitmap (line : jsstring) (font : PixelFont.t) : Bitmap :=
  let rows : Bitmap := replicate (PixelFont.height font) [] in
  let characters := Array_from line in
  if (length characters =? 0)%nat then rows
  else forEach_chars font (length characters) 0 characters rows.

Definition padRow (width : nat) (rowData : list bool) : list bool :=
  rowData ++ replicate (width - length rowData) false.

Definition mergeLines (lineBitmaps : list Bitmap) (lineSpacing : nat) : Bitmap :=
  if (length lineBitmaps =? 0)%nat then [[]]
  else
    let width :=
      max_list ((fun line => match line !! 0%nat with
                           | Some row => length row
                           | None => 0%nat
                           end) <$> lineBitmaps) in
    let merged :=
      concat
        (imap (fun index lineBitmap =>
                 (padRow width <$> lineBitmap)
                 ++ (if (index <? length lineBitmaps - 1)%nat
                        && (0 <? lineSpacing)%nat
                     then replicate lineSpacing (replicate width false)
                     else []))
              lineBitmaps) in
    trimBitmap merged.

Inductive Error := TextInputRequired | TextEmptyAfterSanitization.

(** The class [[\x00-\x09\x0B-\x1F\x7F]]. *)
Definition is_control (c : Z) : bool :=
  ((0 <=? c) && (c <=? 9)) || ((11 <=? c) && (c <=? 31)) || (c =? 127).

Definition sanitize (s : jsstring) : jsstring :=
  filter (fun c => is_control c = false) s.

(** The decoded texts that normalisation and sanitisation leave empty:
    stripped control characters only, none of them a carriage return, and
    in vertical mode at most one of them. *)
Definition vanishes (isVertical : bool) (decoded : jsstring) : Prop :=
  Forall (fun c => is_control c = true /\ c <> CR) decoded
  /\ (isVertical = true -> (length decoded <= 1)%nat).

(** The sanitised text of [textToBitmap], before the length cap. *)
Definition sanitizedText (text : jsstring) (options : TextToBitmapOptions)
    : jsstring :=
  sanitize (normalizeTextInput text (default false (vertical options))).

(** The text that reaches the rasteriser. *)
Definition truncatedText (text : jsstring) (options : TextToBitmapOptions)
    : jsstring :=
  slice0 MAX_TEXT_LENGTH (sanitizedText text options).

(** [textToBitmap]: the font is the one [getFont(fontName)] returned; [None]
    for the text is a missing argument. The promise it returns is rejected
    with the error ([inl]) or resolved with the bitmap ([inr]). *)
Definition textToBitmap (text : option jsstring) (font : PixelFont.t)
    (options : TextToBitmapOptions) : Error + Bitmap :=
  match text with
  | None => inl TextInputRequired
  | Some text =>
      if (length text =? 0)%nat then inl TextInputRequired
      else
        let sanitizedText := sanitizedText text options in
        if (length sanitizedText =? 0)%nat then inl TextEmptyAfterSanitization
        else
          let truncatedText := slice0 MAX_TEXT_LENGTH sanitizedText in
          let lines := split LF truncatedText in
          let lineBitmaps := (fun line => renderLineToBitmap line font) <$> lines in
          inr (mergeLines lineBitmaps (PixelFont.lineSpacing font))
  end.

Definition validateBitmap (bitmap : Bitmap) : bool :=
  match bitmap with
  | [] => true
  | row0 :: _ => forallb (fun row => (length row =? length row0)%nat) bitmap
  end.

End WithFont.

Record Dimensions := { width : nat; height : nat }.

Definition getBitmapDimensions (bitmap : Bitmap) : Dimensions :=
  match bitmap with
  | [] => {| width := 0; height := 0 |}
  | row0 :: _ => {| width := length row0; height := length bitmap |}
  end.

(** Vertical mode as the specification words it: every line is exploded into
    one character per output line (an empty line stays one empty line), and
    the groups of consecutive original lines are separated by one blank
    line. *)
Definition explode (line : jsstring) : list jsstring :=
  if (length line =? 0)%nat then [[]] else Array_from line.

Fixpoint stack_groups (groups : list (list jsstring)) : list jsstring :=
  match groups with
  | [] => []
  | [g] => g
  | g :: rest => g ++ [[]] ++ stack_groups rest
  end.

(** The row-length invariant of the data model, for rows of length [w]. *)
Definition rectangular (w : nat) (bitmap : Bitmap) : Prop :=
  Forall (fun row => length row = w) bitmap.

End Bitmap.

(** ** Binary64 arithmetic *)

Module Float.

Local Open Scope Q_scope.

(** A finite binary64 value is [m * 2^e] with [|m| < 2^53]; the exponent
    range is not modelled (no overflow to infinity, no subnormals). *)
Definition pow2 (e : Z) : Q := 2 ^ e.

(** The binary exponent of [q > 0]: the [e] with [2^e <= q < 2^(e+1)]. *)
Definition ilog2 (q : Q) : Z :=
  let e0 := (Z.log2 (Qnum q) - Z.log2 (Zpos (Qden q)))%Z in
  if Qle_bool (pow2 e0) q then e0 else (e0 - 1)%Z.

(** Rounding to the nearest integer, ties to the even one. *)
Definition rne (q : Q) : Z :=
  let f := Qfloor q in
  match Qcompare (q - inject_Z f) (1 # 2) with
  | Lt => f
  | Gt => (f + 1)%Z
  | Eq => if Z.even f then f else (f + 1)%Z
  end.

(** Rounding to 53 significant bits, to nearest, ties to even. *)
Definition round_pos (q : Q) : Q :=
  let ulp := pow2 (ilog2 q - 52) in
  inject_Z (rne (q / ulp)) * ulp.

Definition round (q : Q) : Q :=
  match Qnum q with
  | Z0 => 0
  | Zpos _ => round_pos q
  | Zneg _ => - round_pos (- q)
  end.

(** The arithmetic of JavaScript numbers: the exact result, rounded. *)
Definition add (x y : Q) : Q := round (x + y).
Definition mul (x y : Q) : Q := round (x * y).
Definition div (x y : Q) : Q := round (x / y).

(** [ToInt32], which the bitwise operators apply to their operands. *)
Definition ToInt32 (x : Q) : Z :=
  let t := if Qle_bool 0 x then Qfloor x else Qceiling x in
  let m := (t mod 2 ^ 32)%Z in
  if (m <? 2 ^ 31)%Z then m else (m - 2 ^ 32)%Z.
End Float.

(** ** renderer.ts *)

Module BannerResult.

Record t := {
  text : list Z;
  backgroundEmoji : list Z;
  bitmap : list (list bool);
  width : nat;
  height : nat
}.

End BannerResult.

Module Renderer.

Import JS.
Local Open Scope Z_scope.

Abbreviation Bitmap := (list (list bool)).

(** The five modes of [types.ts]; [mode_unknown] is any other string, which
    the [default:] branch of [selectEmoji] receives. *)
Inductive EmojiMode :=
  | mode_random
  | mode_row
  | mode_column
  | mode_row_gradient
  | mode_column_gradient
  | mode_unknown.

Inductive Theme := theme_default | theme_github.

Record RenderConfig := {
  foregroundEmojis : list jsstring;
  backgroundEmoji : jsstring;
  borderEmoji : option jsstring;
  mode : EmojiMode;
  theme : Theme
}.

(** What a render call can observe of the host besides its arguments. *)
Record Host := { Date_now : Z }.

(** *** The seeded generator *)

Record SeededRandom := { seed : Z }.

(** [new SeededRandom(seed)]; the default of the parameter is [Date.now()]. *)
Definition new_SeededRandom (host : Host) (seed : option Z) : SeededRandom :=
  {| seed := default (Date_now host) seed |}.

Definition next_seed (seed : Z) : Z :=
  Z.land
    (Float.ToInt32
       (Float.add (Float.mul (inject_Z seed) (inject_Z 1103515245))
                  (inject_Z 12345)))
    0x7fffffff.

Definition next (random : SeededRandom) : Q * SeededRandom :=
  let seed' := next_seed (seed random) in
  (Float.div (inject_Z seed') (inject_Z 0x7fffffff), {| seed := seed' |}).

Definition nextInt (max : Z) (random : SeededRandom) : Z * SeededRandom :=
  let '(x, random') := next random in
  (Qfloor (Float.mul x (inject_Z max)), random').

(** *** Display width *)

Definition in_range (lo hi c : Z) : bool := (lo <=? c) && (c <=? hi).

(** The code point of one element of [Array_from]. *)
Definition codePoint (g : jsstring) : Z :=
  match g with
  | [hi; lo] => 0x10000 + (hi - 0xD800) * 0x400 + (lo - 0xDC00)
  | c :: _ => c
  | [] => 0
  end.

Definition codePoints (s : jsstring) : list Z := codePoint <$> Array_from s.

Definition EMOJI_class (c : Z) : bool :=
  in_range 0x1F300 0x1FAFF c || in_range 0x1F600 0x1F64F c
  || in_range 0x1F680 0x1F6FF c || in_range 0x2600 0x26FF c
  || in_range 0x2700 0x27BF c || (c =? 0xFE0F).

Definition WIDE_CHAR_class (c : Z) : bool :=
  (c =? 0x3000) || in_range 0x3001 0x303F c || in_range 0x3040 0x30FF c
  || in_range 0x3400 0x4DBF c || in_range 0x4E00 0x9FFF c
  || in_range 0xF900 0xFAFF c.

(** White space and line terminators: what [trim] removes and [\s] matches. *)
Definition is_whitespace (c : Z) : bool :=
  in_range 9 13 c || (c =? 0x20) || (c =? 0xA0) || (c =? 0x1680)
  || in_range 0x2000 0x200A c || (c =? 0x2028) || (c =? 0x2029)
  || (c =? 0x202F) || (c =? 0x205F) || (c =? 0x3000) || (c =? 0xFEFF).

Fixpoint trimStart (s : jsstring) : jsstring :=
  match s with
  | [] => []
  | c :: rest => if is_whitespace c then trimStart rest else s
  end.

Definition trim (s : jsstring) : jsstring :=
  reverse (trimStart (reverse (trimStart s))).

(** The class [[a-zA-Z0-9_-]]. *)
Definition is_alias_char (c : Z) : bool :=
  in_range 97 122 c || in_range 65 90 c || in_range 48 57 c
  || (c =? 95) || (c =? 45).

Definition strip_colon (s : jsstring) : jsstring :=
  match s with
  | c :: rest => if c =? 58 then rest else s
  | [] => []
  end.

(** [/^:?[a-zA-Z0-9_-]{1,64}:?$/.test(s)]: the body cannot match a colon, so
    a colon at either end is the optional one. *)
Definition ALIAS_REGEX_test (s : jsstring) : bool :=
  let body := reverse (strip_colon (reverse (strip_colon s))) in
  (1 <=? length body)%nat && (length body <=? 64)%nat
  && forallb is_alias_char body.

Section WithHost.

(** The Unicode property [Extended_Pictographic] of a code point. *)
Variable Extended_Pictographic : Z -> bool.

(** [Intl.Segmenter] with grapheme granularity where the host has one. *)
Variable graphemeSegmenter : option (jsstring -> list jsstring).

(** [getBackgroundEmoji()] of [emoji.ts] and [getThemeEmojis('github')] of
    [themes.ts]. *)
Variable getBackgroundEmoji : jsstring.
Variable getThemeEmojis_github : list jsstring.

(** [Math.sin] and [Math.cos] of the host. *)
Variable Math_sin : Q -> Q.
Variable Math_cos : Q -> Q.

Definition EXTENDED_PICTO_REGEX_test (s : jsstring) : bool :=
  existsb Extended_Pictographic (codePoints s).
Definition EMOJI_REGEX_test (s : jsstring) : bool :=
  existsb EMOJI_class (codePoints s).
Definition WIDE_CHAR_REGEX_test (s : jsstring) : bool :=
  existsb WIDE_CHAR_class (codePoints s).

Definition isLikelyCustomEmoji (value : jsstring) : bool :=
  let trimmed := trim value in
  if (length trimmed =? 0)%nat then false
  else if EXTENDED_PICTO_REGEX_test trimmed || EMOJI_REGEX_test trimmed
          || WIDE_CHAR_REGEX_test trimmed
  then false
  else ALIAS_REGEX_test trimmed && negb (existsb is_whitespace trimmed).

Definition getGraphemes (str : jsstring) : list jsstring :=
  match graphemeSegmenter with
  | Some segment => segment str
  | None => Array_from str
  end.

Definition getDisplayWidth (str : jsstring) : Z :=
  if isLikelyCustomEmoji str then 2
  else
    foldl (fun width char =>
             if bool_decide (char = [0x3000]) then width + 2
             else if EXTENDED_PICTO_REGEX_test char || EMOJI_REGEX_test char
                     || WIDE_CHAR_REGEX_test char
             then width + 2
             else width + 1)
          0 (getGraphemes str).

(** The [while] loop of [padToWidth]; it runs [targetWidth - width] times. *)
Fixpoint padToWidth_loop (fuel : nat) (result : jsstring) (width targetWidth : Z)
    : jsstring :=
  match fuel with
  | O => result
  | S fuel' =>
      if width <? targetWidth
      then padToWidth_loop fuel' (result ++ [SPACE]) (width + 1) targetWidth
      else result
  end.

Definition padToWidth (str : jsstring) (targetWidth : Z) : jsstring :=
  let width := getDisplayWidth str in
  padToWidth_loop (Z.to_nat (targetWidth - width)) str width targetWidth.

Definition fitToWidth (str : jsstring) (targetWidth : Z) : jsstring :=
  let current := getDisplayWidth str in
  if current =? targetWidth then str
  else if current <? targetWidth then padToWidth str targetWidth
  else padToWidth [] targetWidth.

(** The cell as the specification words it: blank padding when the glyph is
    wider than the cell, else the glyph followed by its padding. *)
Definition fitted_cell (glyph : jsstring) (cellWidth : Z) : jsstring :=
  if cellWidth <? getDisplayWidth glyph
  then replicate (Z.to_nat cellWidth) SPACE
  else glyph ++ replicate (Z.to_nat (cellWidth - getDisplayWidth glyph)) SPACE.

(** *** Emoji selection *)

(** [a[i]] for a number [i]: [undefined] outside the array. *)
Definition at_index {A : Type} (a : list A) (i : Z) : option A :=
  if i <? 0 then None else a !! Z.to_nat i.

(** The index of the two gradient modes, before it is used on the array:
    [pos] is the row or column and [total] the number of rows or columns. *)
Definition gradientIndex (pos total n : Z) : Z :=
  let progress :=
    if total >? 1 then Float.div (inject_Z pos) (inject_Z (total - 1))
    else 0%Q in
  let emojiIndex := Qfloor (Float.mul progress (inject_Z (n - 1))) in
  Z.min emojiIndex (n - 1).

Definition selectEmoji (emojis : list jsstring) (row col totalRows totalCols : Z)
    (mode : EmojiMode) (random : SeededRandom)
    : option jsstring * SeededRandom :=
  let n := Z.of_nat (length emojis) in
  if n =? 1 then (emojis !! 0%nat, random)
  else
    match mode with
    | mode_random =>
        let '(i, random') := nextInt n random in (at_index emojis i, random')
    | mode_row =>
        (if n =? 0 then None else at_index emojis (Z.rem row n), random)
    | mode_column =>
        (if n =? 0 then None else at_index emojis (Z.rem col n), random)
    | mode_row_gradient =>
        (at_index emojis (gradientIndex row totalRows n), random)
    | mode_column_gradient =>
        (at_index emojis (gradientIndex col totalCols n), random)
    | mode_unknown => (emojis !! 0%nat, random)
    end.

Definition calculateGitHubIntensity (row col totalRows totalCols : Z)
    (random : SeededRandom) : Z * SeededRandom :=
  let '(baseIntensity, random') := next random in
  let spatialNoise :=
    Float.mul
      (Float.mul (Math_sin (Float.mul (inject_Z row) (1 # 2)))
                 (Math_cos (Float.mul (inject_Z col) (1 # 2))))
      (Float.round (3 # 10)) in
  let combined := Float.add baseIntensity spatialNoise in
  (if Qlt_le_dec combined (1 # 4) then 1
   else if Qlt_le_dec combined (1 # 2) then 2
   else if Qlt_le_dec combined (3 # 4) then 3
   else 4,
   random').

(** *** Rendering *)

(** [Math.max(...xs)]: [None] is the [-Infinity] of the empty call. *)
Definition Math_max (xs : list Z) : option Z :=
  match xs with
  | [] => None
  | x :: rest => Some (foldl Z.max x rest)
  end.

Definition cellWidthOf (sampleEmojis : list jsstring) : Z :=
  match Math_max (getDisplayWidth <$> sampleEmojis) with
  | None => 2
  | Some maxFgWidth => Z.max maxFgWidth 2
  end.

Definition emojisOf (config : RenderConfig) : list jsstring :=
  match theme config with
  | theme_github => getThemeEmojis_github
  | theme_default => foregroundEmojis config
  end.

Definition bgEmojiOf (config : RenderConfig) : jsstring :=
  if (length (backgroundEmoji config) =? 0)%nat then getBackgroundEmoji
  else backgroundEmoji config.

(** The glyphs of a cell: the background emoji or one of the candidates. *)
Definition glyph_of (config : RenderConfig) (glyph : jsstring) : Prop :=
  glyph = bgEmojiOf config \/ glyph ∈ emojisOf config.

(** The candidate list is a JavaScript array with an entry, and the palette
    of the GitHub theme has its levels 1 to 4. *)
Definition selectable (config : RenderConfig) : Prop :=
  1 <= Z.of_nat (length (emojisOf config)) < 2 ^ 32
  /\ (theme config = theme_github -> (5 <= length (emojisOf config))%nat).

(** A line of the output: the cells of its glyphs, each fitted to the cell
    width. *)
Definition line_of (config : RenderConfig) (glyphs : list jsstring) : jsstring :=
  concat ((fun glyph => fitToWidth glyph (cellWidthOf (emojisOf config)))
            <$> glyphs).

(** A code unit that no alias-like token holds: not white space, not of the
    class [[a-zA-Z0-9_-]] and not the colon. *)
Definition outside_alias (c : Z) : bool :=
  negb (is_whitespace c) && negb (is_alias_char c) && negb (c =? 58).

(** A glyph that is blank or holds such a code unit, as every emoji does:
    neither the glyph nor a line it stands in is taken for an alias. *)
Definition plain_glyph (glyph : jsstring) : bool :=
  forallb is_whitespace glyph || existsb outside_alias glyph.

(** The same of any string, as a proposition. *)
Definition blank_or_marked (s : jsstring) : Prop :=
  forallb is_whitespace s = true
  \/ exists c, c ∈ s /\ outside_alias c = true.

(** The host segments a line cell by cell: padding spaces are graphemes of
    their own, and no grapheme joins a glyph to what follows it in a line. *)
Definition segmented_by_cell (config : RenderConfig) : Prop :=
  forall (k : nat) (glyphs : list jsstring),
    Forall (glyph_of config) glyphs ->
    let rest := replicate k SPACE ++ line_of config glyphs in
    getGraphemes rest = replicate k [SPACE] ++ getGraphemes (line_of config glyphs)
    /\ forall glyph,
         glyph_of config glyph ->
         getGraphemes (glyph ++ rest) = getGraphemes glyph ++ getGraphemes rest.

(** One cell: the text appended to the line and the generator afterwards;
    [None] when the selected emoji is [undefined], on which [fitToWidth]
    throws. *)
Definition renderCell (config : RenderConfig) (bitmap : Bitmap)
    (height width : nat) (row col : nat) (random : SeededRandom)
    : option (jsstring * SeededRandom) :=
  let emojis := emojisOf config in
  let cellWidth := cellWidthOf emojis in
  let isForeground := default false (bitmap !! row ≫= (.!! col)) in
  if isForeground then
    let '(rawEmoji, random') :=
      match theme config with
      | theme_github =>
          let '(level, random') :=
            calculateGitHubIntensity (Z.of_nat row) (Z.of_nat col)
              (Z.of_nat height) (Z.of_nat width) random in
          (at_index emojis level, random')
      | theme_default =>
          selectEmoji emojis (Z.of_nat row) (Z.of_nat col)
            (Z.of_nat height) (Z.of_nat width) (mode config) random
      end in
    match rawEmoji with
    | Some rawEmoji => Some (fitToWidth rawEmoji cellWidth, random')
    | None => None
    end
  else Some (fitToWidth (bgEmojiOf config) cellWidth, random).

(** The inner loop, over the columns still to visit. *)
Fixpoint renderCols (config : RenderConfig) (bitmap : Bitmap)
    (height width : nat) (row : nat) (cols : list nat) (line : jsstring)
    (random : SeededRandom) : option (jsstring * SeededRandom) :=
  match cols with
  | [] => Some (line, random)
  | col :: cols' =>
      match renderCell config bitmap height width row col random with
      | Some (cell, random') =>
          renderCols config bitmap height width row cols' (line ++ cell) random'
      | None => None
      end
  end.

(** The outer loop, over the rows still to visit. *)
Fixpoint renderRows (config : RenderConfig) (bitmap : Bitmap)
    (height width : nat) (rows : list nat) (lines : list jsstring)
    (random : SeededRandom) : option (list jsstring * SeededRandom) :=
  match rows with
  | [] => Some (lines, random)
  | row :: rows' =>
      match renderCols config bitmap height width row (seq 0 width) [] random with
      | Some (line, random') =>
          renderRows config bitmap height width rows' (lines ++ [line]) random'
      | None => None
      end
  end.

(** The array [lines] at the end of [renderBitmap]. *)
Definition renderLines (host : Host) (bitmap : Bitmap) (config : RenderConfig)
    : option (list jsstring) :=
  let height := length bitmap in
  let width := match bitmap with [] => 0%nat | row0 :: _ => length row0 end in
  let random := new_SeededRandom host (Some 42) in
  fst <$> renderRows config bitmap height width (seq 0 height) [] random.

(** [renderBitmap]; [None] is the exception of a cell without emoji. *)
Definition renderBitmap (host : Host) (bitmap : Bitmap) (config : RenderConfig)
    : option BannerResult.t :=
  let height := length bitmap in
  let width := match bitmap with [] => 0%nat | row0 :: _ => length row0 end in
  match renderLines host bitmap config with
  | Some lines =>
      Some {| BannerResult.text := join [LF] lines;
              BannerResult.backgroundEmoji := bgEmojiOf config;
              BannerResult.bitmap := bitmap;
              BannerResult.width := width;
              BannerResult.height := height |}
  | None => None
  end.

End WithHost.

End Renderer.

(** ** Sample data

    A small font in the format of [fonts.ts] and an upper-casing that covers
    the ASCII letters, to run the definitions on concrete inputs. *)

Module Sample.

Import JS.
Local Open Scope Z_scope.

Definition upper (s : jsstring) : jsstring :=
  (fun c => if (97 <=? c) && (c <=? 122) then c - 32 else c) <$> s.

(** Patterns are written with [#] (35) and space (32). *)
Definition glyph_A : list jsstring :=
  [[32; 35; 32]; [35; 32; 35]; [35; 35; 35]; [35; 32; 35]; [35; 32; 35]].
Definition glyph_B : list jsstring :=
  [[35; 35; 32]; [35; 32; 35]; [35; 35; 32]; [35; 32; 35]; [35; 35; 32]].
Definition glyph_I : list jsstring :=
  [[35]; [35]; [35]; [35]; [35]].
Definition glyph_question : list jsstring :=
  [[35; 35; 35]; [32; 32; 35]; [32; 35; 32]; [32; 32; 32]; [32; 35; 32]].
Definition glyph_space : list jsstring :=
  [[32; 32]; [32; 32]; [32; 32]; [32; 32]; [32; 32]].

Definition font : PixelFont.t :=
  {| PixelFont.map :=
       list_to_map [([65], glyph_A); ([66], glyph_B); ([73], glyph_I);
                    ([QUESTION], glyph_question); ([SPACE], glyph_space)];
     PixelFont.height := 5;
     PixelFont.letterSpacing := 1;
     PixelFont.lineSpacing := 1 |}.

Definition horizontal : Bitmap.TextToBitmapOptions := {| Bitmap.vertical := None |}.
Definition stacked : Bitmap.TextToBitmapOptions := {| Bitmap.vertical := Some true |}.

(** The emoji U+1F525 as its surrogate pair. *)
Definition fire : jsstring := [0xD83D; 0xDD25].

(** A host for the renderer: the pictographic block U+1F300 to U+1FAFF, no
    segmenter, two spaces as default background, five squares as palette,
    and constant stand-ins for the trigonometric functions. *)
Definition pictographic (c : Z) : bool := Renderer.in_range 0x1F300 0x1FAFF c.
Definition background : jsstring := [SPACE; SPACE].
Definition github : list jsstring :=
  [[0x2B1C]; [0xD83D; 0xDFE9]; [0xD83D; 0xDFE2]; [0xD83D; 0xDC9A]; [0xD83C; 0xDF32]].
Definition sin (x : Q) : Q := 0%Q.
Definition cos (x : Q) : Q := 1%Q.

Definition bitmap_AB : list (list bool) :=
  [[false; true; false; false; true; true; false];
   [true; false; true; false; true; false; true];
   [true; true; true; false; true; true; false];
   [true; false; true; false; true; false; true];
   [true; false; true; false; true; true; false]].

Definition config : Renderer.RenderConfig :=
  {| Renderer.foregroundEmojis := [fire];
     Renderer.backgroundEmoji := [];
     Renderer.borderEmoji := None;
     Renderer.mode := Renderer.mode_random;
     Renderer.theme := Renderer.theme_default |}.

End Sample.

(** ** Measures on bitmaps *)

Module BitmapExtra.

Import JS Bitmap.

Section WithFont.

Variable toUpperCase : jsstring -> jsstring.

(** The columns a line of [characters] takes: the widths of the patterns and
    the letter spacing between neighbours. *)
Definition lineWidth (font : PixelFont.t) (characters : list jsstring) : nat :=
  (sum_list ((fun char => patternWidth (getCharacterPattern toUpperCase char font))
               <$> characters)
   + PixelFont.letterSpacing font * (length characters - 1))%nat.

End WithFont.

(** The number of foreground cells of a bitmap. *)
Definition foregroundCells (bitmap : Bitmap) : nat :=
  sum_list ((fun row => length (filter Is_true row)) <$> bitmap).

End BitmapExtra.

(** ** Literals and substrings *)

Module Text.

Import JS.
Local Open Scope Z_scope.

(** A string literal of the source, for ASCII text. *)
Definition str (s : String.string) : jsstring :=
  (fun a => Z.of_N (Ascii.N_of_ascii a)) <$> String.list_ascii_of_string s.

Fixpoint startsWith (needle s : jsstring) : bool :=
  match needle, s with
  | [], _ => true
  | _ :: _, [] => false
  | a :: needle', b :: s' => (a =? b) && startsWith needle' s'
  end.

(** [s.includes(needle)]. *)
Fixpoint includes (needle s : jsstring) : bool :=
  startsWith needle s
  || match s with
     | [] => false
     | _ :: s' => includes needle s'
     end.

End Text.

(** ** renderer.ts, the remaining exports *)

Module RendererExtra.

Import JS Text Renderer.
Import String.StringSyntax.
Local Open Scope string_scope.
Local Open Scope Z_scope.

(** The case labels of the [switch] in [selectEmoji]. *)
Definition mode_of_string (mode : jsstring) : EmojiMode :=
  if decide (mode = str "random") then mode_random
  else if decide (mode = str "row") then mode_row
  else if decide (mode = str "column") then mode_column
  else if decide (mode = str "row-gradient") then mode_row_gradient
  else if decide (mode = str "column-gradient") then mode_column_gradient
  else mode_unknown.

(** [theme === 'github'], the one test [renderBitmap] makes on the theme. *)
Definition theme_of_string (theme : jsstring) : Theme :=
  if decide (theme = str "github") then theme_github else theme_default.

Section WithHost.

Variable getBackgroundEmoji : jsstring.

(** [createDefaultConfig]: an argument left out is [None]. *)
Definition createDefaultConfig (foregroundEmojis : list jsstring)
    (backgroundEmoji : option jsstring) (mode theme : option jsstring)
    : RenderConfig :=
  {| foregroundEmojis := foregroundEmojis;
     backgroundEmoji :=
       match backgroundEmoji with
       | Some (c :: rest) => c :: rest
       | _ => getBackgroundEmoji
       end;
     borderEmoji := None;
     mode := mode_of_string (default (str "random") mode);
     theme := theme_of_string (default (str "default") theme) |}.

End WithHost.

(** One step of the loop of [getDisplayWidth]: the width after [char]. *)
Definition widthStep (Extended_Pictographic : Z -> bool) (width : Z)
    (char : jsstring) : Z :=
  if bool_decide (char = [0x3000]) then width + 2
  else if EXTENDED_PICTO_REGEX_test Extended_Pictographic char
          || EMOJI_REGEX_test char || WIDE_CHAR_REGEX_test char
  then width + 2
  else width + 1.

(** The configuration with another mode. *)
Definition with_mode (config : RenderConfig) (mode' : EmojiMode) : RenderConfig :=
  {| foregroundEmojis := foregroundEmojis config;
     backgroundEmoji := backgroundEmoji config;
     borderEmoji := borderEmoji config;
     mode := mode';
     theme := theme config |}.

(** How often one foreground cell calls [next()]: once under the GitHub
    theme, once in mode [random] with two or more candidates, never
    otherwise. *)
Definition drawsPerCell (emojis : list jsstring) (config : RenderConfig) : nat :=
  match theme config with
  | theme_github => 1
  | theme_default =>
      match mode config with
      | mode_random => if (length emojis =? 1)%nat then 0 else 1
      | _ => 0
      end
  end.

(** [renderBitmapCustom]: every row is visited over its own length. *)
Definition renderBitmapCustom (bitmap : Bitmap)
    (selector : nat -> nat -> bool -> jsstring) : jsstring :=
  join [LF]
    (imap (fun row cells =>
             concat (imap (fun col isForeground => selector row col isForeground)
                          cells))
          bitmap).

(** The foreground cells that [renderBitmap] visits: those within the width
    of the first row. *)
Definition isForegroundAt (bitmap : Bitmap) (row col : nat) : bool :=
  default false (bitmap !! row ≫= (.!! col)).

Definition visitedForeground (bitmap : Bitmap) : nat :=
  let width := match bitmap with [] => 0%nat | row0 :: _ => length row0 end in
  sum_list ((fun row => length (filter (fun col => isForegroundAt bitmap row col)
                                       (seq 0 width)))
              <$> seq 0 (length bitmap)).

End RendererExtra.

(** ** cli.ts *)

Module Cli.

Import JS Text.
Import String.StringSyntax.
Local Open Scope string_scope.
Local Open Scope Z_scope.

Definition VALID_MODES : list jsstring :=
  [str "random"; str "row"; str "column"; str "row-gradient";
   str "column-gradient"].

Definition VALID_FORMATS : list jsstring := [str "text"; str "slack"].

Definition VALID_THEMES : list jsstring := [str "default"; str "github"].

(** The value of [--border [emoji]]: [true] when the emoji is left out. *)
Inductive Border :=
  | border_flag (flag : bool)
  | border_emoji (emoji : jsstring).

(** Truthiness of an optional string and of the border option. *)
Definition truthy (s : option jsstring) : bool :=
  match s with
  | Some (_ :: _) => true
  | _ => false
  end.

Definition truthy_border (border : option Border) : bool :=
  match border with
  | Some (border_flag flag) => flag
  | Some (border_emoji (_ :: _)) => true
  | _ => false
  end.

(** [program.opts()] as commander fills it for the options of [createCLI]:
    the options with a default are strings, the others may be [undefined]. *)
Record Opts := {
  opt_emoji : jsstring;
  opt_background : option jsstring;
  opt_file : option jsstring;
  opt_copy : option bool;
  opt_format : jsstring;
  opt_theme : jsstring;
  opt_mode : jsstring;
  opt_font : jsstring;
  opt_border : option Border
}.

Record Command := { opts : Opts; args : list jsstring }.

Record CLIOptions := {
  text : option jsstring;
  file : option jsstring;
  emoji : jsstring;
  background : option jsstring;
  copy : option bool;
  format : option jsstring;
  theme : option jsstring;
  mode : option jsstring;
  font : option jsstring;
  vertical : option bool;
  border : option Border
}.

(** The options with another border. *)
Definition with_border (options : CLIOptions) (border' : option Border)
    : CLIOptions :=
  {| text := text options;
     file := file options;
     emoji := emoji options;
     background := background options;
     copy := copy options;
     format := format options;
     theme := theme options;
     mode := mode options;
     font := font options;
     vertical := vertical options;
     border := border' |}.

(** What a call of [fs] throws: an [Error] with its message, or another
    value. *)
Inductive Thrown :=
  | thrown_Error (message : jsstring)
  | thrown_value.

(** The three calls of [fs/promises], each on a path. *)
Record FileSystem := {
  access : jsstring -> option Thrown;
  stat_size : jsstring -> Thrown + Z;
  readFile : jsstring -> Thrown + jsstring
}.

Definition maxSize : Z := 1024 * 1024.

(** The [catch] block of [readTextFromFile]: the message of the error it
    throws. *)
Definition readTextFromFile_catch (filePath : jsstring) (error : Thrown)
    : jsstring :=
  match error with
  | thrown_Error message =>
      if includes (str "ENOENT") message then str "File not found: " ++ filePath
      else if includes (str "EACCES") message
      then str "Permission denied: " ++ filePath
      else message
  | thrown_value => str "Failed to read file: " ++ filePath
  end.

(** [readTextFromFile]: the promise is rejected with an error of the given
    message ([inl]) or resolved with the text ([inr]). *)
Definition readTextFromFile (fs : FileSystem) (filePath : jsstring)
    : jsstring + jsstring :=
  if (length filePath =? 0)%nat then inl (str "Invalid file path")
  else if includes (str "..") filePath then inl (str "Path traversal not allowed")
  else
    match access fs filePath with
    | Some error => inl (readTextFromFile_catch filePath error)
    | None =>
        match stat_size fs filePath with
        | inl error => inl (readTextFromFile_catch filePath error)
        | inr size =>
            if size >? maxSize
            then inl (readTextFromFile_catch filePath
                        (thrown_Error
                           (str "File too large. Maximum size is 1048576 bytes")))
            else
              match readFile fs filePath with
              | inl error => inl (readTextFromFile_catch filePath error)
              | inr content => inr (Renderer.trim content)
              end
        end
    end.

Definition parseCLIOptions (fs : FileSystem) (program : Command)
    : jsstring + CLIOptions :=
  let opts := opts program in
  let text :=
    if truthy (opt_file opts)
    then
      match readTextFromFile fs (default [] (opt_file opts)) with
      | inl message => inl message
      | inr content => inr (Some content)
      end
    else inr (head (args program)) in
  match text with
  | inl message => inl message
  | inr text =>
      let mode := opt_mode opts in
      if negb (bool_decide (mode ∈ VALID_MODES))
      then inl (str "Invalid mode: " ++ mode ++ str ". Valid modes are: "
                ++ join (str ", ") VALID_MODES)
      else
        let format := opt_format opts in
        if negb (bool_decide (format ∈ VALID_FORMATS))
        then inl (str "Invalid format: " ++ format ++ str ". Valid formats are: "
                  ++ join (str ", ") VALID_FORMATS)
        else
          let theme := opt_theme opts in
          if negb (bool_decide (theme ∈ VALID_THEMES))
          then inl (str "Invalid theme: " ++ theme ++ str ". Valid themes are: "
                    ++ join (str ", ") VALID_THEMES)
          else
            inr {| text := text;
                   file := opt_file opts;
                   emoji := opt_emoji opts;
                   background := opt_background opts;
                   copy := Some (default false (opt_copy opts));
                   format := Some format;
                   theme := Some theme;
                   mode := Some mode;
                   font := Some (opt_font opts);
                   vertical := None;
                   border := opt_border opts |}
  end.

(** [validateOptions]: [inl] is the message of the error it throws. *)
Definition validateOptions (options : CLIOptions) : jsstring + unit :=
  if negb (truthy (text options)) && negb (truthy (file options))
  then inl (str "Text is required. Provide text as an argument or use --file option."
            ++ [LF] ++ str "Run with --help for usage information.")
  else if (length (emoji options) =? 0)%nat
  then inl (str "Emoji is required. Use --emoji option.")
  else if truthy_border (border options)
  then
    let backgroundProvided :=
      truthy (background options)
      || bool_decide (theme options = Some (str "github")) in
    if negb backgroundProvided
    then inl (str "Border requires a background emoji. Specify --background <emoji>.")
    else inr tt
  else inr tt.

End Cli.

(** ** index.ts *)

Module Index.

Import JS Text PixelFont.
Import String.StringSyntax.
Local Open Scope string_scope.
Local Open Scope Z_scope.

(** How [generateBanner] fails: its own error, an error of [textToBitmap],
    an exception of [parseEmojis], [resolveEmoji] or [getFont], or the
    [TypeError] of a cell without emoji. *)
Inductive Failure :=
  | BorderRequiresBackground
  | BitmapFailure (error : Bitmap.Error)
  | HostFailure
  | RenderFailure.

Section WithHost.

Variable toUpperCase : jsstring -> jsstring.
Variable Extended_Pictographic : Z -> bool.
Variable graphemeSegmenter : option (jsstring -> list jsstring).
Variable getBackgroundEmoji : jsstring.
Variable getThemeEmojis_github : list jsstring.
Variable Math_sin : Q -> Q.
Variable Math_cos : Q -> Q.

(** [parseEmojis] and [resolveEmoji] of [emoji.ts] and [getFont] of
    [fonts.ts]: [None] when the call throws. *)
Variable parseEmojis : jsstring -> option (list jsstring).
Variable resolveEmoji : jsstring -> option jsstring.
Variable getFont : jsstring -> option PixelFont.t.

(** [getThemeBackground('github')] of [themes.ts] and [DEFAULT_FONT_NAME] of
    [fonts.ts]. *)
Variable getThemeBackground_github : jsstring.
Variable DEFAULT_FONT_NAME : jsstring.

(** [textToBitmap] of [bitmap.ts] with the font given by name: [getFont] is
    called once the text has passed both checks. *)
Definition textToBitmap (text : option jsstring) (fontName : option jsstring)
    (options : Bitmap.TextToBitmapOptions) : Failure + Bitmap.Bitmap :=
  match text with
  | None => inl (BitmapFailure Bitmap.TextInputRequired)
  | Some text =>
      if (length text =? 0)%nat then inl (BitmapFailure Bitmap.TextInputRequired)
      else if (length (Bitmap.sanitizedText text options) =? 0)%nat
      then inl (BitmapFailure Bitmap.TextEmptyAfterSanitization)
      else
        match getFont (default DEFAULT_FONT_NAME fontName) with
        | None => inl HostFailure
        | Some font =>
            match Bitmap.textToBitmap toUpperCase (Some text) font options with
            | inl error => inl (BitmapFailure error)
            | inr bitmap => inr bitmap
            end
        end
  end.

(** The background emoji of [generateBanner]; the outer [None] is an
    exception of [resolveEmoji]. *)
Definition backgroundOf (options : Cli.CLIOptions) : option (option jsstring) :=
  if Cli.truthy (Cli.background options)
  then Some <$> resolveEmoji (default [] (Cli.background options))
  else if bool_decide (Cli.theme options = Some (str "github"))
  then Some (Some getThemeBackground_github)
  else Some None.

(** The border emoji of [generateBanner]. *)
Definition borderOf (options : Cli.CLIOptions) (backgroundEmoji : option jsstring)
    : Failure + option jsstring :=
  if Cli.truthy_border (Cli.border options)
  then
    if negb (Cli.truthy backgroundEmoji) then inl BorderRequiresBackground
    else
      match Cli.border options with
      | Some (Cli.border_emoji emoji) =>
          match resolveEmoji emoji with
          | Some borderEmoji => inr (Some borderEmoji)
          | None => inl HostFailure
          end
      | _ => inr backgroundEmoji
      end
  else inr None.

(** [generateBanner]: the fifth argument of [createDefaultConfig], the
    border emoji, has no parameter to bind to. *)
Definition generateBanner (host : Renderer.Host) (options : Cli.CLIOptions)
    : Failure + BannerResult.t :=
  match parseEmojis (Cli.emoji options) with
  | None => inl HostFailure
  | Some foregroundEmojis =>
      match backgroundOf options with
      | None => inl HostFailure
      | Some backgroundEmoji =>
          match borderOf options backgroundEmoji with
          | inl failure => inl failure
          | inr borderEmoji =>
              match textToBitmap (Cli.text options) (Cli.font options)
                      {| Bitmap.vertical :=
                           Some (default false (Cli.vertical options)) |} with
              | inl failure => inl failure
              | inr bitmap =>
                  let config :=
                    RendererExtra.createDefaultConfig getBackgroundEmoji
                      foregroundEmojis backgroundEmoji (Cli.mode options)
                      (Cli.theme options) in
                  match Renderer.renderBitmap Extended_Pictographic
                          graphemeSegmenter getBackgroundEmoji
                          getThemeEmojis_github Math_sin Math_cos host bitmap
                          config with
                  | Some result => inr result
                  | None => inl RenderFailure
                  end
              end
          end
      end
  end.

End WithHost.

End Index.

(** ** A command line to evaluate on *)

Module SampleCli.

Import JS Text.
Import String.StringSyntax.
Local Open Scope string_scope.
Local Open Scope Z_scope.

(** One candidate per call, names resolved to themselves, one font. *)
Definition parseEmojis (emoji : jsstring) : option (list jsstring) := Some [emoji].
Definition resolveEmoji (name : jsstring) : option jsstring :=
  match name with
  | [] => None
  | _ => Some name
  end.
Definition getFont (name : jsstring) : option PixelFont.t := Some Sample.font.
Definition themeBackground : jsstring := [0x2B1B].
Definition fontName : jsstring := str "block".

(** [emoji-banner AB -b "  " --border]. *)
Definition opts : Cli.Opts :=
  {| Cli.opt_emoji := Sample.fire;
     Cli.opt_background := Some [SPACE; SPACE];
     Cli.opt_file := None;
     Cli.opt_copy := None;
     Cli.opt_format := str "text";
     Cli.opt_theme := str "default";
     Cli.opt_mode := str "random";
     Cli.opt_font := fontName;
     Cli.opt_border := Some (Cli.border_flag true) |}.

Definition program : Cli.Command := {| Cli.opts := opts; Cli.args := [[65; 66]] |}.

Definition options : Cli.CLIOptions :=
  {| Cli.text := Some [65; 66];
     Cli.file := None;
     Cli.emoji := Sample.fire;
     Cli.background := Some [SPACE; SPACE];
     Cli.copy := Some false;
     Cli.format := Some (str "text");
     Cli.theme := Some (str "default");
     Cli.mode := Some (str "random");
     Cli.font := Some fontName;
     Cli.vertical := None;
     Cli.border := Some (Cli.border_flag true) |}.

(** [emoji-banner -f blank.txt], the file holding a space and a line feed. *)
Definition fs : Cli.FileSystem :=
  {| Cli.access := fun _ => None;
     Cli.stat_size := fun _ => inr 2;
     Cli.readFile := fun _ => inr [SPACE; LF] |}.

Definition program_file : Cli.Command :=
  {| Cli.opts :=
       {| Cli.opt_emoji := Sample.fire;
          Cli.opt_background := None;
          Cli.opt_file := Some (str "blank.txt");
          Cli.opt_copy := None;
          Cli.opt_format := str "text";
          Cli.opt_theme := str "default";
          Cli.opt_mode := str "random";
          Cli.opt_font := fontName;
          Cli.opt_border := None |};
     Cli.args := [] |}.

End SampleCli.

(** * Properties *)

(** ** Text normalisation *)

Module BitmapFacts.

Import JS Bitmap.
Local Open Scope Z_scope.

Lemma decodeEscapes_loop_correct (fuel : nat) (text : jsstring) :
  forall (i : nat) (result : jsstring),
    (length text - i <= fuel)%nat ->
    decodeEscapes_loop fuel text i result
    = result ++ decodeEscapes_spec (drop i text).
Proof.
  induction fuel as [|fuel IH]; intros i result Hfuel.
  - simpl. rewrite drop_ge by lia. simpl. by rewrite app_nil_r.
  - simpl. destruct (text !! i) as [char|] eqn:Hi.
    + rewrite (drop_S _ _ _ Hi). simpl.
      destruct (negb (char =? BACKSLASH)) eqn:Hc.
      * rewrite IH by lia. rewrite <- app_assoc. simpl.
        by replace (i + 1)%nat with (S i) by lia.
      * replace (i + 1)%nat with (S i) by lia.
        destruct (text !! S i) as [next|] eqn:Hn.
        -- rewrite (drop_S _ _ _ Hn).
           replace (i + 2)%nat with (S (S i)) by lia.
           apply lookup_lt_Some in Hn.
           destruct (next =? LOWER_N); [|destruct (next =? BACKSLASH)];
             rewrite IH by lia; by rewrite <- app_assoc.
        -- apply lookup_ge_None_1 in Hn. rewrite (drop_ge _ (S i)) by lia.
           rewrite IH by lia. rewrite drop_ge by lia. simpl.
           by rewrite app_nil_r.
    + apply lookup_ge_None_1 in Hi. rewrite drop_ge by lia. simpl.
      by rewrite app_nil_r.
Qed.

Lemma decodeEscapes_eq_spec (text : jsstring) :
  decodeEscapes text = decodeEscapes_spec text.
Proof.
  unfold decodeEscapes. rewrite decodeEscapes_loop_correct by lia.
  by rewrite drop_0.
Qed.

(** C7. Escape decoding turns backslash-n into a line break and a doubled
    backslash into one backslash, leaves any other backslash-X pair as the
    two characters backslash and X, keeps a trailing unpaired backslash, and
    passes every other character through unchanged. *)
Theorem decodeEscapes_cases (c x : Z) (rest : jsstring) :
  decodeEscapes [] = []
  /\ (c <> BACKSLASH -> decodeEscapes (c :: rest) = c :: decodeEscapes rest)
  /\ decodeEscapes (BACKSLASH :: LOWER_N :: rest) = LF :: decodeEscapes rest
  /\ decodeEscapes (BACKSLASH :: BACKSLASH :: rest)
     = BACKSLASH :: decodeEscapes rest
  /\ (x <> LOWER_N -> x <> BACKSLASH ->
      decodeEscapes (BACKSLASH :: x :: rest)
      = BACKSLASH :: x :: decodeEscapes rest)
  /\ decodeEscapes [BACKSLASH] = [BACKSLASH].
Proof.
  rewrite !decodeEscapes_eq_spec.
  repeat split; try reflexivity.
  - intros Hc. simpl. apply Z.eqb_neq in Hc. by rewrite Hc.
  - intros Hn Hb. simpl. apply Z.eqb_neq in Hn, Hb. by rewrite Hn, Hb.
Qed.

(** At [c = "a"], [x = "t"] and [rest = "\\nb"] both side conditions hold. *)
Lemma decodeEscapes_cases_witness :
  97 <> BACKSLASH /\ 116 <> LOWER_N /\ 116 <> BACKSLASH
  /\ decodeEscapes (97 :: [BACKSLASH; LOWER_N; 98])
     = 97 :: decodeEscapes [BACKSLASH; LOWER_N; 98]
  /\ decodeEscapes (BACKSLASH :: 116 :: [BACKSLASH; LOWER_N; 98])
     = BACKSLASH :: 116 :: decodeEscapes [BACKSLASH; LOWER_N; 98].
Proof.
  pose proof (decodeEscapes_cases 97 116 [BACKSLASH; LOWER_N; 98])
    as (_ & Hc & _ & _ & Hx & _).
  assert (H1 : 97 <> BACKSLASH) by (unfold BACKSLASH; lia).
  assert (H2 : 116 <> LOWER_N) by (unfold LOWER_N; lia).
  assert (H3 : 116 <> BACKSLASH) by (unfold BACKSLASH; lia).
  exact (conj H1 (conj H2 (conj H3 (conj (Hc H1) (Hx H2 H3))))).
Defined.

(** ** Lines and vertical stacking *)

Lemma split_nonempty (sep : Z) (s : jsstring) : split sep s <> [].
Proof.
  destruct s as [|c rest]; simpl; [done|].
  destruct (c =? sep); [done|]. by destruct (split sep rest).
Qed.

Lemma split_app_sep (sep : Z) (a b : jsstring) :
  split sep (a ++ sep :: b) = split sep a ++ split sep b.
Proof.
  induction a as [|c a IH]; simpl.
  - by rewrite Z.eqb_refl.
  - destruct (c =? sep); [by rewrite IH|].
    rewrite IH. pose proof (split_nonempty sep a).
    by destruct (split sep a).
Qed.

Lemma split_no_sep (sep : Z) (s : jsstring) :
  sep ∉ s -> split sep s = [s].
Proof.
  induction s as [|c s IH]; intros Hnot; [done|]. simpl.
  apply not_elem_of_cons in Hnot as [Hne Hnot].
  destruct (Z.eqb_spec c sep) as [->|_]; [done|]. by rewrite IH.
Qed.

Lemma split_parts_no_sep (sep : Z) (s : jsstring) :
  Forall (fun line => sep ∉ line) (split sep s).
Proof.
  induction s as [|c s IH]; simpl.
  - repeat constructor. by intros ?%elem_of_nil.
  - destruct (Z.eqb_spec c sep) as [->|Hne].
    + constructor; [by intros ?%elem_of_nil|done].
    + destruct (split sep s) as [|l ls]; simpl.
      * repeat constructor. intros [?|?%elem_of_nil]%elem_of_cons; done.
      * apply Forall_cons in IH as [Hl Hls]. constructor; [|done].
        intros [?|?]%elem_of_cons; done.
Qed.

Lemma split_join (sep : Z) (parts : list jsstring) :
  parts <> [] -> Forall (fun p => sep ∉ p) parts ->
  split sep (join [sep] parts) = parts.
Proof.
  induction parts as [|p rest IH]; intros Hne Hparts; [done|].
  apply Forall_cons in Hparts as [Hp Hrest].
  destruct rest as [|q rest]; [by apply split_no_sep|].
  change (join [sep] (p :: q :: rest)) with (p ++ sep :: join [sep] (q :: rest)).
  rewrite split_app_sep, split_no_sep by done. by rewrite IH.
Qed.

Lemma Array_from_nil_inv (s : jsstring) : Array_from s = [] -> s = [].
Proof.
  destruct s as [|c [|d rest]]; simpl; try done. by destruct (_ && _).
Qed.

Lemma Array_from_parts (sep : Z) :
  forall (n : nat) (s : jsstring),
    (length s <= n)%nat -> sep ∉ s -> Forall (fun p => sep ∉ p) (Array_from s).
Proof.
  induction n as [|n IH]; intros s Hlen Hnot.
  - destruct s; [constructor|simpl in Hlen; lia].
  - destruct s as [|c [|d rest]]; simpl.
    + constructor.
    + by repeat constructor.
    + apply not_elem_of_cons in Hnot as [Hc Hnot].
      pose proof Hnot as Hnot'.
      apply not_elem_of_cons in Hnot' as [Hd Hrest].
      simpl in Hlen. destruct (_ && _).
      * constructor; [|apply IH; [lia|done]].
        intros [?|[?|?%elem_of_nil]%elem_of_cons]%elem_of_cons; done.
      * constructor; [|apply (IH (d :: rest)); [simpl; lia|done]].
        intros [?|?%elem_of_nil]%elem_of_cons; done.
Qed.

Lemma split_verticalized (line : jsstring) :
  LF ∉ line ->
  split LF (if (length line =? 0)%nat then [] else join [LF] (Array_from line))
  = explode line.
Proof.
  intros Hnot. unfold explode.
  destruct (Nat.eqb_spec (length line) 0) as [_|Hne]; [done|].
  apply split_join.
  - intros Hnil%Array_from_nil_inv. by subst.
  - by apply (Array_from_parts LF (length line)).
Qed.

Lemma split_join_groups (lines : list jsstring) :
  let verticalize := fun line : jsstring =>
    if (length line =? 0)%nat then [] else join [LF] (Array_from line) in
  Forall (fun line => LF ∉ line) lines ->
  split LF (join [LF; LF] (verticalize <$> lines))
  = match lines with
    | [] => [[]]
    | _ => stack_groups (explode <$> lines)
    end.
Proof.
  intros verticalize.
  induction lines as [|l rest IH]; intros Hlines; [done|].
  apply Forall_cons in Hlines as [Hl Hrest].
  assert (Hv : split LF (verticalize l) = explode l)
    by by apply split_verticalized.
  destruct rest as [|l' rest]; [done|].
  specialize (IH Hrest).
  change (split LF (verticalize l ++ LF :: LF
                      :: join [LF; LF] (verticalize <$> l' :: rest))
          = explode l ++ [[]] ++ stack_groups (explode <$> l' :: rest)).
  rewrite split_app_sep, Hv.
  change (split LF (LF :: ?r)) with ([] :: split LF r).
  by rewrite IH.
Qed.

(** In vertical mode the lines of the normalised text are the exploded lines
    of the non-vertical one, the groups one blank line apart. *)
Lemma normalizeTextInput_vertical_lines (text : jsstring) :
  split LF (normalizeTextInput text true)
  = stack_groups (explode <$> split LF (normalizeTextInput text false)).
Proof.
  unfold normalizeTextInput. simpl negb. cbv iota.
  set (normalizedNewlines := replace_cr (replace_crlf (decodeEscapes text))).
  pose proof (split_join_groups (split LF normalizedNewlines)
                (split_parts_no_sep LF normalizedNewlines)) as Hgroups.
  simpl in Hgroups. rewrite Hgroups.
  pose proof (split_nonempty LF normalizedNewlines).
  by destruct (split LF normalizedNewlines).
Qed.

(** ** The length cap *)

Lemma length_Array_from :
  forall (n : nat) (s : jsstring),
    (length s <= n)%nat -> (length (Array_from s) <= length s)%nat.
Proof.
  induction n as [|n IH]; intros s Hlen.
  - destruct s; simpl in *; lia.
  - destruct s as [|c [|d rest]]; [simpl; lia..|].
    simpl in Hlen.
    change (Array_from (c :: d :: rest))
      with (if is_high_surrogate c && is_low_surrogate d
            then [c; d] :: Array_from rest
            else [c] :: Array_from (d :: rest)).
    destruct (_ && _); simpl length.
    + specialize (IH rest). lia.
    + specialize (IH (d :: rest)). simpl in IH. lia.
Qed.

Lemma Array_from_no_high (s : jsstring) :
  Forall (fun c => is_high_surrogate c = false) s ->
  Array_from s = (fun c => [c]) <$> s.
Proof.
  induction s as [|c rest IH]; intros Hs; [done|].
  apply Forall_cons in Hs as [Hc Hrest].
  destruct rest as [|d rest]; [done|].
  change (Array_from (c :: d :: rest))
    with (if is_high_surrogate c && is_low_surrogate d
          then [c; d] :: Array_from rest
          else [c] :: Array_from (d :: rest)).
  rewrite Hc. simpl andb. cbv iota. by rewrite IH.
Qed.

(** C3, as stated, fails on 51 copies of U+1F525: the sanitised text has 51
    characters, fewer than 100, yet only 50 of them reach the rasteriser. *)
Lemma truncatedText_drops_character :
  let text := concat (replicate 51 Sample.fire) in
  length (Array_from (sanitizedText text Sample.horizontal)) = 51%nat
  /\ length (Array_from (truncatedText text Sample.horizontal)) = 50%nat
  /\ Array_from (truncatedText text Sample.horizontal)
     <> take 100 (Array_from (sanitizedText text Sample.horizontal)).
Proof.
  repeat split; [vm_compute; reflexivity..|].
  intros Heq. apply (f_equal length) in Heq. vm_compute in Heq. discriminate.
Qed.

(** Nor is a surrogate needed: of 51 letters [e], each followed by the
    combining accent U+0301, 50 are handed on, though no code unit is a
    surrogate. *)
Example truncatedText_splits_sequences :
  let text := concat (replicate 51 [101; 0x301]) in
  Forall (fun c => is_high_surrogate c = false) (sanitizedText text Sample.horizontal)
  /\ length (sanitizedText text Sample.horizontal) = 102%nat
  /\ truncatedText text Sample.horizontal = concat (replicate 50 [101; 0x301]).
Proof.
  split; [|split; vm_compute; reflexivity].
  vm_compute. repeat constructor.
Qed.

(** ** Trimming *)

Lemma trim_startRow_spec (fuel : nat) (bitmap : Bitmap) :
  forall startRow : nat,
    (length bitmap - startRow <= fuel)%nat ->
    (startRow <= trim_startRow fuel bitmap startRow)%nat
    /\ forall row, bitmap !! trim_startRow fuel bitmap startRow = Some row ->
                   every_not row = false.
Proof.
  induction fuel as [|fuel IH]; intros startRow Hfuel; simpl.
  - split; [lia|]. intros row Hrow. apply lookup_lt_Some in Hrow. lia.
  - destruct (bitmap !! startRow) as [row|] eqn:Hs.
    + destruct (every_not row) eqn:Hrow.
      * destruct (IH (S startRow)) as [Hle Hstop]; [lia|]. split; [lia|done].
      * split; [lia|]. intros row' Hrow'. congruence.
    + split; [lia|]. intros row' Hrow'. congruence.
Qed.

Lemma trim_endRow_spec (fuel : nat) (bitmap : Bitmap) :
  forall endRow : Z,
    endRow + 1 <= Z.of_nat fuel ->
    trim_endRow fuel bitmap endRow <= endRow
    /\ forall row,
         0 <= trim_endRow fuel bitmap endRow ->
         bitmap !! Z.to_nat (trim_endRow fuel bitmap endRow) = Some row ->
         every_not row = false.
Proof.
  induction fuel as [|fuel IH]; intros endRow Hfuel; simpl.
  - split; [lia|]. intros; lia.
  - destruct (0 <=? endRow) eqn:Hpos.
    + destruct (bitmap !! Z.to_nat endRow) as [row|] eqn:He.
      * destruct (every_not row) eqn:Hrow.
        -- destruct (IH (endRow - 1)) as [Hle Hstop]; [lia|]. split; [lia|done].
        -- split; [lia|]. intros row' _ Hrow'. congruence.
      * split; [lia|]. intros row' _ Hrow'. congruence.
    + apply Z.leb_gt in Hpos. split; [lia|]. intros; lia.
Qed.

(** A bitmap whose first and last rows both hold a foreground cell is left
    as it is. *)
Lemma trimBitmap_fixed (bitmap : Bitmap) (first last : list bool) :
  bitmap !! 0%nat = Some first -> every_not first = false ->
  bitmap !! (length bitmap - 1)%nat = Some last -> every_not last = false ->
  trimBitmap bitmap = bitmap.
Proof.
  intros Hfirst Hf Hlast Hl. unfold trimBitmap.
  pose proof (lookup_lt_Some _ _ _ Hfirst) as Hlen.
  destruct (Nat.eqb_spec (length bitmap) 0) as [?|_]; [lia|].
  destruct (length bitmap) as [|n] eqn:Hn; [lia|].
  simpl trim_startRow. rewrite Hfirst, Hf.
  simpl trim_endRow.
  replace (Z.of_nat (S n) - 1) with (Z.of_nat n) by lia.
  destruct (Z.leb_spec 0 (Z.of_nat n)) as [_|?]; [|lia].
  rewrite Nat2Z.id. replace (S n - 1)%nat with n in Hlast by lia.
  rewrite Hlast, Hl.
  destruct (Z.gtb_spec (Z.of_nat 0) (Z.of_nat n)) as [?|_]; [lia|].
  unfold slice. rewrite drop_0. apply take_ge. lia.
Qed.

(** C6. Trimming is idempotent: trimming a trimmed bitmap, the empty
    sentinel included, gives the same bitmap again. *)
Theorem trimBitmap_idempotent (bitmap : Bitmap) :
  trimBitmap (trimBitmap bitmap) = trimBitmap bitmap
  /\ trimBitmap [[]] = [[]].
Proof.
  split; [|reflexivity].
  unfold trimBitmap at 2 3.
  destruct (Nat.eqb_spec (length bitmap) 0) as [Hz|Hnz].
  { unfold trimBitmap. by rewrite Hz. }
  set (startRow := trim_startRow (length bitmap) bitmap 0).
  set (endRow := trim_endRow (length bitmap) bitmap (Z.of_nat (length bitmap) - 1)).
  destruct (Z.gtb_spec (Z.of_nat startRow) endRow) as [_|Hle]; [reflexivity|].
  destruct (trim_startRow_spec (length bitmap) bitmap 0) as [_ Hs]; [lia|].
  destruct (trim_endRow_spec (length bitmap) bitmap (Z.of_nat (length bitmap) - 1))
    as [He1 He2]; [lia|].
  fold startRow in Hs. fold endRow in He1, He2.
  assert (Hlt : (Z.to_nat endRow < length bitmap)%nat) by lia.
  destruct (lookup_lt_is_Some_2 bitmap startRow) as [first Hfirst]; [lia|].
  destruct (lookup_lt_is_Some_2 bitmap (Z.to_nat endRow)) as [last Hlast]; [lia|].
  assert (Hlen : length (slice startRow (endRow + 1) bitmap)
                 = (Z.to_nat (endRow + 1) - startRow)%nat).
  { unfold slice. rewrite length_take, length_drop. lia. }
  apply (trimBitmap_fixed _ first last).
  - unfold slice. rewrite lookup_take_lt by lia. rewrite lookup_drop.
    by rewrite Nat.add_0_r.
  - by apply Hs.
  - rewrite Hlen. unfold slice. rewrite lookup_take_lt by lia.
    rewrite lookup_drop. rewrite <- Hlast. f_equal. lia.
  - apply He2; [lia|done].
Qed.

(** ** Rasterisation and merging keep rows aligned *)

Lemma rectangular_validate (w : nat) (bitmap : Bitmap) :
  rectangular w bitmap ->
  validateBitmap bitmap = true
  /\ forall row, row ∈ bitmap -> length row = width (getBitmapDimensions bitmap).
Proof.
  intros Hrect. destruct bitmap as [|row0 rest]; simpl.
  - split; [done|]. intros row Hin. by apply elem_of_nil in Hin.
  - pose proof Hrect as Hall. apply Forall_cons in Hrect as [H0 _].
    split.
    + rewrite Nat.eqb_refl. simpl. apply forallb_forall. intros row Hin.
      apply Nat.eqb_eq. apply list_elem_of_In in Hin.
      unfold rectangular in Hall. rewrite Forall_forall in Hall.
      rewrite H0. apply Hall. by right.
    + intros row Hin. unfold rectangular in Hall. rewrite Forall_forall in Hall.
      rewrite H0. by apply Hall.
Qed.

Lemma trimBitmap_rectangular (w : nat) (bitmap : Bitmap) :
  rectangular w bitmap -> exists w', rectangular w' (trimBitmap bitmap).
Proof.
  intros Hrect. unfold trimBitmap.
  destruct (length bitmap =? 0)%nat; [by exists w|].
  destruct (_ >? _).
  - exists 0%nat. by repeat constructor.
  - exists w. unfold slice. by apply Forall_take, Forall_drop.
Qed.

Section WithFont.

Variable toUpperCase : jsstring -> jsstring.

Lemma length_pushed (font : PixelFont.t) (nChars charIndex : nat)
    (pattern : list jsstring) (w rowIndex : nat) :
  length (pushed font nChars charIndex pattern w rowIndex)
  = length (pushed font nChars charIndex pattern w 0).
Proof.
  unfold pushed. by rewrite !length_app, !length_fmap, !length_seq.
Qed.

Lemma renderChar_rectangular (font : PixelFont.t) (nChars : nat) (rows : Bitmap)
    (char : jsstring) (charIndex w : nat) :
  rectangular w rows ->
  exists w', rectangular w' (renderChar toUpperCase font nChars rows char charIndex).
Proof.
  intros Hrect. unfold renderChar.
  set (pattern := getCharacterPattern toUpperCase char font).
  exists (w + length (pushed font nChars charIndex pattern (patternWidth pattern) 0))%nat.
  apply Forall_lookup. intros i row Hi.
  rewrite list_lookup_imap in Hi.
  destruct (rows !! i) as [row0|] eqn:Hrow; simplify_eq/=.
  rewrite length_app, length_pushed. f_equal.
  by apply (Forall_lookup_1 _ _ _ _ Hrect Hrow).
Qed.

Lemma forEach_chars_rectangular (font : PixelFont.t) (nChars : nat)
    (characters : list jsstring) :
  forall (charIndex : nat) (rows : Bitmap) (w : nat),
    rectangular w rows ->
    exists w', rectangular w'
                 (forEach_chars toUpperCase font nChars charIndex characters rows).
Proof.
  induction characters as [|char rest IH]; intros charIndex rows w Hrect; simpl.
  - by exists w.
  - destruct (renderChar_rectangular font nChars rows char charIndex w Hrect)
      as [w1 H1].
    by apply (IH _ _ w1).
Qed.

Lemma renderLineToBitmap_rectangular (line : jsstring) (font : PixelFont.t) :
  exists w, rectangular w (renderLineToBitmap toUpperCase line font).
Proof.
  unfold renderLineToBitmap.
  assert (Hrows : rectangular 0 (replicate (PixelFont.height font) ([] : list bool)))
    by by apply Forall_replicate.
  destruct (length (Array_from line) =? 0)%nat.
  - by exists 0%nat.
  - by apply (forEach_chars_rectangular _ _ _ _ _ 0%nat).
Qed.

Lemma length_padRow (w : nat) (rowData : list bool) :
  (length rowData <= w)%nat -> length (padRow w rowData) = w.
Proof. intros Hle. unfold padRow. rewrite length_app, length_replicate. lia. Qed.

Lemma mergeLines_rectangular (lineBitmaps : list Bitmap) (lineSpacing : nat) :
  (forall lineBitmap, lineBitmap ∈ lineBitmaps -> exists w, rectangular w lineBitmap) ->
  exists w, rectangular w (mergeLines lineBitmaps lineSpacing).
Proof.
  intros Hlines. unfold mergeLines.
  destruct (length lineBitmaps =? 0)%nat.
  { exists 0%nat. by repeat constructor. }
  set (firstLen := fun line : Bitmap =>
                     match line !! 0%nat with
                     | Some row => length row
                     | None => 0%nat
                     end).
  set (w := max_list (firstLen <$> lineBitmaps)).
  apply (trimBitmap_rectangular w).
  apply Forall_concat. apply Forall_lookup. intros index rows Hrows.
  rewrite list_lookup_imap in Hrows.
  destruct (lineBitmaps !! index) as [lineBitmap|] eqn:Hline; simplify_eq/=.
  apply Forall_app. split.
  - apply Forall_fmap. apply Forall_lookup. intros r rowData Hr. simpl.
    apply length_padRow.
    destruct (Hlines lineBitmap) as [w0 Hw0];
      [by apply list_elem_of_lookup_2 in Hline|].
    assert (Hfirst : firstLen lineBitmap = w0).
    { unfold firstLen. destruct lineBitmap as [|row0 rest]; [done|]. simpl.
      by apply Forall_cons in Hw0 as [? _]. }
    rewrite (Forall_lookup_1 _ _ _ _ Hw0 Hr). rewrite <- Hfirst.
    apply max_list_elem_of_le. apply list_elem_of_fmap_2.
    by apply list_elem_of_lookup_2 in Hline.
  - destruct (_ && _); [|by constructor].
    apply Forall_replicate. by rewrite length_replicate.
Qed.

(** C5. Every bitmap that [textToBitmap] returns is rectangular: all rows
    have the length of the first row, which is the width that
    [getBitmapDimensions] reports, and [validateBitmap] accepts it. *)
Theorem textToBitmap_rectangular (text : option jsstring) (font : PixelFont.t)
    (options : TextToBitmapOptions) (bitmap : Bitmap) :
  textToBitmap toUpperCase text font options = inr bitmap ->
  validateBitmap bitmap = true
  /\ forall row, row ∈ bitmap -> length row = width (getBitmapDimensions bitmap).
Proof.
  unfold textToBitmap. intros Hret.
  destruct text as [text|]; [|done].
  destruct (length text =? 0)%nat; [done|].
  destruct (length (sanitizedText text options) =? 0)%nat; [done|].
  injection Hret as <-.
  destruct (mergeLines_rectangular
              ((fun line => renderLineToBitmap toUpperCase line font)
                 <$> split LF (slice0 MAX_TEXT_LENGTH (sanitizedText text options)))
              (PixelFont.lineSpacing font)) as [w Hw].
  - intros lineBitmap Hin. apply list_elem_of_fmap in Hin as (line & -> & _).
    apply renderLineToBitmap_rectangular.
  - by apply (rectangular_validate w).
Qed.

(** ** Failure and success of [textToBitmap] *)

Lemma sanitizedText_nil (options : TextToBitmapOptions) :
  sanitizedText [] options = [].
Proof. by destruct options as [[[]|]]. Qed.

(** ** Texts that vanish *)

Lemma replace_crlf_id :
  forall (n : nat) (s : jsstring),
    (length s <= n)%nat -> CR ∉ s -> replace_crlf s = s.
Proof.
  induction n as [|n IH]; intros s Hlen Hnot.
  - destruct s; [done|simpl in Hlen; lia].
  - destruct s as [|c [|d rest]]; [done..|].
    change (replace_crlf (c :: d :: rest))
      with (if (c =? CR) && (d =? LF) then LF :: replace_crlf rest
            else c :: replace_crlf (d :: rest)).
    apply not_elem_of_cons in Hnot as [Hc Hrest].
    destruct (Z.eqb_spec c CR) as [?|_]; [done|]. simpl andb. cbv iota.
    simpl in Hlen. by rewrite (IH (d :: rest)) by (simpl; lia || done).
Qed.

Lemma replace_cr_id (s : jsstring) : CR ∉ s -> replace_cr s = s.
Proof.
  unfold replace_cr. induction s as [|c s IH]; intros Hnot; [done|].
  apply not_elem_of_cons in Hnot as [Hc Hs]. rewrite fmap_cons, IH by done.
  by destruct (Z.eqb_spec c CR).
Qed.

Lemma replace_crlf_CR :
  forall (n : nat) (s : jsstring),
    (length s <= n)%nat -> CR ∈ s ->
    CR ∈ replace_crlf s \/ LF ∈ replace_crlf s.
Proof.
  induction n as [|n IH]; intros s Hlen Hin.
  - destruct s; [by apply elem_of_nil in Hin|simpl in Hlen; lia].
  - destruct s as [|c [|d rest]]; [by apply elem_of_nil in Hin|by left|].
    change (replace_crlf (c :: d :: rest))
      with (if (c =? CR) && (d =? LF) then LF :: replace_crlf rest
            else c :: replace_crlf (d :: rest)).
    simpl in Hlen.
    destruct ((c =? CR) && (d =? LF)); [right; by left|].
    apply elem_of_cons in Hin as [<-|Hin]; [left; by left|].
    destruct (IH (d :: rest)) as [H|H]; [simpl; lia|done|left|right]; by right.
Qed.

Lemma replace_CR_LF (s : jsstring) :
  CR ∈ s -> LF ∈ replace_cr (replace_crlf s).
Proof.
  intros Hin. unfold replace_cr. apply list_elem_of_fmap.
  destruct (replace_crlf_CR (length s) s) as [H|H]; [done|done|..].
  - by exists CR.
  - by exists LF.
Qed.

Lemma replace_nil (s : jsstring) : replace_cr (replace_crlf s) = [] -> s = [].
Proof.
  unfold replace_cr. intros H%fmap_nil_inv.
  destruct s as [|c [|d rest]]; [done|done|].
  change (replace_crlf (c :: d :: rest))
    with (if (c =? CR) && (d =? LF) then LF :: replace_crlf rest
          else c :: replace_crlf (d :: rest)) in H.
  by destruct (_ && _).
Qed.

Lemma sanitize_nil (s : jsstring) :
  sanitize s = [] <-> Forall (fun c => is_control c = true) s.
Proof.
  unfold sanitize. induction s as [|c s IH]; [done|].
  rewrite filter_cons. destruct (is_control c) eqn:Hc.
  - rewrite decide_False by done. rewrite IH. split.
    + intros Hs. by constructor.
    + by intros [_ Hs]%Forall_cons.
  - rewrite decide_True by done. split; [done|].
    intros [Hc' _]%Forall_cons. congruence.
Qed.

Lemma split_singleton (sep : Z) (s l : jsstring) :
  split sep s = [l] -> s = l /\ sep ∉ s.
Proof.
  revert l. induction s as [|c s IH]; intros l; simpl.
  - intros [= <-]. split; [done|]. by intros ?%elem_of_nil.
  - destruct (Z.eqb_spec c sep) as [->|Hne].
    + pose proof (split_nonempty sep s). intros [= _ Hs]. done.
    + destruct (split sep s) as [|l' ls] eqn:Hs; [by pose proof (split_nonempty sep s)|].
      intros [= <- ->]. destruct (IH l' eq_refl) as [-> Hnot].
      split; [done|]. by apply not_elem_of_cons.
Qed.

Lemma Array_from_singleton (s p : jsstring) :
  Array_from s = [p] ->
  s = p /\ ((exists c, s = [c])
            \/ exists hi lo, s = [hi; lo] /\ is_high_surrogate hi = true).
Proof.
  destruct s as [|c [|d rest]]; [done| |].
  - intros [= <-]. split; [done|]. left. by exists c.
  - change (Array_from (c :: d :: rest))
      with (if is_high_surrogate c && is_low_surrogate d
            then [c; d] :: Array_from rest
            else [c] :: Array_from (d :: rest)).
    destruct (is_high_surrogate c && is_low_surrogate d) eqn:Hpair.
    + apply andb_true_iff in Hpair as [Hhi _].
      intros Hfrom. injection Hfrom as <- Hrest.
      apply Array_from_nil_inv in Hrest. subst rest.
      split; [done|]. right. by exists c, d.
    + intros Hfrom. injection Hfrom as _ Hrest.
      destruct rest as [|e rest']; [done|].
      destruct (is_high_surrogate d && is_low_surrogate e); done.
Qed.

Lemma join_LF_cons (sep : jsstring) (p q : jsstring) (rest : list jsstring) :
  LF ∈ sep -> LF ∈ join sep (p :: q :: rest).
Proof.
  intros Hsep.
  change (join sep (p :: q :: rest)) with (p ++ sep ++ join sep (q :: rest)).
  apply elem_of_app. right. apply elem_of_app. by left.
Qed.

(** The text that [textToBitmap] tests is empty exactly when the decoded
    text vanishes. *)
Lemma sanitizedText_vanishes (text : jsstring) (options : TextToBitmapOptions) :
  sanitizedText text options = []
  <-> vanishes (default false (vertical options)) (decodeEscapes text).
Proof.
  unfold sanitizedText, normalizeTextInput, vanishes.
  set (decoded := decodeEscapes text).
  set (normalizedNewlines := replace_cr (replace_crlf decoded)).
  assert (Hplain : Forall (fun c => is_control c = true /\ c <> CR) decoded ->
                   normalizedNewlines = decoded).
  { intros Hall. assert (Hnot : CR ∉ decoded).
    { intros Hin. rewrite Forall_forall in Hall. by destruct (Hall CR Hin). }
    unfold normalizedNewlines.
    rewrite (replace_crlf_id (length decoded)) by done. by apply replace_cr_id. }
  assert (Hback : Forall (fun c => is_control c = true) normalizedNewlines ->
                  Forall (fun c => is_control c = true /\ c <> CR) decoded
                  /\ normalizedNewlines = decoded).
  { intros Hall. assert (Hnot : CR ∉ decoded).
    { intros Hin%replace_CR_LF. rewrite Forall_forall in Hall.
      by specialize (Hall LF Hin). }
    assert (Heq : normalizedNewlines = decoded).
    { unfold normalizedNewlines.
      rewrite (replace_crlf_id (length decoded)) by done. by apply replace_cr_id. }
    split; [|done]. rewrite Heq in Hall.
    rewrite Forall_forall in *. intros c Hc. split; [by apply Hall|].
    by intros ->. }
  destruct (default false (vertical options)); simpl negb; cbv iota.
  - (* vertical *)
    rewrite sanitize_nil. split.
    + intros Hall.
      assert (HnoLF : forall s, Forall (fun c => is_control c = true) s -> LF ∉ s).
      { intros s Hs Hin. rewrite Forall_forall in Hs. by specialize (Hs LF Hin). }
      pose proof (HnoLF _ Hall) as Hno.
      destruct (split LF normalizedNewlines) as [|l [|l' ls]] eqn:Hsplit.
      * by pose proof (split_nonempty LF normalizedNewlines).
      * apply split_singleton in Hsplit as [<- HnoLF'].
        simpl in Hall, Hno.
        destruct (Nat.eqb_spec (length normalizedNewlines) 0) as [Hz|Hnz].
        { apply nil_length_inv, replace_nil in Hz. rewrite Hz.
          split; [done|]. simpl. lia. }
        destruct (Array_from normalizedNewlines) as [|p [|q ps]] eqn:Hfrom.
        -- apply Array_from_nil_inv in Hfrom. by rewrite Hfrom in Hnz.
        -- apply Array_from_singleton in Hfrom as [<- Hshape].
           simpl in Hall. destruct (Hback Hall) as [Hdec Heq].
           split; [done|]. intros _. rewrite <- Heq.
           destruct Hshape as [[c ->]|(hi & lo & -> & Hhi)]; [done|].
           apply Forall_cons in Hall as [Hc _]. exfalso.
           unfold is_high_surrogate in Hhi. unfold is_control in Hc. lia.
        -- exfalso. apply Hno. apply join_LF_cons. by left.
      * exfalso. apply Hno. rewrite !fmap_cons. apply join_LF_cons. by left.
    + intros [Hall Hlen]. specialize (Hlen eq_refl).
      rewrite (Hplain Hall).
      destruct decoded as [|c [|d rest]]; [done| |simpl in Hlen; lia].
      apply Forall_cons in Hall as [[Hc Hcr] _].
      assert (c <> LF) by (by intros ->).
      simpl. destruct (Z.eqb_spec c LF) as [?|_]; [done|]. simpl.
      by repeat constructor.
  - (* horizontal *)
    rewrite sanitize_nil. split.
    + intros Hall. split; [by apply Hback|done].
    + intros [Hall _]. rewrite (Hplain Hall).
      eapply Forall_impl; [exact Hall|]. by intros c [Hc _].
Qed.

(** C9, as the code has it. [textToBitmap], which looks the font up itself,
    fails with one of the two empty-input errors exactly when the text is
    missing or its decoded form vanishes: it holds stripped control
    characters only, none of them a carriage return, and in vertical mode
    at most one. That is when the text the code tests, normalised and
    sanitised, is empty; a text that is empty once decoded and sanitised is
    such a text only in part. A failure carries no bitmap; a text that does
    not vanish gives the bitmap of the named font, or the exception of
    [getFont] when there is no such font. *)
Theorem textToBitmap_fails_iff (getFont : jsstring -> option PixelFont.t)
    (DEFAULT_FONT_NAME : jsstring) (text fontName : option jsstring)
    (options : TextToBitmapOptions) :
  let call :=
    Index.textToBitmap toUpperCase getFont DEFAULT_FONT_NAME text fontName
      options in
  let isVertical := default false (vertical options) in
  ((exists e, call = inl (Index.BitmapFailure e))
   <-> (text = None
        \/ exists t, text = Some t /\ vanishes isVertical (decodeEscapes t)))
  /\ (forall t, sanitizedText t options = []
                <-> vanishes isVertical (decodeEscapes t))
  /\ (forall t, vanishes isVertical (decodeEscapes t) ->
                sanitize (decodeEscapes t) = [])
  /\ (forall failure, call = inl failure -> forall bitmap, call <> inr bitmap)
  /\ (forall t, text = Some t -> ~ vanishes isVertical (decodeEscapes t) ->
        match getFont (default DEFAULT_FONT_NAME fontName) with
        | Some font =>
            exists bitmap,
              call = inr bitmap
              /\ textToBitmap toUpperCase (Some t) font options = inr bitmap
        | None => call = inl Index.HostFailure
        end).
Proof.
  intros call isVertical.
  assert (Hempty : forall t, t = [] -> vanishes isVertical (decodeEscapes t)).
  { intros t ->. split; [done|]. simpl. lia. }
  split; [|split; [|split; [|split]]].
  - subst call. unfold Index.textToBitmap. destruct text as [t|].
    + destruct (Nat.eqb_spec (length t) 0) as [Hz|Hnz].
      { split; [|by eexists]. intros _. right. exists t.
        split; [done|]. by apply Hempty, nil_length_inv. }
      destruct (Nat.eqb_spec (length (sanitizedText t options)) 0) as [Hs|Hs].
      { split; [|by eexists]. intros _. right. exists t. split; [done|].
        by apply sanitizedText_vanishes, nil_length_inv. }
      assert (Hnot : ~ vanishes isVertical (decodeEscapes t)).
      { intros Hv%sanitizedText_vanishes. by rewrite Hv in Hs. }
      split.
      * intros [e He]. exfalso.
        destruct (getFont (default DEFAULT_FONT_NAME fontName)) as [font|];
          [|done].
        unfold textToBitmap in He.
        destruct (Nat.eqb_spec (length t) 0) as [?|_]; [done|].
        by destruct (Nat.eqb_spec (length (sanitizedText t options)) 0)
          as [?|_].
      * intros [?|(t' & [= <-] & Hv)]; done.
    + split; [by left|by eexists].
  - intros t. apply sanitizedText_vanishes.
  - intros t [Hall _]. apply sanitize_nil.
    eapply Forall_impl; [exact Hall|]. by intros c [Hc _].
  - intros failure Hcall bitmap. by rewrite Hcall.
  - intros t -> Hnot. subst call. unfold Index.textToBitmap, textToBitmap.
    destruct (Nat.eqb_spec (length t) 0) as [Hz|_].
    { exfalso. by apply Hnot, Hempty, nil_length_inv. }
    destruct (Nat.eqb_spec (length (sanitizedText t options)) 0) as [Hs|_].
    { exfalso. by apply Hnot, sanitizedText_vanishes, nil_length_inv. }
    destruct (getFont (default DEFAULT_FONT_NAME fontName)) as [font|]; [|done].
    by eexists.
Qed.

Lemma length_concat_nonempty (clusters : list jsstring) :
  Forall (fun cluster => cluster <> []) clusters ->
  (length clusters <= length (concat clusters))%nat.
Proof.
  induction 1 as [|cluster clusters Hne _ IH]; [done|].
  simpl. rewrite length_app. destruct cluster; [done|]. simpl. lia.
Qed.

(** C3, as the code has it. The text handed to the rasteriser is the first
    100 UTF-16 code units of the sanitised text and the rest is dropped. It
    holds at most 100 characters however it is divided into characters, each
    of at least one code unit, and at most 100 code points, the units the
    rasteriser draws a glyph for. Where the sanitised text has no high
    surrogate, so that every code point is one code unit, the code points
    handed on are exactly its first 100 code points. *)
Theorem truncatedText_code_units (text : jsstring) (font : PixelFont.t)
    (options : TextToBitmapOptions) :
  (forall bitmap,
     textToBitmap toUpperCase (Some text) font options = inr bitmap ->
     bitmap = mergeLines
                ((fun line => renderLineToBitmap toUpperCase line font)
                   <$> split LF (truncatedText text options))
                (PixelFont.lineSpacing font))
  /\ truncatedText text options = take 100 (sanitizedText text options)
  /\ sanitizedText text options
     = truncatedText text options ++ drop 100 (sanitizedText text options)
  /\ (length (truncatedText text options) <= 100)%nat
  /\ (forall clusters : list jsstring,
        concat clusters = truncatedText text options ->
        Forall (fun cluster => cluster <> []) clusters ->
        (length clusters <= 100)%nat)
  /\ (length (Array_from (truncatedText text options)) <= 100)%nat
  /\ (Forall (fun c => is_high_surrogate c = false) (sanitizedText text options) ->
      Array_from (truncatedText text options)
      = take 100 (Array_from (sanitizedText text options))).
Proof.
  split.
  { unfold textToBitmap. intros bitmap Hret.
    destruct (length text =? 0)%nat; [done|].
    destruct (length (sanitizedText text options) =? 0)%nat; [done|].
    by injection Hret as <-. }
  unfold truncatedText, slice0, MAX_TEXT_LENGTH.
  set (sanitized := sanitizedText text options).
  assert (Hlen : (length (take 100 sanitized) <= 100)%nat)
    by (rewrite length_take; lia).
  split; [done|]. split; [by rewrite take_drop|]. split; [done|]. split.
  { intros clusters Hconcat Hne.
    apply length_concat_nonempty in Hne. rewrite Hconcat in Hne. lia. }
  split.
  - pose proof (length_Array_from _ (take 100 sanitized) (Nat.le_refl _)). lia.
  - intros Hbmp. rewrite !Array_from_no_high; [|done|by apply Forall_take].
    by rewrite fmap_take.
Qed.

(** C8. With vertical mode on, ["AB"] gives a bitmap, whatever the font:
    the merge of the rasterised lines ["A"] and ["B"], which is also what
    ["A"], line break, ["B"] gives with vertical mode off, whether the line
    break is typed as such or as backslash-n. In general the lines of the
    vertical text are the characters of each line of the decoded text, one
    per line, the groups of distinct lines one blank line apart, where the
    non-vertical text has those lines themselves. *)
Theorem vertical_stacking (font : PixelFont.t) :
  let stacked :=
    mergeLines [renderLineToBitmap toUpperCase [65] font;
                renderLineToBitmap toUpperCase [66] font]
      (PixelFont.lineSpacing font) in
  textToBitmap toUpperCase (Some [65; 66]) font {| vertical := Some true |}
  = inr stacked
  /\ textToBitmap toUpperCase (Some [65; LF; 66]) font {| vertical := Some false |}
     = inr stacked
  /\ textToBitmap toUpperCase (Some [65; BACKSLASH; LOWER_N; 66]) font
       {| vertical := None |}
     = inr stacked
  /\ forall text : jsstring,
       let lines := split LF (replace_cr (replace_crlf (decodeEscapes text))) in
       split LF (normalizeTextInput text false) = lines
       /\ split LF (normalizeTextInput text true)
          = stack_groups (explode <$> lines).
Proof.
  intros stacked. split; [|split; [|split]].
  - unfold textToBitmap.
    by change (sanitizedText [65; 66] {| vertical := Some true |})
      with [65; LF; 66].
  - unfold textToBitmap.
    by change (sanitizedText [65; LF; 66] {| vertical := Some false |})
      with [65; LF; 66].
  - unfold textToBitmap.
    by change (sanitizedText [65; BACKSLASH; LOWER_N; 66] {| vertical := None |})
      with [65; LF; 66].
  - intros text lines. split; [done|].
    by rewrite normalizeTextInput_vertical_lines.
Qed.

End WithFont.

(** Of 101 letters [A] the first 100 are handed on. *)
Lemma truncatedText_code_units_witness :
  length (sanitizedText (replicate 101 65) Sample.horizontal) = 101%nat
  /\ Array_from (truncatedText (replicate 101 65) Sample.horizontal)
     = replicate 100 [65].
Proof.
  split; [reflexivity|].
  destruct (truncatedText_code_units Sample.upper (replicate 101 65) Sample.font
              Sample.horizontal) as (_ & _ & _ & _ & _ & _ & Hbmp).
  rewrite Hbmp; [reflexivity|].
  vm_compute. repeat constructor.
Defined.

(** ["AB"] stacked in the sample font: the letter [A] above the letter [B],
    one spacing row between them; and the lines of ["AB"], line break, ["C"]
    in vertical mode. *)
Lemma vertical_stacking_witness :
  textToBitmap Sample.upper (Some [65; 66]) Sample.font Sample.stacked
  = inr [[false; true; false]; [true; false; true]; [true; true; true];
         [true; false; true]; [true; false; true];
         [false; false; false];
         [true; true; false]; [true; false; true]; [true; true; false];
         [true; false; true]; [true; true; false]]
  /\ split LF (normalizeTextInput [65; 66; LF; 67] true) = [[65]; [66]; []; [67]].
Proof.
  destruct (vertical_stacking Sample.upper Sample.font)
    as (Hstacked & _ & _ & Hlines).
  split.
  - etransitivity; [exact Hstacked|]. vm_compute. reflexivity.
  - etransitivity; [exact (proj2 (Hlines [65; 66; LF; 67]))|].
    vm_compute. reflexivity.
Defined.

(** C9, as stated, fails on a lone carriage return and, in vertical mode, on
    two tabs: both are empty once decoded and sanitised, yet the call
    resolves, with the empty sentinel. *)
Lemma textToBitmap_accepts_blank_text :
  sanitize (decodeEscapes [CR]) = []
  /\ Index.textToBitmap Sample.upper SampleCli.getFont SampleCli.fontName
       (Some [CR]) None Sample.horizontal
     = inr [[]]
  /\ sanitize (decodeEscapes [9; 9]) = []
  /\ Index.textToBitmap Sample.upper SampleCli.getFont SampleCli.fontName
       (Some [9; 9]) None Sample.stacked
     = inr [[]].
Proof. repeat split; vm_compute; reflexivity. Qed.

(** The text ["AB"] does not vanish and a bitmap comes back; a lone tab
    vanishes and the call fails. *)
Lemma textToBitmap_fails_iff_witness :
  (exists bitmap,
     Index.textToBitmap Sample.upper SampleCli.getFont SampleCli.fontName
       (Some [65; 66]) None Sample.horizontal
     = inr bitmap)
  /\ (exists e,
        Index.textToBitmap Sample.upper SampleCli.getFont SampleCli.fontName
          (Some [9]) None Sample.horizontal
        = inl (Index.BitmapFailure e)).
Proof.
  split.
  - destruct (textToBitmap_fails_iff Sample.upper SampleCli.getFont
                SampleCli.fontName (Some [65; 66]) None Sample.horizontal)
      as (_ & _ & _ & _ & Hok).
    destruct (Hok [65; 66]) as (bitmap & Hcall & _); [reflexivity| |by exists bitmap].
    intros [Hall _]. apply Forall_cons in Hall as [[Hc _] _]. discriminate.
  - destruct (textToBitmap_fails_iff Sample.upper SampleCli.getFont
                SampleCli.fontName (Some [9]) None Sample.horizontal)
      as ([_ Hfail] & _).
    apply Hfail. right. exists [9]. split; [reflexivity|].
    split; [|discriminate].
    vm_compute. repeat constructor; discriminate.
Defined.

(** ["AB"] in the sample font: five rows of seven cells. *)
Lemma textToBitmap_rectangular_witness :
  exists bitmap,
    textToBitmap Sample.upper (Some [65; 66]) Sample.font Sample.horizontal
    = inr bitmap
    /\ validateBitmap bitmap = true
    /\ forall row, row ∈ bitmap -> length row = 7%nat.
Proof.
  eexists. split; [vm_compute; reflexivity|].
  apply (textToBitmap_rectangular Sample.upper (Some [65; 66]) Sample.font
           Sample.horizontal).
  vm_compute. reflexivity.
Defined.

End BitmapFacts.

(** ** Binary64 rounding *)

Module FloatFacts.

Import Float.
Local Open Scope Q_scope.

(** *** Powers of two *)

Lemma pow2_pos (e : Z) : 0 < pow2 e.
Proof. apply Qpower_0_lt. reflexivity. Qed.

Lemma pow2_add (a b : Z) : pow2 (a + b) == pow2 a * pow2 b.
Proof. apply Qpower_plus. discriminate. Qed.

Lemma pow2_le (a b : Z) : (a <= b)%Z -> pow2 a <= pow2 b.
Proof. intros H. apply Qpower_le_compat_l; [exact H|discriminate]. Qed.

Lemma pow2_lt (a b : Z) : (a < b)%Z -> pow2 a < pow2 b.
Proof. intros H. apply Qpower_lt_compat_l; [exact H|reflexivity]. Qed.

Lemma pow2_inject (e : Z) : (0 <= e)%Z -> pow2 e == inject_Z (2 ^ e).
Proof. intros H. unfold pow2. symmetry. apply (Zpower_Qpower 2 e H). Qed.

Lemma pow2_sub (a b : Z) : pow2 (a - b) == pow2 a / pow2 b.
Proof.
  unfold Qdiv. rewrite <- (Qmult_1_r (pow2 (a - b))).
  assert (Hb : ~ pow2 b == 0).
  { intros E. pose proof (pow2_pos b) as H. rewrite E in H. discriminate. }
  rewrite <- (Qmult_inv_r (pow2 b)) by exact Hb.
  rewrite Qmult_assoc, <- pow2_add. replace (a - b + b)%Z with a by lia. reflexivity.
Qed.

Lemma Qnum_pos (q : Q) : 0 < q -> (0 < Qnum q)%Z.
Proof. destruct q as [n d]. unfold Qlt. simpl. lia. Qed.

(** *** The binary exponent *)

Lemma log2_bounds (n : Z) :
  (0 < n)%Z -> pow2 (Z.log2 n) <= inject_Z n /\ inject_Z n < pow2 (Z.log2 n + 1).
Proof.
  intros Hn. destruct (Z.log2_spec n Hn) as [Hlo Hhi].
  pose proof (Z.log2_nonneg n) as Hnn.
  rewrite !pow2_inject by lia. rewrite <- Zle_Qle, <- Zlt_Qlt.
  replace (Z.log2 n + 1)%Z with (Z.succ (Z.log2 n)) by lia. done.
Qed.

(** [ilog2 q] is the exponent of the binade of [q]. *)
Lemma ilog2_spec (q : Q) :
  0 < q -> pow2 (ilog2 q) <= q /\ q < pow2 (ilog2 q + 1).
Proof.
  intros Hq. pose proof (Qnum_pos q Hq) as Hn.
  unfold ilog2.
  set (a := Z.log2 (Qnum q)). set (b := Z.log2 (Z.pos (Qden q))).
  destruct (log2_bounds (Qnum q) Hn) as [Ha1 Ha2]. fold a in Ha1, Ha2.
  destruct (log2_bounds (Z.pos (Qden q))) as [Hb1 Hb2]; [lia|]. fold b in Hb1, Hb2.
  assert (HD : 0 < inject_Z (Z.pos (Qden q))) by (rewrite <- (Zlt_Qlt 0); lia).
  assert (Hqd : q == inject_Z (Qnum q) / inject_Z (Z.pos (Qden q))).
  { destruct q as [n d]. apply Qmake_Qdiv. }
  assert (Hup : q < pow2 (a - b + 1)).
  { rewrite Hqd. apply Qlt_shift_div_r; [exact HD|].
    apply (Qlt_le_trans _ _ _ Ha2).
    replace (a + 1)%Z with ((a - b + 1) + b)%Z by lia. rewrite pow2_add.
    apply Qmult_le_l; [apply pow2_pos|exact Hb1]. }
  assert (Hlow : pow2 (a - b - 1) < q).
  { rewrite Hqd. apply Qlt_shift_div_l; [exact HD|].
    apply (Qlt_le_trans _ (pow2 a)); [|exact Ha1].
    replace a with ((a - b - 1) + (b + 1))%Z at 2 by lia. rewrite pow2_add.
    apply Qmult_lt_l; [apply pow2_pos|exact Hb2]. }
  destruct (Qle_bool (pow2 (a - b)) q) eqn:Hle.
  - apply Qle_bool_iff in Hle. split; [exact Hle|exact Hup].
  - split; [apply Qlt_le_weak; exact Hlow|].
    replace (a - b - 1 + 1)%Z with (a - b)%Z by lia.
    apply Qnot_le_lt. intros H. apply Qle_bool_iff in H. congruence.
Qed.

Lemma ilog2_unique (q : Q) (e : Z) :
  pow2 e <= q -> q < pow2 (e + 1) -> ilog2 q = e.
Proof.
  intros Hlo Hhi.
  assert (Hq : 0 < q) by (apply (Qlt_le_trans _ _ _ (pow2_pos e) Hlo)).
  destruct (ilog2_spec q Hq) as [Hlo' Hhi'].
  destruct (Z.lt_trichotomy (ilog2 q) e) as [Hlt|[Heq|Hgt]]; [|exact Heq|].
  - exfalso. apply (Qlt_irrefl q). apply (Qlt_le_trans _ _ _ Hhi').
    apply (Qle_trans _ (pow2 e)); [apply pow2_le; lia|exact Hlo].
  - exfalso. apply (Qlt_irrefl q). apply (Qlt_le_trans _ _ _ Hhi).
    apply (Qle_trans _ (pow2 (ilog2 q))); [apply pow2_le; lia|exact Hlo'].
Qed.

Lemma ilog2_mono (q1 q2 : Q) : 0 < q1 -> q1 <= q2 -> (ilog2 q1 <= ilog2 q2)%Z.
Proof.
  intros H1 Hle.
  assert (H2 : 0 < q2) by (apply (Qlt_le_trans _ _ _ H1 Hle)).
  destruct (ilog2_spec q1 H1) as [Hlo1 _].
  destruct (ilog2_spec q2 H2) as [_ Hhi2].
  destruct (Z.le_gt_cases (ilog2 q1) (ilog2 q2)) as [H|H]; [exact H|].
  exfalso. apply (Qlt_irrefl q2). apply (Qlt_le_trans _ _ _ Hhi2).
  apply (Qle_trans _ (pow2 (ilog2 q1))); [apply pow2_le; lia|].
  apply (Qle_trans _ _ _ Hlo1 Hle).
Qed.

(** *** Rounding to the nearest integer *)

Lemma rne_comp (q1 q2 : Q) : q1 == q2 -> rne q1 = rne q2.
Proof.
  intros H. unfold rne.
  assert (Hf : Qfloor q1 = Qfloor q2) by (rewrite H; reflexivity).
  assert (Hc : Qcompare (q1 - inject_Z (Qfloor q1)) (1 # 2)
               = Qcompare (q2 - inject_Z (Qfloor q2)) (1 # 2))
    by (rewrite Hf, H; reflexivity).
  rewrite Hc, Hf. reflexivity.
Qed.

Lemma rne_Z (z : Z) : rne (inject_Z z) = z.
Proof.
  unfold rne. rewrite Qfloor_Z.
  assert (Hc : Qcompare (inject_Z z - inject_Z z) (1 # 2) = Lt).
  { apply Qlt_alt. assert (E : inject_Z z - inject_Z z == 0) by ring.
    rewrite E. reflexivity. }
  rewrite Hc. reflexivity.
Qed.

Lemma rne_bounds (q : Q) : (Qfloor q <= rne q <= Qfloor q + 1)%Z.
Proof.
  unfold rne. destruct (Qcompare _ _); [destruct (Z.even _)|..]; lia.
Qed.

Lemma rne_mono (q1 q2 : Q) : q1 <= q2 -> (rne q1 <= rne q2)%Z.
Proof.
  intros Hle. pose proof (Qfloor_resp_le _ _ Hle) as Hf.
  destruct (Z.eq_dec (Qfloor q1) (Qfloor q2)) as [Heq|Hne].
  - unfold rne. rewrite <- Heq.
    assert (Hr : q1 - inject_Z (Qfloor q1) <= q2 - inject_Z (Qfloor q1)).
    { apply Qplus_le_l. exact Hle. }
    destruct (Qcompare (q1 - inject_Z (Qfloor q1)) (1 # 2)) eqn:H1;
      destruct (Qcompare (q2 - inject_Z (Qfloor q1)) (1 # 2)) eqn:H2;
      try (destruct (Z.even (Qfloor q1)); lia); try lia; exfalso.
    + apply Qeq_alt in H1. apply Qlt_alt in H2. rewrite H1 in Hr.
      apply (Qlt_irrefl (1 # 2)). apply (Qle_lt_trans _ _ _ Hr H2).
    + apply Qgt_alt in H1. apply Qeq_alt in H2. rewrite H2 in Hr.
      apply (Qlt_irrefl (1 # 2)). apply (Qlt_le_trans _ _ _ H1 Hr).
    + apply Qgt_alt in H1. apply Qlt_alt in H2.
      apply (Qlt_irrefl (1 # 2)). apply (Qlt_le_trans _ _ _ H1).
      apply (Qle_trans _ _ _ Hr). apply Qlt_le_weak. exact H2.
  - pose proof (rne_bounds q1). pose proof (rne_bounds q2). lia.
Qed.

Lemma pow2_nonzero (e : Z) : ~ pow2 e == 0.
Proof. intros E. pose proof (pow2_pos e) as H. rewrite E in H. discriminate. Qed.

(** *** Rounding to 53 bits *)

(** The significand lies in [[2^52, 2^53)] before it is rounded. *)
Lemma scaled_bounds (q : Q) :
  0 < q ->
  pow2 52 <= q / pow2 (ilog2 q - 52) /\ q / pow2 (ilog2 q - 52) < pow2 53.
Proof.
  intros Hq. destruct (ilog2_spec q Hq) as [Hlo Hhi]. split.
  - apply Qle_shift_div_l; [apply pow2_pos|].
    rewrite <- pow2_add. replace (52 + (ilog2 q - 52))%Z with (ilog2 q) by lia.
    exact Hlo.
  - apply Qlt_shift_div_r; [apply pow2_pos|].
    rewrite <- pow2_add. replace (53 + (ilog2 q - 52))%Z with (ilog2 q + 1)%Z by lia.
    exact Hhi.
Qed.

Lemma round_pos_bounds (q : Q) :
  0 < q ->
  pow2 (ilog2 q) <= round_pos q /\ round_pos q <= pow2 (ilog2 q + 1).
Proof.
  intros Hq. destruct (scaled_bounds q Hq) as [Hlo Hhi]. unfold round_pos.
  set (ulp := pow2 (ilog2 q - 52)) in *.
  assert (Hm : (2 ^ 52 <= rne (q / ulp) <= 2 ^ 53)%Z).
  { rewrite <- (rne_Z (2 ^ 52)), <- (rne_Z (2 ^ 53)). split; apply rne_mono.
    - rewrite <- pow2_inject by lia. exact Hlo.
    - rewrite <- pow2_inject by lia. apply Qlt_le_weak. exact Hhi. }
  destruct Hm as [Hm1 Hm2]. rewrite Zle_Qle in Hm1, Hm2.
  rewrite <- !pow2_inject in Hm1, Hm2 by lia.
  split.
  - replace (ilog2 q) with (52 + (ilog2 q - 52))%Z at 1 by lia.
    rewrite pow2_add. apply Qmult_le_compat_r; [exact Hm1|].
    apply Qlt_le_weak, pow2_pos.
  - replace (ilog2 q + 1)%Z with (53 + (ilog2 q - 52))%Z by lia.
    rewrite pow2_add. apply Qmult_le_compat_r; [exact Hm2|].
    apply Qlt_le_weak, pow2_pos.
Qed.

Lemma round_pos_mono (q1 q2 : Q) :
  0 < q1 -> q1 <= q2 -> round_pos q1 <= round_pos q2.
Proof.
  intros H1 Hle.
  assert (H2 : 0 < q2) by (apply (Qlt_le_trans _ _ _ H1 Hle)).
  pose proof (ilog2_mono q1 q2 H1 Hle) as He.
  destruct (Z.eq_dec (ilog2 q1) (ilog2 q2)) as [Heq|Hne].
  - unfold round_pos. rewrite Heq.
    apply Qmult_le_compat_r; [|apply Qlt_le_weak, pow2_pos].
    rewrite <- Zle_Qle. apply rne_mono.
    apply Qmult_le_compat_r; [exact Hle|].
    apply Qlt_le_weak, Qinv_lt_0_compat, pow2_pos.
  - destruct (round_pos_bounds q1 H1) as [_ Hhi].
    destruct (round_pos_bounds q2 H2) as [Hlo _].
    apply (Qle_trans _ _ _ Hhi). apply (Qle_trans _ (pow2 (ilog2 q2))); [|exact Hlo].
    apply pow2_le. lia.
Qed.

Lemma round_pos_positive (q : Q) : 0 < q -> 0 < round_pos q.
Proof.
  intros Hq. destruct (round_pos_bounds q Hq) as [Hlo _].
  apply (Qlt_le_trans _ _ _ (pow2_pos (ilog2 q)) Hlo).
Qed.

Lemma round_of_pos (q : Q) : 0 < q -> round q = round_pos q.
Proof. destruct q as [[|n|n] d]; unfold Qlt; simpl; intros H; try lia; reflexivity. Qed.

Lemma round_of_neg (q : Q) : q < 0 -> round q = - round_pos (- q).
Proof. destruct q as [[|n|n] d]; unfold Qlt; simpl; intros H; try lia; reflexivity. Qed.

Lemma round_of_zero (q : Q) : q == 0 -> round q = 0.
Proof. destruct q as [[|n|n] d]; unfold Qeq; simpl; intros H; try lia; reflexivity. Qed.

Lemma Qsign_cases (q : Q) : q < 0 \/ q == 0 \/ 0 < q.
Proof.
  destruct (Q_dec q 0) as [[H|H]|H]; [left|right; right|right; left]; assumption.
Qed.

(** Rounding is monotone. *)
Lemma round_mono (q1 q2 : Q) : q1 <= q2 -> round q1 <= round q2.
Proof.
  intros Hle.
  destruct (Qsign_cases q1) as [N1|[Z1|P1]];
    destruct (Qsign_cases q2) as [N2|[Z2|P2]];
    rewrite ?(round_of_neg _ N1), ?(round_of_zero _ Z1), ?(round_of_pos _ P1),
      ?(round_of_neg _ N2), ?(round_of_zero _ Z2), ?(round_of_pos _ P2).
  - apply Qopp_le_compat. apply round_pos_mono.
    + apply (Qopp_lt_compat q2 0) in N2. exact N2.
    + apply Qopp_le_compat. exact Hle.
  - apply (Qopp_lt_compat q1 0) in N1. apply round_pos_positive in N1.
    apply Qlt_le_weak. apply (Qopp_lt_compat 0) in N1. exact N1.
  - apply (Qopp_lt_compat q1 0) in N1. apply round_pos_positive in N1.
    apply round_pos_positive in P2.
    apply Qlt_le_weak. apply (Qopp_lt_compat 0) in N1.
    apply (Qlt_trans _ _ _ N1 P2).
  - exfalso. rewrite Z1 in Hle. apply (Qlt_irrefl 0). apply (Qle_lt_trans _ _ _ Hle N2).
  - apply Qle_refl.
  - apply Qlt_le_weak. apply round_pos_positive. exact P2.
  - exfalso. apply (Qlt_irrefl 0). apply (Qlt_trans _ _ _ P1).
    apply (Qle_lt_trans _ _ _ Hle N2).
  - exfalso. rewrite Z2 in Hle. apply (Qlt_irrefl 0). apply (Qlt_le_trans _ _ _ P1 Hle).
  - apply round_pos_mono; assumption.
Qed.

Lemma round_comp (q1 q2 : Q) : q1 == q2 -> round q1 == round q2.
Proof.
  intros H. apply Qle_antisym; apply round_mono; rewrite H; apply Qle_refl.
Qed.

#[export] Instance round_proper : Proper (Qeq ==> Qeq) round.
Proof. intros q1 q2 H. apply round_comp. exact H. Qed.

Lemma round_pos_exact (k j : Z) :
  (0 < k < 2 ^ 53)%Z ->
  round_pos (inject_Z k * pow2 j) == inject_Z k * pow2 j.
Proof.
  intros [Hk1 Hk2].
  set (a := Z.log2 k).
  assert (Ha : (0 <= a <= 52)%Z).
  { split; [apply Z.log2_nonneg|].
    assert (a < 53)%Z by (apply Z.log2_lt_pow2; lia). lia. }
  destruct (log2_bounds k Hk1) as [Hlo Hhi]. fold a in Hlo, Hhi.
  assert (He : ilog2 (inject_Z k * pow2 j) = (a + j)%Z).
  { apply ilog2_unique.
    - rewrite pow2_add. apply Qmult_le_compat_r; [exact Hlo|].
      apply Qlt_le_weak, pow2_pos.
    - replace (a + j + 1)%Z with ((a + 1) + j)%Z by lia. rewrite pow2_add.
      apply Qmult_lt_compat_r; [apply pow2_pos|exact Hhi]. }
  unfold round_pos. rewrite He.
  assert (Hs : inject_Z k * pow2 j / pow2 (a + j - 52)
               == inject_Z (k * 2 ^ (52 - a))).
  { rewrite inject_Z_mult, <- pow2_inject by lia.
    replace (52 - a)%Z with (j - (a + j - 52))%Z by lia.
    rewrite (pow2_sub j (a + j - 52)). unfold Qdiv. ring. }
  rewrite (rne_comp _ _ Hs), rne_Z.
  rewrite inject_Z_mult, <- pow2_inject by lia.
  rewrite <- Qmult_assoc, <- pow2_add.
  replace (52 - a + (a + j - 52))%Z with j by lia. reflexivity.
Qed.

Lemma pow2_0 : pow2 0 == 1.
Proof. reflexivity. Qed.

(** Every [k * 2^j] with [|k| <= 2^53] is a binary64 value (exponent range
    aside) and rounds to itself. *)
Lemma round_exact (k j : Z) :
  (Z.abs k <= 2 ^ 53)%Z -> round (inject_Z k * pow2 j) == inject_Z k * pow2 j.
Proof.
  intros Hk.
  assert (Hpos : forall k', (0 < k' <= 2 ^ 53)%Z ->
            round_pos (inject_Z k' * pow2 j) == inject_Z k' * pow2 j).
  { intros k' [H1 H2]. destruct (Z.eq_dec k' (2 ^ 53)%Z) as [->|Hne].
    - assert (E : inject_Z (2 ^ 53) * pow2 j == inject_Z 1 * pow2 (53 + j)).
      { rewrite pow2_add, <- (pow2_inject 53) by lia. ring. }
      assert (P : 0 < inject_Z (2 ^ 53) * pow2 j).
      { apply Qmult_lt_0_compat; [reflexivity|apply pow2_pos]. }
      rewrite <- (round_of_pos _ P). rewrite E.
      rewrite round_of_pos by (rewrite <- E; exact P).
      apply round_pos_exact. lia.
    - apply round_pos_exact. lia. }
  destruct (Z.lt_trichotomy k 0) as [Hn|[->|Hp]].
  - assert (N : inject_Z k * pow2 j < 0).
    { assert (Hk' : inject_Z k < 0) by (unfold Qlt; simpl; lia).
      pose proof (Qmult_lt_compat_r _ _ _ (pow2_pos j) Hk') as N0.
      rewrite Qmult_0_l in N0. exact N0. }
    rewrite (round_of_neg _ N).
    assert (E : - (inject_Z k * pow2 j) == inject_Z (- k) * pow2 j)
      by (rewrite inject_Z_opp; ring).
    assert (P : 0 < - (inject_Z k * pow2 j)).
    { apply (Qopp_lt_compat _ 0) in N. exact N. }
    rewrite <- (round_of_pos _ P). rewrite E.
    rewrite round_of_pos by (rewrite <- E; exact P).
    rewrite Hpos by lia. rewrite inject_Z_opp. ring.
  - rewrite round_of_zero; ring.
  - assert (P : 0 < inject_Z k * pow2 j).
    { apply Qmult_lt_0_compat; [unfold Qlt; simpl; lia|apply pow2_pos]. }
    rewrite (round_of_pos _ P). apply Hpos. lia.
Qed.

Lemma round_exact_Z (z : Z) :
  (Z.abs z <= 2 ^ 53)%Z -> round (inject_Z z) == inject_Z z.
Proof.
  intros Hz. pose proof (round_exact z 0 Hz) as H.
  assert (E : inject_Z z * pow2 0 == inject_Z z) by (rewrite pow2_0; ring).
  rewrite E in H. exact H.
Qed.

End FloatFacts.

(** ** The generator and the selection *)

Module RendererFacts.
Import JS Float FloatFacts Renderer.
Local Open Scope Z_scope.

Lemma lcg_no_exact_preimage (s q : Z) :
  0 <= s -> s * 1103515245 + 12345 < 2 ^ 53 ->
  s * 1103515245 + 12345 = 2 ^ 31 * q + (2 ^ 31 - 1) -> False.
Proof. intros. lia. Qed.

Lemma ToInt32_comp (x y : Q) : (x == y)%Q -> ToInt32 x = ToInt32 y.
Proof.
  intros H. unfold ToInt32.
  assert (H1 : Qle_bool 0 x = Qle_bool 0 y) by (rewrite H; reflexivity).
  assert (H2 : Qfloor x = Qfloor y) by (rewrite H; reflexivity).
  assert (H3 : Qceiling x = Qceiling y) by (rewrite H; reflexivity).
  by rewrite H1, H2, H3.
Qed.

Lemma ToInt32_Z (z : Z) :
  Z.land (ToInt32 (inject_Z z)) 0x7fffffff = z mod 2 ^ 31.
Proof.
  unfold ToInt32. rewrite Qfloor_Z, Qceiling_Z.
  change 0x7fffffff with (Z.ones 31). rewrite Z.land_ones by lia.
  destruct (Qle_bool 0 (inject_Z z)); destruct (_ <? _);
    Z.div_mod_to_equations; lia.
Qed.

Lemma round_big (q : Q) :
  (pow2 53 <= q)%Q -> (pow2 53 <= round q)%Q /\ exists k : Z, (round q == inject_Z (2 * k))%Q.
Proof.
  intros Hq. split.
  - assert (E : (round (pow2 53) == pow2 53)%Q).
    { pose proof (round_exact 1 53 ltac:(lia)) as H.
      assert (E1 : (inject_Z 1 * pow2 53 == pow2 53)%Q) by ring.
      by rewrite E1 in H. }
    rewrite <- E. by apply round_mono.
  - assert (Hpos : (0 < q)%Q) by apply (Qlt_le_trans _ _ _ (pow2_pos 53) Hq).
    rewrite (round_of_pos _ Hpos). unfold round_pos.
    assert (He : 53 <= ilog2 q).
    { rewrite <- (ilog2_unique (pow2 53) 53).
      - apply ilog2_mono; [apply pow2_pos|done].
      - apply Qle_refl.
      - apply pow2_lt. lia. }
    set (m := rne (q / pow2 (ilog2 q - 52))).
    exists (m * 2 ^ (ilog2 q - 53)).
    rewrite (pow2_inject (ilog2 q - 52)) by lia.
    rewrite <- inject_Z_mult. apply inject_Z_injective.
    replace (ilog2 q - 52) with (Z.succ (ilog2 q - 53)) by lia.
    rewrite Z.pow_succ_r by lia. ring.
Qed.

Lemma next_seed_range (s : Z) : 0 <= next_seed s < 2 ^ 31.
Proof.
  unfold next_seed. change 0x7fffffff with (Z.ones 31).
  rewrite Z.land_ones by lia. apply Z.mod_pos_bound. lia.
Qed.

Lemma round_opp (q : Q) : (round (- q) == - round q)%Q.
Proof.
  destruct (Qsign_cases q) as [N|[Z0|P]].
  - assert (P : (0 < - q)%Q) by (apply (Qopp_lt_compat q 0) in N; exact N).
    rewrite (round_of_pos _ P), (round_of_neg _ N). ring.
  - rewrite (round_of_zero _ Z0).
    assert (Z1 : (- q == 0)%Q) by (rewrite Z0; reflexivity).
    rewrite (round_of_zero _ Z1). reflexivity.
  - assert (N : (- q < 0)%Q) by (apply (Qopp_lt_compat 0 q) in P; exact P).
    rewrite (round_of_pos _ P), (round_of_neg _ N).
    assert (E : (- - q == q)%Q) by ring.
    assert (E' : (round (- - q) == round q)%Q) by (rewrite E; reflexivity).
    rewrite <- (round_of_pos _ P).
    assert (P' : (0 < - - q)%Q) by (rewrite E; exact P).
    rewrite <- (round_of_pos _ P'). rewrite E'. reflexivity.
Qed.

Lemma round_big_neg (q : Q) :
  (q <= - pow2 53)%Q ->
  (round q <= - pow2 53)%Q /\ exists k : Z, (round q == inject_Z (2 * k))%Q.
Proof.
  intros Hq.
  assert (Hq' : (pow2 53 <= - q)%Q).
  { apply Qopp_le_compat in Hq. by rewrite Qopp_involutive in Hq. }
  destruct (round_big _ Hq') as [Hr [k Hk]].
  rewrite round_opp in Hr, Hk. split.
  - apply Qopp_le_compat in Hr. by rewrite Qopp_involutive in Hr.
  - exists (- k). replace (2 * - k) with (- (2 * k)) by lia.
    rewrite inject_Z_opp, <- Hk. ring.
Qed.

(** Beyond [2^53] in magnitude every binary64 value is an even integer. *)
Lemma round_far_even (z : Z) :
  2 ^ 53 <= Z.abs z -> exists k : Z, (round (inject_Z z) == inject_Z (2 * k))%Q.
Proof.
  intros Hz. destruct (Z.le_ge_cases 0 z) as [Hpos|Hneg].
  - apply round_big. rewrite pow2_inject by lia. rewrite <- Zle_Qle. lia.
  - apply round_big_neg. rewrite pow2_inject by lia.
    rewrite <- inject_Z_opp, <- Zle_Qle. lia.
Qed.

Lemma round_far_Z (z : Z) :
  2 ^ 53 <= Z.abs z ->
  exists k : Z, (round (inject_Z z) == inject_Z (2 * k))%Q /\ 2 ^ 53 <= Z.abs (2 * k)
                /\ (0 <= z -> 0 <= k) /\ (z <= 0 -> k <= 0).
Proof.
  intros Hz. destruct (Z.le_ge_cases 0 z) as [Hpos|Hneg].
  - destruct (round_big (inject_Z z)) as [Hr [k Hk]].
    { rewrite pow2_inject by lia. rewrite <- Zle_Qle. lia. }
    exists k. rewrite Hk, pow2_inject in Hr by lia. rewrite <- Zle_Qle in Hr.
    repeat split; [done|lia|lia|lia].
  - destruct (round_big_neg (inject_Z z)) as [Hr [k Hk]].
    { rewrite pow2_inject by lia. rewrite <- inject_Z_opp, <- Zle_Qle. lia. }
    exists k. rewrite Hk, pow2_inject in Hr by lia.
    rewrite <- inject_Z_opp, <- Zle_Qle in Hr.
    repeat split; [done|lia|lia|lia].
Qed.

(** The generator never reaches the state [0x7fffffff]. An odd state needs
    an exact sum, below [2^53] in magnitude; the exact recurrence reaches
    [0x7fffffff] only from seeds congruent to 230538014 modulo [2^31], and
    for each of them the product is beyond [2^53]. *)
Lemma next_seed_not_all_ones (s : Z) : next_seed s <> 0x7fffffff.
Proof.
  unfold next_seed, add, mul.
  set (P := s * 1103515245).
  assert (EP : (inject_Z s * inject_Z 1103515245 == inject_Z P)%Q)
    by (unfold P; by rewrite inject_Z_mult).
  assert (Hexact : forall R : Z,
            (round (inject_Z s * inject_Z 1103515245) == inject_Z R)%Q ->
            Z.abs (R + 12345) <= 2 ^ 53 ->
            (R + 12345) mod 2 ^ 31 <> 2 ^ 31 - 1 ->
            Z.land (ToInt32 (round (round (inject_Z s * inject_Z 1103515245)
                                    + inject_Z 12345))) 0x7fffffff
            <> 0x7fffffff).
  { intros R HR Habs Hmod.
    assert (E : (round (round (inject_Z s * inject_Z 1103515245) + inject_Z 12345)
                 == inject_Z (R + 12345))%Q).
    { rewrite HR, <- inject_Z_plus. by apply round_exact_Z. }
    by rewrite (ToInt32_comp _ _ E), ToInt32_Z. }
  assert (Hfar : forall R : Z,
            (round (inject_Z s * inject_Z 1103515245) == inject_Z R)%Q ->
            2 ^ 53 <= Z.abs (R + 12345) ->
            Z.land (ToInt32 (round (round (inject_Z s * inject_Z 1103515245)
                                    + inject_Z 12345))) 0x7fffffff
            <> 0x7fffffff).
  { intros R HR Habs.
    destruct (round_far_even (R + 12345) Habs) as [k Hk].
    assert (E : (round (round (inject_Z s * inject_Z 1103515245) + inject_Z 12345)
                 == inject_Z (2 * k))%Q).
    { by rewrite HR, <- inject_Z_plus. }
    rewrite (ToInt32_comp _ _ E), ToInt32_Z. intros Hall.
    Z.div_mod_to_equations. lia. }
  destruct (Z.lt_ge_cases (Z.abs P) (2 ^ 53)) as [HP|HP].
  - assert (HR : (round (inject_Z s * inject_Z 1103515245) == inject_Z P)%Q).
    { rewrite EP. apply round_exact_Z. lia. }
    destruct (Z.lt_ge_cases (Z.abs (P + 12345)) (2 ^ 53)) as [Hsum|Hsum].
    + apply (Hexact P HR); [lia|]. intros Hall.
      unfold P in *. Z.div_mod_to_equations. lia.
    + by apply (Hfar P HR).
  - destruct (round_far_Z P HP) as (k & Hk & Hk53 & Hk1 & Hk2).
    assert (HR : (round (inject_Z s * inject_Z 1103515245) == inject_Z (2 * k))%Q)
      by by rewrite EP.
    destruct (Z.lt_ge_cases (Z.abs (2 * k + 12345)) (2 ^ 53)) as [Hsum|Hsum].
    + apply (Hexact (2 * k) HR); [lia|]. intros Hall.
      Z.div_mod_to_equations. lia.
    + by apply (Hfar (2 * k) HR).
Qed.

(** In exact arithmetic seed 230538014 would go to [0x7fffffff]; its
    product is rounded to a multiple of 2048 and it goes to 0. *)
Example next_seed_exact_preimage :
  (230538014 * 1103515245 + 12345) mod 2 ^ 31 = 0x7fffffff
  /\ next_seed 230538014 = 0.
Proof. split; vm_compute; reflexivity. Qed.

Lemma round_nonneg (q : Q) : (0 <= q)%Q -> (0 <= round q)%Q.
Proof.
  intros Hq. rewrite <- (round_of_zero 0) by reflexivity. by apply round_mono.
Qed.

(** If [q] is at most a binary64 value [k * 2^j], so is its rounding. *)
Lemma round_le_exact (q : Q) (k j : Z) :
  Z.abs k <= 2 ^ 53 -> (q <= inject_Z k * pow2 j)%Q ->
  (round q <= inject_Z k * pow2 j)%Q.
Proof.
  intros Hk Hq. rewrite <- (round_exact k j Hk). by apply round_mono.
Qed.

Lemma Qfloor_lt_Z (q : Q) (n : Z) : (q < inject_Z n)%Q -> Qfloor q < n.
Proof.
  intros Hq. rewrite Zlt_Qlt. apply (Qle_lt_trans _ q); [apply Qfloor_le|done].
Qed.

Lemma pow2_neg31 : (pow2 (-31) == 1 # 2147483648)%Q.
Proof. reflexivity. Qed.

Lemma pow2_neg21 : (pow2 (-21) == 1 # 2097152)%Q.
Proof. reflexivity. Qed.

(** [next()] returns a value in [[0, 1 - 2^-31]]. *)
Lemma next_value_range (random : SeededRandom) :
  (0 <= fst (next random) <= inject_Z (2 ^ 31 - 1) * pow2 (-31))%Q.
Proof.
  unfold next. simpl fst. unfold div.
  pose proof (next_seed_range (seed random)) as Hrange.
  pose proof (next_seed_not_all_ones (seed random)) as Hne.
  set (s := next_seed (seed random)) in *.
  assert (Hs0 : (0 <= inject_Z s)%Q) by (rewrite <- (Zle_Qle 0); lia).
  assert (Hs1 : (inject_Z s <= inject_Z (2 ^ 31 - 2))%Q) by (rewrite <- Zle_Qle; lia).
  split.
  - apply round_nonneg. apply Qle_shift_div_l; [reflexivity|]. lra.
  - apply round_le_exact; [lia|].
    apply Qle_shift_div_r; [reflexivity|].
    apply (Qle_trans _ _ _ Hs1). rewrite pow2_neg31. vm_compute. discriminate.
Qed.

Lemma next_value_lt_1 (random : SeededRandom) : (fst (next random) < 1)%Q.
Proof.
  destruct (next_value_range random) as [_ Hhi].
  apply (Qle_lt_trans _ _ _ Hhi). rewrite pow2_neg31. reflexivity.
Qed.

(** [nextInt(max)] is an index below [max], for every array length. *)
Lemma nextInt_range (max : Z) (random : SeededRandom) :
  1 <= max < 2 ^ 32 -> 0 <= fst (nextInt max random) < max.
Proof.
  intros [Hmax1 Hmax2]. unfold nextInt.
  pose proof (next_value_range random) as [Hx0 Hx1].
  destruct (next random) as [x random']. simpl in *. unfold mul.
  assert (Hn : (1 <= inject_Z max)%Q) by (rewrite <- (Zle_Qle 1); lia).
  rewrite pow2_neg31 in Hx1.
  change (inject_Z (2 ^ 31 - 1)) with (2147483647 # 1)%Q in Hx1.
  assert (Hprod : (x * inject_Z max
                   <= (2147483647 # 2147483648) * inject_Z max)%Q).
  { apply Qmult_le_compat_r; lra. }
  split.
  - rewrite <- (Qfloor_Z 0). apply Qfloor_resp_le. apply round_nonneg.
    apply Qmult_le_0_compat; lra.
  - apply Qfloor_lt_Z.
    destruct (Z.le_gt_cases max (2 ^ 22)) as [Hsmall|Hlarge].
    + apply (Qle_lt_trans _ (inject_Z (max * 2 ^ 31 - 1) * pow2 (-31))).
      * apply round_le_exact; [lia|].
        rewrite pow2_neg31. unfold Z.sub. rewrite inject_Z_plus, inject_Z_mult.
        change (inject_Z (2 ^ 31)) with (2147483648 # 1)%Q.
        change (inject_Z (- (1))) with (- (1))%Q. lra.
      * rewrite pow2_neg31. unfold Z.sub. rewrite inject_Z_plus, inject_Z_mult.
        change (inject_Z (2 ^ 31)) with (2147483648 # 1)%Q.
        change (inject_Z (- (1))) with (- (1))%Q. lra.
    + assert (Hn' : (4194304 <= inject_Z max)%Q)
        by (change 4194304%Q with (inject_Z (2 ^ 22)); rewrite <- Zle_Qle; lia).
      apply (Qle_lt_trans _ (inject_Z (max * 2 ^ 21 - 1) * pow2 (-21))).
      * apply round_le_exact; [lia|].
        rewrite pow2_neg21. unfold Z.sub. rewrite inject_Z_plus, inject_Z_mult.
        change (inject_Z (2 ^ 21)) with (2097152 # 1)%Q.
        change (inject_Z (- (1))) with (- (1))%Q. lra.
      * rewrite pow2_neg21. unfold Z.sub. rewrite inject_Z_plus, inject_Z_mult.
        change (inject_Z (2 ^ 21)) with (2097152 # 1)%Q.
        change (inject_Z (- (1))) with (- (1))%Q. lra.
Qed.

Lemma at_index_in_range {A : Type} (a : list A) (i : Z) :
  0 <= i < Z.of_nat (length a) -> exists x, at_index a i = Some x /\ x ∈ a.
Proof.
  intros [Hi0 Hi1]. unfold at_index.
  destruct (Z.ltb_spec i 0) as [?|_]; [lia|].
  destruct (lookup_lt_is_Some_2 a (Z.to_nat i)) as [x Hx]; [lia|].
  exists x. split; [done|]. by apply list_elem_of_lookup_2 in Hx.
Qed.

Lemma random_selection_defined (emojis : list jsstring)
    (row col totalRows totalCols : Z) (random : SeededRandom) :
  1 <= Z.of_nat (length emojis) < 2 ^ 32 ->
  exists emoji,
    fst (selectEmoji emojis row col totalRows totalCols mode_random random)
    = Some emoji
    /\ emoji ∈ emojis.
Proof.
  intros Hn.
  pose proof (nextInt_range _ random Hn) as Hi.
  unfold selectEmoji.
  destruct (nextInt (Z.of_nat (length emojis)) random) as [i random'].
  simpl in Hi.
  destruct (Z.eqb_spec (Z.of_nat (length emojis)) 1) as [H1|H1]; simpl.
  - destruct emojis as [|emoji rest]; [simpl in H1; lia|].
    exists emoji. split; [done|]. by left.
  - by apply at_index_in_range.
Qed.

(** C10. Whatever the state of the generator, [next()] is below 1 and
    [nextInt(N)] is an index of an array of length [N], so that mode
    [random] returns an element of the candidate list. *)
Theorem random_index_in_range (emojis : list jsstring)
    (row col totalRows totalCols : Z) (random : SeededRandom) :
  1 <= Z.of_nat (length emojis) < 2 ^ 32 ->
  (fst (next random) < 1)%Q
  /\ 0 <= fst (nextInt (Z.of_nat (length emojis)) random)
       < Z.of_nat (length emojis)
  /\ exists emoji,
       fst (selectEmoji emojis row col totalRows totalCols mode_random random)
       = Some emoji
       /\ emoji ∈ emojis.
Proof.
  intros Hn.
  split; [apply next_value_lt_1|]. split; [by apply nextInt_range|].
  by apply random_selection_defined.
Qed.

(** From seed 42 and three candidates the first draw is index 1. *)
Lemma random_index_in_range_witness :
  fst (nextInt 3 {| seed := 42 |}) = 1
  /\ exists emoji,
       fst (selectEmoji [[65]; [66]; [67]] 0 0 5 7 mode_random {| seed := 42 |})
       = Some emoji
       /\ emoji ∈ [[65]; [66]; [67]].
Proof.
  split; [vm_compute; reflexivity|].
  apply (random_index_in_range [[65]; [66]; [67]] 0 0 5 7 {| seed := 42 |}).
  simpl. lia.
Defined.

(** *** Gradients *)

Lemma gradientIndex_mono (pos1 pos2 total n : Z) :
  1 <= n -> pos1 <= pos2 ->
  gradientIndex pos1 total n <= gradientIndex pos2 total n.
Proof.
  intros Hn Hpos. unfold gradientIndex.
  apply Z.min_le_compat_r. apply Qfloor_resp_le. unfold mul.
  apply round_mono. apply Qmult_le_compat_r.
  - destruct (Z.gtb_spec total 1) as [Ht|Ht]; [|apply Qle_refl].
    unfold div. apply round_mono. apply Qmult_le_compat_r.
    + by rewrite <- Zle_Qle.
    + apply Qinv_le_0_compat. rewrite <- (Zle_Qle 0). lia.
  - rewrite <- (Zle_Qle 0). lia.
Qed.

Lemma gradientIndex_first (total n : Z) :
  1 <= n -> gradientIndex 0 total n = 0.
Proof.
  intros Hn. unfold gradientIndex.
  set (progress := if total >? 1
                   then div (inject_Z 0) (inject_Z (total - 1)) else 0%Q).
  assert (Hp : (progress == 0)%Q).
  { unfold progress. destruct (total >? 1); [|reflexivity].
    unfold div. rewrite round_of_zero; [reflexivity|].
    change (inject_Z 0) with 0%Q. unfold Qdiv. ring. }
  unfold mul. rewrite round_of_zero by (rewrite Hp; ring).
  change (Qfloor 0) with 0. lia.
Qed.



Lemma gradientIndex_bounds (pos total n : Z) :
  1 <= n -> 0 <= pos -> 0 <= gradientIndex pos total n <= n - 1.
Proof.
  intros Hn Hpos. split.
  - rewrite <- (gradientIndex_first total n Hn). by apply gradientIndex_mono.
  - unfold gradientIndex. apply Z.le_min_r.
Qed.



(** *** Cells and lines *)

Section WithHost.

Variable Extended_Pictographic : Z -> bool.
Variable graphemeSegmenter : option (jsstring -> list jsstring).
Variable getBackgroundEmoji : jsstring.
Variable getThemeEmojis_github : list jsstring.
Variable Math_sin : Q -> Q.
Variable Math_cos : Q -> Q.

(** A segmenter finds no grapheme in the empty string. *)
Hypothesis segment_empty :
  forall segment, graphemeSegmenter = Some segment -> segment [] = [].

Local Abbreviation getDisplayWidth :=
  (getDisplayWidth Extended_Pictographic graphemeSegmenter).
Local Abbreviation fitToWidth :=
  (fitToWidth Extended_Pictographic graphemeSegmenter).
Local Abbreviation padToWidth :=
  (padToWidth Extended_Pictographic graphemeSegmenter).
Local Abbreviation fitted_cell :=
  (fitted_cell Extended_Pictographic graphemeSegmenter).
Local Abbreviation cellWidthOf :=
  (cellWidthOf Extended_Pictographic graphemeSegmenter).
Local Abbreviation emojisOf := (emojisOf getThemeEmojis_github).
Local Abbreviation bgEmojiOf := (bgEmojiOf getBackgroundEmoji).
Local Abbreviation glyph_of := (glyph_of getBackgroundEmoji getThemeEmojis_github).
Local Abbreviation selectable := (selectable getThemeEmojis_github).
Local Abbreviation renderCell :=
  (renderCell Extended_Pictographic graphemeSegmenter getBackgroundEmoji
     getThemeEmojis_github Math_sin Math_cos).
Local Abbreviation renderCols :=
  (renderCols Extended_Pictographic graphemeSegmenter getBackgroundEmoji
     getThemeEmojis_github Math_sin Math_cos).
Local Abbreviation renderRows :=
  (renderRows Extended_Pictographic graphemeSegmenter getBackgroundEmoji
     getThemeEmojis_github Math_sin Math_cos).
Local Abbreviation renderLines :=
  (renderLines Extended_Pictographic graphemeSegmenter getBackgroundEmoji
     getThemeEmojis_github Math_sin Math_cos).
Local Abbreviation renderBitmap :=
  (renderBitmap Extended_Pictographic graphemeSegmenter getBackgroundEmoji
     getThemeEmojis_github Math_sin Math_cos).

Lemma getDisplayWidth_nil : getDisplayWidth [] = 0.
Proof.
  unfold Renderer.getDisplayWidth, isLikelyCustomEmoji, getGraphemes. simpl.
  destruct graphemeSegmenter as [segment|] eqn:Hseg; [|done].
  by rewrite (segment_empty segment).
Qed.

Lemma padToWidth_loop_spec (fuel : nat) :
  forall (result : jsstring) (width targetWidth : Z),
    fuel = Z.to_nat (targetWidth - width) ->
    padToWidth_loop fuel result width targetWidth
    = result ++ replicate fuel SPACE.
Proof.
  induction fuel as [|fuel IH]; intros result width targetWidth Hfuel; simpl.
  - by rewrite app_nil_r.
  - destruct (Z.ltb_spec width targetWidth) as [_|?]; [|lia].
    rewrite IH by lia. by rewrite <- app_assoc.
Qed.

Lemma padToWidth_spec (str : jsstring) (targetWidth : Z) :
  padToWidth str targetWidth
  = str ++ replicate (Z.to_nat (targetWidth - getDisplayWidth str)) SPACE.
Proof. unfold Renderer.padToWidth. by apply padToWidth_loop_spec. Qed.

Lemma fitToWidth_spec (glyph : jsstring) (cellWidth : Z) :
  fitToWidth glyph cellWidth = fitted_cell glyph cellWidth.
Proof.
  unfold Renderer.fitToWidth, Renderer.fitted_cell.
  destruct (Z.eqb_spec (getDisplayWidth glyph) cellWidth) as [Heq|Hne].
  - destruct (Z.ltb_spec cellWidth (getDisplayWidth glyph)) as [?|_]; [lia|].
    rewrite Heq, Z.sub_diag. simpl. by rewrite app_nil_r.
  - destruct (Z.ltb_spec (getDisplayWidth glyph) cellWidth) as [Hlt|Hge].
    + destruct (Z.ltb_spec cellWidth (getDisplayWidth glyph)) as [?|_]; [lia|].
      apply padToWidth_spec.
    + destruct (Z.ltb_spec cellWidth (getDisplayWidth glyph)) as [_|?]; [|lia].
      rewrite padToWidth_spec, getDisplayWidth_nil, Z.sub_0_r. done.
Qed.

Lemma foldl_max_spec (xs : list Z) :
  forall x : Z,
    x <= foldl Z.max x xs
    /\ (forall y, y ∈ xs -> y <= foldl Z.max x xs)
    /\ (foldl Z.max x xs = x \/ foldl Z.max x xs ∈ xs).
Proof.
  induction xs as [|y xs IH]; intros x; simpl.
  - split; [lia|]. split; [by intros y ?%elem_of_nil|by left].
  - destruct (IH (Z.max x y)) as (H1 & H2 & H3).
    split; [lia|]. split.
    + intros z [->|Hz]%elem_of_cons; [lia|by apply H2].
    + destruct H3 as [H3|H3]; [|right; by right].
      rewrite H3.
      destruct (Z.max_spec x y) as [[_ Hm]|[_ Hm]]; rewrite Hm.
      * right. by left.
      * by left.
Qed.

(** The cell width is the largest of the candidates' widths and 2. *)
Lemma cellWidthOf_spec (sampleEmojis : list jsstring) :
  2 <= cellWidthOf sampleEmojis
  /\ (forall emoji, emoji ∈ sampleEmojis ->
        getDisplayWidth emoji <= cellWidthOf sampleEmojis)
  /\ (cellWidthOf sampleEmojis = 2
      \/ exists emoji, emoji ∈ sampleEmojis
                       /\ getDisplayWidth emoji = cellWidthOf sampleEmojis).
Proof.
  unfold Renderer.cellWidthOf.
  destruct sampleEmojis as [|e0 rest].
  - simpl. split; [lia|]. split; [by intros e ?%elem_of_nil|by left].
  - rewrite fmap_cons. unfold Math_max. cbv beta iota.
    destruct (foldl_max_spec (getDisplayWidth <$> rest) (getDisplayWidth e0))
      as (H1 & H2 & H3).
    set (m := foldl Z.max (getDisplayWidth e0) (getDisplayWidth <$> rest)) in *.
    split; [lia|]. split.
    + intros e [->|He]%elem_of_cons; [lia|].
      assert (getDisplayWidth e <= m) by (apply H2; by apply list_elem_of_fmap_2).
      lia.
    + destruct (Z.max_spec m 2) as [[_ Hm]|[_ Hm]]; rewrite Hm; [by left|].
      right. destruct H3 as [H3|H3].
      * exists e0. split; [by left|done].
      * apply list_elem_of_fmap in H3 as (e & He & Hin).
        exists e. split; [by right|done].
Qed.

Lemma selectEmoji_defined (emojis : list jsstring)
    (row col totalRows totalCols : Z) (mode : EmojiMode) (random : SeededRandom) :
  1 <= Z.of_nat (length emojis) < 2 ^ 32 -> 0 <= row -> 0 <= col ->
  exists emoji,
    fst (selectEmoji emojis row col totalRows totalCols mode random) = Some emoji
    /\ emoji ∈ emojis.
Proof.
  intros Hn Hrow Hcol.
  destruct mode;
    try (by apply (random_selection_defined emojis row col totalRows totalCols
                     random Hn));
    unfold selectEmoji;
    (destruct (Z.eqb_spec (Z.of_nat (length emojis)) 1) as [H1|H1];
     [destruct emojis as [|emoji rest]; [simpl in H1; lia|];
      exists emoji; split; [done|by left]|]);
    simpl fst.
  - destruct (Z.eqb_spec (Z.of_nat (length emojis)) 0) as [?|_]; [lia|].
    apply at_index_in_range. apply Z.rem_bound_pos; lia.
  - destruct (Z.eqb_spec (Z.of_nat (length emojis)) 0) as [?|_]; [lia|].
    apply at_index_in_range. apply Z.rem_bound_pos; lia.
  - apply at_index_in_range.
    pose proof (gradientIndex_bounds row totalRows (Z.of_nat (length emojis))). lia.
  - apply at_index_in_range.
    pose proof (gradientIndex_bounds col totalCols (Z.of_nat (length emojis))). lia.
  - destruct emojis as [|emoji rest]; [simpl in Hn; lia|].
    exists emoji. split; [done|by left].
Qed.

Lemma calculateGitHubIntensity_range (row col totalRows totalCols : Z)
    (random : SeededRandom) :
  1 <= fst (calculateGitHubIntensity Math_sin Math_cos row col totalRows totalCols
              random) <= 4.
Proof.
  unfold calculateGitHubIntensity. destruct (next random) as [x random'].
  simpl. repeat destruct (Qlt_le_dec _ _); lia.
Qed.

Lemma renderCell_spec (config : RenderConfig) (bitmap : Bitmap)
    (height width row col : nat) (random : SeededRandom) :
  selectable config ->
  exists glyph random',
    renderCell config bitmap height width row col random
    = Some (fitToWidth glyph (cellWidthOf (emojisOf config)), random')
    /\ glyph_of config glyph.
Proof.
  intros [Hn Hgithub]. unfold Renderer.renderCell.
  destruct (default false (bitmap !! row ≫= (.!! col))).
  - destruct (theme config) eqn:Htheme.
    + destruct (selectEmoji_defined (emojisOf config) (Z.of_nat row) (Z.of_nat col)
                  (Z.of_nat height) (Z.of_nat width) (mode config) random)
        as (emoji & Hsel & Hin); [done|lia|lia|].
      destruct (selectEmoji _ _ _ _ _ _ _) as [rawEmoji random'].
      simpl in Hsel. subst rawEmoji.
      exists emoji, random'. split; [done|by right].
    + pose proof (calculateGitHubIntensity_range (Z.of_nat row) (Z.of_nat col)
                    (Z.of_nat height) (Z.of_nat width) random) as Hlevel.
      destruct (calculateGitHubIntensity _ _ _ _ _ _ _) as [level random'].
      simpl in Hlevel.
      destruct (at_index_in_range (emojisOf config) level) as (emoji & Hat & Hin).
      { specialize (Hgithub eq_refl). lia. }
      rewrite Hat. exists emoji, random'. split; [done|by right].
  - exists (bgEmojiOf config), random. split; [done|by left].
Qed.

Lemma renderCols_spec (config : RenderConfig) (bitmap : Bitmap)
    (height width row : nat) (cols : list nat) :
  selectable config ->
  forall (line : jsstring) (random : SeededRandom),
  exists glyphs random',
    renderCols config bitmap height width row cols line random
    = Some (line ++ concat ((fun glyph =>
                               fitToWidth glyph (cellWidthOf (emojisOf config)))
                              <$> glyphs),
            random')
    /\ length glyphs = length cols
    /\ Forall (glyph_of config) glyphs.
Proof.
  intros Hsel. induction cols as [|col cols IH]; intros line random; simpl.
  - exists [], random. by rewrite app_nil_r.
  - destruct (renderCell_spec config bitmap height width row col random Hsel)
      as (glyph & random1 & -> & Hglyph).
    destruct (IH (line ++ fitToWidth glyph (cellWidthOf (emojisOf config))) random1)
      as (glyphs & random2 & -> & Hlen & Hall).
    exists (glyph :: glyphs), random2. simpl.
    rewrite <- app_assoc. repeat split; [by rewrite Hlen|by constructor].
Qed.

Lemma renderRows_spec (config : RenderConfig) (bitmap : Bitmap)
    (height width : nat) (rows : list nat) :
  selectable config ->
  forall (lines : list jsstring) (random : SeededRandom),
  exists cells random',
    renderRows config bitmap height width rows lines random
    = Some (lines ++ ((fun glyphs =>
                         concat ((fun glyph =>
                                    fitToWidth glyph (cellWidthOf (emojisOf config)))
                                   <$> glyphs)) <$> cells),
            random')
    /\ length cells = length rows
    /\ Forall (fun glyphs => length glyphs = width
                             /\ Forall (glyph_of config) glyphs) cells.
Proof.
  intros Hsel. induction rows as [|row rows IH]; intros lines random; simpl.
  - exists [], random. by rewrite app_nil_r.
  - destruct (renderCols_spec config bitmap height width row (seq 0 width) Hsel
                [] random) as (glyphs & random1 & -> & Hlen & Hall).
    rewrite length_seq in Hlen. simpl.
    destruct (IH (lines ++ [concat ((fun glyph =>
                                       fitToWidth glyph (cellWidthOf (emojisOf config)))
                                      <$> glyphs)]) random1)
      as (cells & random2 & -> & Hlen2 & Hall2).
    exists (glyphs :: cells), random2. simpl.
    rewrite <- app_assoc. repeat split; [by rewrite Hlen2|by constructor].
Qed.

(** C1. A render call reads nothing of the host but its arguments: the
    generator is created with seed 42, never with the clock, its draws are
    a function of the seed, and two calls with the same bitmap and
    configuration return the same result, text included. *)
Theorem renderBitmap_deterministic (host1 host2 : Host) (bitmap : Bitmap)
    (config : RenderConfig) :
  renderBitmap host1 bitmap config = renderBitmap host2 bitmap config
  /\ BannerResult.text <$> renderBitmap host1 bitmap config
     = BannerResult.text <$> renderBitmap host2 bitmap config
  /\ renderLines host1 bitmap config
     = fst <$> renderRows config bitmap (length bitmap)
                 (match bitmap with [] => 0%nat | row0 :: _ => length row0 end)
                 (seq 0 (length bitmap)) [] {| seed := 42 |}
  /\ (forall (random1 random2 : SeededRandom) (max : Z),
        seed random1 = seed random2 ->
        next random1 = next random2 /\ nextInt max random1 = nextInt max random2).
Proof.
  split; [reflexivity|]. split; [reflexivity|]. split; [reflexivity|].
  intros random1 random2 max Hseed. unfold nextInt, next.
  by rewrite Hseed.
Qed.

End WithHost.

(** The draws do depend on the seed: it is the fixed seed that makes two
    renders agree. *)
Example draws_depend_on_seed :
  fst (nextInt 3 {| seed := 42 |}) = 1 /\ fst (nextInt 3 {| seed := 43 |}) = 0.
Proof. split; vm_compute; reflexivity. Qed.

(** Two hosts whose clocks differ render the sample alike. *)
Lemma renderBitmap_deterministic_witness :
  renderBitmap Sample.pictographic None Sample.background Sample.github
    Sample.sin Sample.cos {| Date_now := 0 |} Sample.bitmap_AB Sample.config
  = renderBitmap Sample.pictographic None Sample.background Sample.github
      Sample.sin Sample.cos {| Date_now := 1700000000000 |} Sample.bitmap_AB
      Sample.config
  /\ next {| seed := 42 |} = next {| seed := 42 |}.
Proof.
  destruct (renderBitmap_deterministic Sample.pictographic None
              Sample.background Sample.github Sample.sin Sample.cos
              {| Date_now := 0 |} {| Date_now := 1700000000000 |}
              Sample.bitmap_AB Sample.config) as (Hsame & _ & _ & Hdraw).
  split; [exact Hsame|].
  exact (proj1 (Hdraw {| seed := 42 |} {| seed := 42 |} 3 eq_refl)).
Defined.

End RendererFacts.

(** * Further properties *)

(** ** Bitmaps *)

Module BitmapExtraFacts.

Import JS Bitmap BitmapFacts BitmapExtra.
Local Open Scope Z_scope.

(** ** Trimming removes background rows at both ends only *)

Lemma trim_startRow_blank (fuel : nat) (bitmap : Bitmap) :
  forall (startRow i : nat),
    (startRow <= i < trim_startRow fuel bitmap startRow)%nat ->
    exists row, bitmap !! i = Some row /\ every_not row = true.
Proof.
  induction fuel as [|fuel IH]; intros startRow i Hi; simpl in Hi; [lia|].
  destruct (bitmap !! startRow) as [row|] eqn:Hs; [|lia].
  destruct (every_not row) eqn:Hrow; [|lia].
  destruct (decide (i = startRow)) as [->|Hne]; [by exists row|].
  apply (IH (S startRow)). lia.
Qed.

Lemma trim_endRow_blank (fuel : nat) (bitmap : Bitmap) :
  forall (endRow i : Z),
    trim_endRow fuel bitmap endRow < i <= endRow ->
    exists row, bitmap !! Z.to_nat i = Some row /\ every_not row = true.
Proof.
  induction fuel as [|fuel IH]; intros endRow i Hi; simpl in Hi; [lia|].
  destruct (Z.leb_spec 0 endRow) as [Hpos|?]; [|lia].
  destruct (bitmap !! Z.to_nat endRow) as [row|] eqn:He; [|lia].
  destruct (every_not row) eqn:Hrow; [|lia].
  destruct (decide (i = endRow)) as [->|Hne]; [by exists row|].
  apply (IH (endRow - 1)). lia.
Qed.

Lemma trimBitmap_split (bitmap : Bitmap) (k : nat) (row : list bool) :
  bitmap !! k = Some row -> every_not row = false ->
  exists (above below : Bitmap) (first last : list bool),
    bitmap = above ++ trimBitmap bitmap ++ below
    /\ Forall (fun r => every_not r = true) above
    /\ Forall (fun r => every_not r = true) below
    /\ trimBitmap bitmap !! 0%nat = Some first /\ every_not first = false
    /\ trimBitmap bitmap !! (length (trimBitmap bitmap) - 1)%nat = Some last
    /\ every_not last = false.
Proof.
  intros Hk Hrow. pose proof (lookup_lt_Some _ _ _ Hk) as Hlen.
  unfold trimBitmap.
  destruct (Nat.eqb_spec (length bitmap) 0) as [?|_]; [lia|].
  set (startRow := trim_startRow (length bitmap) bitmap 0).
  set (endRow := trim_endRow (length bitmap) bitmap (Z.of_nat (length bitmap) - 1)).
  destruct (trim_startRow_spec (length bitmap) bitmap 0) as [_ Hs]; [lia|].
  destruct (trim_endRow_spec (length bitmap) bitmap (Z.of_nat (length bitmap) - 1))
    as [He1 He2]; [lia|].
  fold startRow in Hs. fold endRow in He1, He2.
  assert (Hsk : (startRow <= k)%nat).
  { destruct (Nat.le_gt_cases startRow k) as [?|Hgt]; [done|].
    destruct (trim_startRow_blank (length bitmap) bitmap 0 k) as (r & Hr & Hb);
      [fold startRow; lia|]. congruence. }
  assert (Hek : Z.of_nat k <= endRow).
  { destruct (Z.le_gt_cases (Z.of_nat k) endRow) as [?|Hgt]; [done|].
    destruct (trim_endRow_blank (length bitmap) bitmap
                (Z.of_nat (length bitmap) - 1) (Z.of_nat k)) as (r & Hr & Hb);
      [fold endRow; lia|]. rewrite Nat2Z.id in Hr. congruence. }
  destruct (Z.gtb_spec (Z.of_nat startRow) endRow) as [?|_]; [lia|].
  destruct (lookup_lt_is_Some_2 bitmap startRow) as [first Hfirst]; [lia|].
  destruct (lookup_lt_is_Some_2 bitmap (Z.to_nat endRow)) as [last Hlast]; [lia|].
  assert (Hslice : length (slice startRow (endRow + 1) bitmap)
                   = (Z.to_nat (endRow + 1) - startRow)%nat).
  { unfold slice. rewrite length_take, length_drop. lia. }
  exists (take startRow bitmap), (drop (Z.to_nat (endRow + 1)) bitmap), first, last.
  repeat split.
  - unfold slice.
    rewrite <- (take_drop startRow bitmap) at 1. f_equal.
    rewrite <- (take_drop (Z.to_nat (endRow + 1) - startRow) (drop startRow bitmap)) at 1.
    f_equal. rewrite drop_drop. f_equal. lia.
  - apply Forall_lookup. intros i r Hi.
    apply lookup_take_Some in Hi as [Hi Hlt].
    destruct (trim_startRow_blank (length bitmap) bitmap 0 i) as (r' & Hr' & Hb);
      [fold startRow; lia|]. congruence.
  - apply Forall_lookup. intros i r Hi. rewrite lookup_drop in Hi.
    pose proof (lookup_lt_Some _ _ _ Hi) as Hlt.
    destruct (trim_endRow_blank (length bitmap) bitmap
                (Z.of_nat (length bitmap) - 1)
                (Z.of_nat (Z.to_nat (endRow + 1) + i))) as (r' & Hr' & Hb);
      [fold endRow; lia|]. rewrite Nat2Z.id in Hr'. congruence.
  - unfold slice. rewrite lookup_take_lt by lia. rewrite lookup_drop.
    by rewrite Nat.add_0_r.
  - by apply Hs.
  - rewrite Hslice. unfold slice. rewrite lookup_take_lt by lia.
    rewrite lookup_drop. rewrite <- Hlast. f_equal. lia.
  - apply He2; [lia|done].
Qed.

(** X1. When some row holds a foreground cell, the bitmap is a run of
    background rows, the trimmed bitmap, and another run of background rows;
    the trimmed bitmap begins and ends with a row that holds a foreground
    cell. Rows are neither reordered nor changed, and background rows between
    foreground rows stay. *)
Theorem trimBitmap_decomposition (bitmap : Bitmap) (k : nat) (row : list bool) :
  bitmap !! k = Some row -> every_not row = false ->
  exists (above below : Bitmap) (first last : list bool),
    bitmap = above ++ trimBitmap bitmap ++ below
    /\ Forall (fun r => every_not r = true) above
    /\ Forall (fun r => every_not r = true) below
    /\ trimBitmap bitmap !! 0%nat = Some first /\ every_not first = false
    /\ trimBitmap bitmap !! (length (trimBitmap bitmap) - 1)%nat = Some last
    /\ every_not last = false.
Proof. apply trimBitmap_split. Qed.

Lemma trimBitmap_blank (bitmap : Bitmap) :
  Forall (fun row => every_not row = true) bitmap ->
  trimBitmap bitmap = match bitmap with [] => [] | _ => [[]] end.
Proof.
  intros Hall. destruct bitmap as [|row0 rest] eqn:Hb; [done|]. rewrite <- Hb in *.
  assert (Hlen : (0 < length bitmap)%nat) by (rewrite Hb; simpl; lia).
  unfold trimBitmap.
  destruct (Nat.eqb_spec (length bitmap) 0) as [?|_]; [lia|].
  set (startRow := trim_startRow (length bitmap) bitmap 0).
  set (endRow := trim_endRow (length bitmap) bitmap (Z.of_nat (length bitmap) - 1)).
  destruct (trim_startRow_spec (length bitmap) bitmap 0) as [_ Hs]; [lia|].
  destruct (trim_endRow_spec (length bitmap) bitmap (Z.of_nat (length bitmap) - 1))
    as [He1 _]; [lia|].
  fold startRow in Hs. fold endRow in He1.
  assert (Hstart : (length bitmap <= startRow)%nat).
  { destruct (Nat.le_gt_cases (length bitmap) startRow) as [?|Hlt]; [done|].
    destruct (lookup_lt_is_Some_2 bitmap startRow Hlt) as [r Hr].
    pose proof (Forall_lookup_1 _ _ _ _ Hall Hr) as Hblank. simpl in Hblank.
    rewrite (Hs r Hr) in Hblank. done. }
  destruct (Z.gtb_spec (Z.of_nat startRow) endRow) as [_|?]; [done|lia].
Qed.

(** X2. A bitmap of background rows only collapses to the sentinel, whatever
    its width; the bitmap without rows stays as it is. *)
Theorem trimBitmap_all_background (bitmap : Bitmap) :
  Forall (fun row => every_not row = true) bitmap ->
  trimBitmap bitmap = match bitmap with [] => [] | _ => [[]] end.
Proof. apply trimBitmap_blank. Qed.

(** ** Foreground cells are neither lost nor made *)

Lemma foregroundCells_app (a b : Bitmap) :
  foregroundCells (a ++ b) = (foregroundCells a + foregroundCells b)%nat.
Proof. unfold foregroundCells. by rewrite fmap_app, sum_list_with_app. Qed.

Lemma every_not_filter (row : list bool) :
  every_not row = true -> filter Is_true row = [].
Proof.
  induction row as [|cell row IH]; [done|]. simpl. intros H.
  apply andb_prop in H as [Hcell Hrow]. destruct cell; [done|].
  rewrite filter_cons_False by (simpl; tauto). by apply IH.
Qed.

Lemma foregroundCells_background (bitmap : Bitmap) :
  Forall (fun row => every_not row = true) bitmap -> foregroundCells bitmap = 0%nat.
Proof.
  unfold foregroundCells. induction 1 as [|row rest Hrow _ IH]; [done|].
  rewrite fmap_cons. simpl. by rewrite (every_not_filter row Hrow), IH.
Qed.

Lemma foregroundCells_trimBitmap (bitmap : Bitmap) :
  foregroundCells (trimBitmap bitmap) = foregroundCells bitmap.
Proof.
  destruct (decide (Forall (fun row => every_not row = true) bitmap)) as [Hall|Hex].
  - rewrite (trimBitmap_blank bitmap Hall).
    rewrite (foregroundCells_background bitmap Hall). by destruct bitmap.
  - apply not_Forall_Exists in Hex; [|intros row; apply _].
    apply Exists_exists in Hex as (row & Hin & Hrow).
    apply list_elem_of_lookup_1 in Hin as [k Hk].
    apply not_true_is_false in Hrow.
    destruct (trimBitmap_split bitmap k row Hk Hrow)
      as (above & below & _ & _ & Hb & Habove & Hbelow & _).
    rewrite Hb at 2. rewrite !foregroundCells_app.
    rewrite (foregroundCells_background _ Habove).
    rewrite (foregroundCells_background _ Hbelow). lia.
Qed.

Lemma filter_padRow (w : nat) (rowData : list bool) :
  filter Is_true (padRow w rowData) = filter Is_true rowData.
Proof.
  unfold padRow. rewrite filter_app.
  assert (H : filter Is_true (replicate (w - length rowData) false) = []).
  { induction (w - length rowData)%nat as [|n IH]; [done|]. simpl.
    by rewrite filter_cons_False by (simpl; tauto). }
  by rewrite H, app_nil_r.
Qed.

Lemma foregroundCells_concat (parts : list Bitmap) :
  foregroundCells (concat parts) = sum_list (foregroundCells <$> parts).
Proof.
  induction parts as [|part parts IH]; [done|]. simpl.
  by rewrite foregroundCells_app, IH.
Qed.

(** X3. Merging and trimming keep every foreground cell and add none: the
    merged bitmap has as many foreground cells as the line bitmaps together. *)
Theorem mergeLines_foregroundCells (lineBitmaps : list Bitmap) (lineSpacing : nat) :
  foregroundCells (mergeLines lineBitmaps lineSpacing)
  = sum_list (foregroundCells <$> lineBitmaps)
  /\ forall bitmap, foregroundCells (trimBitmap bitmap) = foregroundCells bitmap.
Proof.
  split; [|apply foregroundCells_trimBitmap].
  unfold mergeLines.
  destruct (Nat.eqb_spec (length lineBitmaps) 0) as [Hz|_].
  { apply nil_length_inv in Hz. by subst. }
  rewrite foregroundCells_trimBitmap, foregroundCells_concat.
  f_equal. rewrite fmap_imap. rewrite <- (imap_const foregroundCells).
  apply imap_ext. intros index lineBitmap _. simpl.
  rewrite foregroundCells_app.
  assert (Hpad : forall w, foregroundCells (padRow w <$> lineBitmap)
                           = foregroundCells lineBitmap).
  { intros w. unfold foregroundCells. rewrite <- list_fmap_compose. f_equal.
    apply list_fmap_ext. intros i row _. simpl. by rewrite filter_padRow. }
  rewrite Hpad.
  destruct (_ && _); [|change (foregroundCells []) with 0%nat; lia].
  rewrite (foregroundCells_background (replicate _ _)); [lia|].
  apply Forall_replicate. unfold every_not.
  apply forallb_forall. intros cell Hin.
  apply list_elem_of_In, elem_of_replicate in Hin as [-> _]. done.
Qed.

(** ** What reaches the rasteriser *)

Lemma elem_of_join (sep : jsstring) (parts : list jsstring) (x : Z) :
  x ∈ join sep parts -> x ∈ sep \/ exists p, p ∈ parts /\ x ∈ p.
Proof.
  induction parts as [|p rest IH]; intros Hx; [by apply elem_of_nil in Hx|].
  destruct rest as [|q rest].
  - right. exists p. split; [by left|done].
  - change (join sep (p :: q :: rest)) with (p ++ sep ++ join sep (q :: rest)) in Hx.
    apply elem_of_app in Hx as [Hx|Hx]; [right; exists p; split; [by left|done]|].
    apply elem_of_app in Hx as [Hx|Hx]; [by left|].
    destruct (IH Hx) as [?|(p' & Hp' & Hx')]; [by left|].
    right. exists p'. split; [by right|done].
Qed.

Lemma elem_of_Array_from :
  forall (n : nat) (s p : jsstring) (x : Z),
    (length s <= n)%nat -> p ∈ Array_from s -> x ∈ p -> x ∈ s.
Proof.
  induction n as [|n IH]; intros s p x Hlen Hp Hx.
  - destruct s; [by apply elem_of_nil in Hp|simpl in Hlen; lia].
  - destruct s as [|c [|d rest]].
    + by apply elem_of_nil in Hp.
    + apply list_elem_of_singleton in Hp. by subst.
    + change (Array_from (c :: d :: rest))
        with (if is_high_surrogate c && is_low_surrogate d
              then [c; d] :: Array_from rest
              else [c] :: Array_from (d :: rest)) in Hp.
      simpl in Hlen. destruct (_ && _).
      * apply elem_of_cons in Hp as [->|Hp].
        -- apply elem_of_cons in Hx as [->|Hx]; [by left|].
           apply list_elem_of_singleton in Hx as ->. right. by left.
        -- right. right. apply (IH rest p x); [lia|done|done].
      * apply elem_of_cons in Hp as [->|Hp].
        -- apply list_elem_of_singleton in Hx as ->. by left.
        -- right. apply (IH (d :: rest) p x); [simpl; lia|done|done].
Qed.

Lemma elem_of_split (sep : Z) (s : jsstring) :
  forall (line : jsstring) (x : Z), line ∈ split sep s -> x ∈ line -> x ∈ s.
Proof.
  induction s as [|c s IH]; intros line x Hline Hx; simpl in Hline.
  - apply list_elem_of_singleton in Hline. by subst.
  - destruct (c =? sep).
    + apply elem_of_cons in Hline as [->|Hline]; [by apply elem_of_nil in Hx|].
      right. by apply (IH line).
    + destruct (split sep s) as [|l ls] eqn:Hsplit.
      * apply list_elem_of_singleton in Hline. subst line.
        apply list_elem_of_singleton in Hx as ->. by left.
      * apply elem_of_cons in Hline as [->|Hline].
        -- apply elem_of_cons in Hx as [->|Hx]; [by left|].
           right. apply (IH l); [by left|done].
        -- right. apply (IH line); [by right|done].
Qed.

Lemma replace_cr_no_CR (s : jsstring) : CR ∉ replace_cr s.
Proof.
  unfold replace_cr. intros Hin.
  apply list_elem_of_fmap in Hin as (c & Hc & _).
  destruct (Z.eqb_spec c CR) as [Heq|Hne]; [discriminate|]. congruence.
Qed.

(** X4. Carriage returns never survive normalisation, and no line handed to
    the rasteriser holds a control character or a line break. *)
Theorem rasterised_lines_clean (text : jsstring) (options : TextToBitmapOptions)
    (isVertical : bool) :
  (CR ∉ normalizeTextInput text isVertical)
  /\ forall line c,
       line ∈ split LF (truncatedText text options) -> c ∈ line ->
       is_control c = false /\ c <> LF /\ c <> CR.
Proof.
  split.
  - unfold normalizeTextInput.
    set (normalizedNewlines := replace_cr (replace_crlf (decodeEscapes text))).
    pose proof (replace_cr_no_CR (replace_crlf (decodeEscapes text))) as Hno.
    fold normalizedNewlines in Hno.
    destruct isVertical; simpl negb; cbv iota; [|done].
    intros Hin. apply elem_of_join in Hin as [Hin|(p & Hp & Hin)].
    { apply elem_of_cons in Hin as [?|Hin]; [done|].
      by apply list_elem_of_singleton in Hin. }
    apply list_elem_of_fmap in Hp as (line & -> & Hline).
    destruct (length line =? 0)%nat; [by apply elem_of_nil in Hin|].
    apply elem_of_join in Hin as [Hin|(g & Hg & Hin)].
    { by apply list_elem_of_singleton in Hin. }
    apply Hno. apply (elem_of_split LF _ line); [done|].
    by apply (elem_of_Array_from (length line) line g).
  - intros line c Hline Hc.
    pose proof (split_parts_no_sep LF (truncatedText text options)) as Hparts.
    rewrite Forall_forall in Hparts. specialize (Hparts line Hline).
    pose proof (elem_of_split LF _ line c Hline Hc) as Hin.
    unfold truncatedText, slice0 in Hin.
    apply subseteq_take in Hin. unfold sanitizedText, sanitize in Hin.
    apply list_elem_of_filter in Hin as [Hctl _].
    repeat split; [done| |].
    + intros ->. done.
    + intros ->. done.
Qed.

(** ** Escape decoding on ordinary text *)

Lemma decodeEscapes_spec_length :
  forall (n : nat) (text : jsstring),
    (length text <= n)%nat ->
    (length (decodeEscapes_spec text) <= length text)%nat.
Proof.
  induction n as [|n IH]; intros text Hlen.
  - destruct text; simpl in *; lia.
  - destruct text as [|c rest]; [simpl; lia|]. simpl in Hlen. simpl decodeEscapes_spec.
    destruct (negb (c =? BACKSLASH)).
    + specialize (IH rest). simpl. lia.
    + destruct rest as [|next rest']; [simpl; lia|]. simpl in Hlen.
      specialize (IH rest').
      destruct (next =? LOWER_N); [|destruct (next =? BACKSLASH)]; simpl; lia.
Qed.

(** X5. Text without a backslash is decoded to itself, and decoding never
    makes a text longer. *)
Theorem decodeEscapes_plain (text : jsstring) :
  (BACKSLASH ∉ text -> decodeEscapes text = text)
  /\ (length (decodeEscapes text) <= length text)%nat.
Proof.
  rewrite decodeEscapes_eq_spec. split.
  - induction text as [|c rest IH]; intros Hno; [done|].
    apply not_elem_of_cons in Hno as [Hc Hrest]. simpl.
    destruct (Z.eqb_spec c BACKSLASH) as [?|_]; [congruence|]. simpl.
    by rewrite IH.
  - by apply (decodeEscapes_spec_length (length text)).
Qed.

(** ** The size of a rasterised line *)

Section WithFont.

Variable toUpperCase : jsstring -> jsstring.

Local Abbreviation getCharacterPattern := (getCharacterPattern toUpperCase).
Local Abbreviation renderChar := (renderChar toUpperCase).
Local Abbreviation forEach_chars := (forEach_chars toUpperCase).
Local Abbreviation renderLineToBitmap := (renderLineToBitmap toUpperCase).
Local Abbreviation textToBitmap := (textToBitmap toUpperCase).
Local Abbreviation lineWidth := (lineWidth toUpperCase).

Lemma length_renderChar (font : PixelFont.t) (nChars : nat) (rows : Bitmap)
    (char : jsstring) (charIndex : nat) :
  length (renderChar font nChars rows char charIndex) = length rows.
Proof. unfold Bitmap.renderChar. apply length_imap. Qed.

Lemma renderChar_width (font : PixelFont.t) (nChars : nat) (rows : Bitmap)
    (char : jsstring) (charIndex w : nat) :
  rectangular w rows ->
  rectangular
    (w + patternWidth (getCharacterPattern char font)
     + (if (charIndex <? nChars - 1)%nat then PixelFont.letterSpacing font else 0))
    (renderChar font nChars rows char charIndex).
Proof.
  intros Hrect. unfold Bitmap.renderChar.
  apply Forall_lookup. intros i row Hi.
  rewrite list_lookup_imap in Hi.
  destruct (rows !! i) as [row0|] eqn:Hrow; simplify_eq/=.
  rewrite length_app. unfold pushed.
  rewrite length_app, length_fmap, length_seq.
  rewrite (Forall_lookup_1 _ _ _ _ Hrect Hrow).
  destruct (_ <? _)%nat; [rewrite length_replicate|simpl]; lia.
Qed.

Lemma forEach_chars_width (font : PixelFont.t) (nChars : nat)
    (characters : list jsstring) :
  forall (charIndex : nat) (rows : Bitmap) (w : nat),
    (charIndex + length characters = nChars)%nat ->
    rectangular w rows ->
    rectangular
      (w + sum_list ((fun char => patternWidth (getCharacterPattern char font))
                       <$> characters)
       + PixelFont.letterSpacing font * (length characters - 1))
      (forEach_chars font nChars charIndex characters rows)
    /\ length (forEach_chars font nChars charIndex characters rows) = length rows.
Proof.
  induction characters as [|char rest IH]; intros charIndex rows w Hn Hrect.
  - simpl. split; [|done]. by replace (w + 0 + _)%nat with w by lia.
  - simpl forEach_chars. simpl in Hn.
    pose proof (renderChar_width font nChars rows char charIndex w Hrect) as H1.
    destruct (IH (S charIndex) _ _ ltac:(lia) H1) as [H2 H3].
    rewrite length_renderChar in H3. split; [|done].
    rewrite fmap_cons. simpl sum_list. simpl length.
    destruct (Nat.ltb_spec charIndex (nChars - 1)) as [Hlt|Hge].
    + destruct rest as [|char' rest']; [simpl in Hn; lia|].
      simpl length in *.
      replace (w + _ + _)%nat with
        (w + patternWidth (getCharacterPattern char font)
         + PixelFont.letterSpacing font
         + sum_list ((fun char => patternWidth (getCharacterPattern char font))
                       <$> char' :: rest')
         + PixelFont.letterSpacing font * (S (length rest') - 1))%nat by lia.
      exact H2.
    + destruct rest as [|char' rest']; [|simpl in Hn; lia].
      simpl in *.
      by replace (w + (patternWidth (getCharacterPattern char font) + 0)
                  + PixelFont.letterSpacing font * 0)%nat
        with (w + patternWidth (getCharacterPattern char font) + 0 + 0
              + PixelFont.letterSpacing font * 0)%nat by lia.
Qed.

Lemma renderLineToBitmap_size (line : jsstring) (font : PixelFont.t) :
  length (renderLineToBitmap line font) = PixelFont.height font
  /\ rectangular (lineWidth font (Array_from line)) (renderLineToBitmap line font)
  /\ renderLineToBitmap [] font = replicate (PixelFont.height font) [].
Proof.
  unfold Bitmap.renderLineToBitmap, BitmapExtra.lineWidth.
  assert (Hrows : rectangular 0 (replicate (PixelFont.height font) ([] : list bool)))
    by by apply Forall_replicate.
  split; [|split; [|done]].
  - destruct (Nat.eqb_spec (length (Array_from line)) 0) as [Hz|Hnz].
    + apply length_replicate.
    + destruct (forEach_chars_width font (length (Array_from line))
                  (Array_from line) 0 _ 0%nat eq_refl Hrows) as [_ Hlen].
      by rewrite Hlen, length_replicate.
  - destruct (Nat.eqb_spec (length (Array_from line)) 0) as [Hz|Hnz].
    + apply nil_length_inv in Hz. rewrite Hz. simpl. rewrite Nat.mul_0_r.
      exact Hrows.
    + by destruct (forEach_chars_width font (length (Array_from line))
                     (Array_from line) 0 _ 0%nat eq_refl Hrows) as [Hw _].
Qed.

(** X6. A rasterised line has [font.height] rows, each of the width of the
    patterns of its characters plus the letter spacing between them; the empty
    line has [font.height] rows without columns. *)
Theorem renderLineToBitmap_dimensions (line : jsstring) (font : PixelFont.t) :
  length (renderLineToBitmap line font) = PixelFont.height font
  /\ rectangular (lineWidth font (Array_from line)) (renderLineToBitmap line font)
  /\ renderLineToBitmap [] font = replicate (PixelFont.height font) [].
Proof. apply renderLineToBitmap_size. Qed.

(** ** One line of text *)

Lemma trimBitmap_cases (bitmap : Bitmap) :
  trimBitmap bitmap = [[]]
  \/ exists start n, trimBitmap bitmap = take n (drop start bitmap).
Proof.
  unfold trimBitmap. destruct (_ =? _)%nat.
  - right. exists 0%nat, (length bitmap). by rewrite drop_0, take_ge.
  - destruct (_ >? _); [by left|]. right. unfold slice. by eexists _, _.
Qed.

Lemma padRow_id (w : nat) (rowData : list bool) :
  length rowData = w -> padRow w rowData = rowData.
Proof.
  intros <-. unfold padRow. rewrite Nat.sub_diag. simpl. by rewrite app_nil_r.
Qed.

Lemma mergeLines_single (lineBitmap : Bitmap) (lineSpacing w : nat) :
  rectangular w lineBitmap ->
  mergeLines [lineBitmap] lineSpacing = trimBitmap lineBitmap.
Proof.
  intros Hrect. unfold mergeLines. simpl. rewrite app_nil_r. f_equal.
  destruct lineBitmap as [|row0 rest]; [done|].
  pose proof Hrect as Hall. apply Forall_cons in Hrect as [H0 _].
  simpl lookup. cbv iota. rewrite Nat.max_0_r, ?app_nil_r.
  rewrite <- (list_fmap_id (row0 :: rest)) at 2.
  apply Forall_fmap_ext_1. eapply Forall_impl; [exact Hall|].
  intros row Hrow. simpl. apply padRow_id. congruence.
Qed.

(** X7. A text that is one line after sanitisation gives the trimmed bitmap of
    that line: merging changes nothing and no spacing row is added. Unless it
    is the sentinel, the bitmap is as wide as the patterns of the characters
    and the letter spacing between them, and at most [font.height] rows high. *)
Theorem textToBitmap_single_line (text : jsstring) (font : PixelFont.t)
    (options : TextToBitmapOptions) :
  sanitizedText text options <> [] ->
  LF ∉ truncatedText text options ->
  let line := truncatedText text options in
  textToBitmap (Some text) font options
  = inr (trimBitmap (renderLineToBitmap line font))
  /\ (trimBitmap (renderLineToBitmap line font) = [[]]
      \/ (rectangular (lineWidth font (Array_from line))
             (trimBitmap (renderLineToBitmap line font))
          /\ (length (trimBitmap (renderLineToBitmap line font))
              <= PixelFont.height font)%nat)).
Proof.
  intros Hne Hline line. split; cycle 1.
  { destruct (renderLineToBitmap_size line font) as (Hh & Hrect & _).
    destruct (trimBitmap_cases (renderLineToBitmap line font))
      as [?|(start & n & ->)]; [by left|right].
    split; [by apply Forall_take, Forall_drop|].
    rewrite length_take, length_drop. lia. }
  subst line. unfold Bitmap.textToBitmap.
  destruct text as [|c text].
  { by rewrite sanitizedText_nil in Hne. }
  change (length (c :: text) =? 0)%nat with false. cbv iota.
  destruct (sanitizedText (c :: text) options) as [|c' t'] eqn:Hs; [done|].
  change (length (c' :: t') =? 0)%nat with false. cbv iota.
  unfold truncatedText in *. rewrite Hs in *.
  rewrite (split_no_sep LF _ Hline). simpl fmap. f_equal.
  destruct (renderLineToBitmap_size (slice0 MAX_TEXT_LENGTH (c' :: t')) font)
    as (_ & Hrect & _).
  by apply (mergeLines_single _ _ _ Hrect).
Qed.

(** ** Characters the font does not have *)

Lemma forEach_chars_patterns (font : PixelFont.t) (nChars : nat)
    (characters1 : list jsstring) :
  forall (characters2 : list jsstring) (charIndex : nat) (rows : Bitmap),
    Forall2 (fun c1 c2 => getCharacterPattern c1 font = getCharacterPattern c2 font)
            characters1 characters2 ->
    forEach_chars font nChars charIndex characters1 rows
    = forEach_chars font nChars charIndex characters2 rows.
Proof.
  induction characters1 as [|c1 rest1 IH]; intros characters2 charIndex rows Hall.
  - by apply Forall2_nil_inv_l in Hall as ->.
  - apply Forall2_cons_inv_l in Hall as (c2 & rest2 & Hc & Hrest & ->).
    simpl. unfold Bitmap.renderChar. rewrite Hc. by apply IH.
Qed.

(** X8. The rasteriser sees a line only through the patterns of its
    characters: a character the font lacks is drawn as its upper-case form
    when the font has that, and as the question mark otherwise. *)
Theorem renderLineToBitmap_fallback (font : PixelFont.t) :
  (forall line1 line2,
     Forall2 (fun c1 c2 => getCharacterPattern c1 font = getCharacterPattern c2 font)
             (Array_from line1) (Array_from line2) ->
     renderLineToBitmap line1 font = renderLineToBitmap line2 font)
  /\ (forall c u : Z,
        PixelFont.map font !! [c] = None ->
        toUpperCase [c] = [u] -> is_Some (PixelFont.map font !! [u]) ->
        renderLineToBitmap [c] font = renderLineToBitmap [u] font)
  /\ (forall c : Z,
        PixelFont.map font !! [c] = None ->
        PixelFont.map font !! toUpperCase [c] = None ->
        is_Some (PixelFont.map font !! [QUESTION]) ->
        renderLineToBitmap [c] font = renderLineToBitmap [QUESTION] font).
Proof.
  assert (Hcongr : forall line1 line2,
            Forall2 (fun c1 c2 => getCharacterPattern c1 font
                                  = getCharacterPattern c2 font)
                    (Array_from line1) (Array_from line2) ->
            renderLineToBitmap line1 font = renderLineToBitmap line2 font).
  { intros line1 line2 Hall. unfold Bitmap.renderLineToBitmap.
    rewrite (Forall2_length _ _ _ Hall).
    destruct (length (Array_from line2) =? 0)%nat; [done|].
    by apply forEach_chars_patterns. }
  split; [exact Hcongr|]. split.
  - intros c u Hc Hu [p Hp]. apply Hcongr. simpl. repeat constructor.
    unfold Bitmap.getCharacterPattern. by rewrite Hc, Hu, Hp.
  - intros c Hc Hu [p Hp]. apply Hcongr. simpl. repeat constructor.
    unfold Bitmap.getCharacterPattern. by rewrite Hc, Hu, Hp.
Qed.

End WithFont.

(** Two background rows above and one below a row with a foreground cell. *)
Lemma trimBitmap_decomposition_witness :
  trimBitmap [[false]; [false]; [true]; [false]] = [[true]]
  /\ exists above below,
       [[false]; [false]; [true]; [false]]
       = above ++ trimBitmap [[false]; [false]; [true]; [false]] ++ below
       /\ Forall (fun r => every_not r = true) above
       /\ Forall (fun r => every_not r = true) below.
Proof.
  split; [reflexivity|].
  destruct (trimBitmap_decomposition [[false]; [false]; [true]; [false]] 2 [true]
              eq_refl eq_refl)
    as (above & below & first & last & Hsplit & Habove & Hbelow & _).
  by exists above, below.
Defined.

Lemma trimBitmap_all_background_witness :
  trimBitmap [[false; false]; [false; false]] = [[]].
Proof.
  apply (trimBitmap_all_background [[false; false]; [false; false]]).
  repeat constructor.
Defined.

(** The text ["A\tB"]: the tab is removed before the line is rasterised. *)
Lemma rasterised_lines_clean_witness :
  is_control 65 = false /\ 65 <> LF /\ 65 <> CR.
Proof.
  destruct (rasterised_lines_clean [65; 9; 66] Sample.horizontal false)
    as [_ Hclean].
  apply (Hclean [65; 66] 65).
  - vm_compute. by left.
  - by left.
Defined.

Lemma decodeEscapes_plain_witness : decodeEscapes [65; 66] = [65; 66].
Proof.
  destruct (decodeEscapes_plain [65; 66]) as [Hplain _].
  apply Hplain. intros [H|[H|H]%elem_of_cons]%elem_of_cons;
    [discriminate H|discriminate H|by apply elem_of_nil in H].
Defined.

(** ["AI"] in the sample font: three columns, one of spacing, one column. *)
Lemma textToBitmap_single_line_witness :
  textToBitmap Sample.upper (Some [65; 73]) Sample.font Sample.horizontal
  = inr (trimBitmap (renderLineToBitmap Sample.upper [65; 73] Sample.font))
  /\ lineWidth Sample.upper Sample.font (Array_from [65; 73]) = 5%nat.
Proof.
  destruct (textToBitmap_single_line Sample.upper [65; 73] Sample.font
              Sample.horizontal) as [Hbitmap _].
  - vm_compute. discriminate.
  - vm_compute. intros [H|[H|H]%elem_of_cons]%elem_of_cons;
      [discriminate H|discriminate H|by apply elem_of_nil in H].
  - split; [exact Hbitmap|]. vm_compute. reflexivity.
Defined.

(** In the sample font ["a"] is drawn as ["A"] and ["z"], which has no
    upper-case glyph either, as the question mark. *)
Lemma renderLineToBitmap_fallback_witness :
  renderLineToBitmap Sample.upper [97] Sample.font
  = renderLineToBitmap Sample.upper [65] Sample.font
  /\ renderLineToBitmap Sample.upper [122] Sample.font
     = renderLineToBitmap Sample.upper [QUESTION] Sample.font.
Proof.
  destruct (renderLineToBitmap_fallback Sample.upper Sample.font)
    as (_ & Hupper & Hquestion).
  split.
  - apply (Hupper 97 65); [vm_compute; reflexivity|reflexivity|].
    vm_compute. by eexists.
  - apply (Hquestion 122); [vm_compute; reflexivity|vm_compute; reflexivity|].
    vm_compute. by eexists.
Defined.

End BitmapExtraFacts.

(** ** The renderer *)

Module RendererExtraFacts.

Import JS Text Float FloatFacts Renderer RendererFacts RendererExtra.
Local Open Scope Z_scope.

(** ** Selection in every mode *)

(** Only mode [random] with a candidate count other than one calls [next()]. *)
Lemma selectEmoji_generator (emojis : list jsstring)
    (row col totalRows totalCols : Z) (mode : EmojiMode) (random : SeededRandom) :
  snd (selectEmoji emojis row col totalRows totalCols mode random)
  = match mode with
    | mode_random =>
        if Z.of_nat (length emojis) =? 1 then random
        else {| seed := next_seed (seed random) |}
    | _ => random
    end.
Proof.
  unfold selectEmoji.
  destruct (Z.of_nat (length emojis) =? 1); [by destruct mode|].
  by destruct mode.
Qed.

(** X9. With at least one candidate every mode returns one of the candidates
    at non-negative positions, and only mode [random] with two or more
    candidates advances the generator, by one step. *)
Theorem selectEmoji_always_candidate (emojis : list jsstring)
    (row col totalRows totalCols : Z) (mode : EmojiMode) (random : SeededRandom) :
  1 <= Z.of_nat (length emojis) < 2 ^ 32 -> 0 <= row -> 0 <= col ->
  (exists emoji,
     fst (selectEmoji emojis row col totalRows totalCols mode random) = Some emoji
     /\ emoji ∈ emojis)
  /\ snd (selectEmoji emojis row col totalRows totalCols mode random)
     = match mode with
       | mode_random =>
           if Z.of_nat (length emojis) =? 1 then random
           else {| seed := next_seed (seed random) |}
       | _ => random
       end.
Proof.
  intros Hn Hrow Hcol. split; [by apply selectEmoji_defined|].
  apply selectEmoji_generator.
Qed.

(** Five candidates, row 7, mode [row]: the candidate at index 2. *)
Lemma selectEmoji_always_candidate_witness :
  fst (selectEmoji [[65]; [66]; [67]; [68]; [69]] 7 0 9 9 mode_row {| seed := 42 |})
  = Some [67].
Proof.
  destruct (selectEmoji_always_candidate [[65]; [66]; [67]; [68]; [69]] 7 0 9 9
              mode_row {| seed := 42 |}) as [(emoji & Hsel & _) _];
    [simpl; lia|lia|lia|].
  rewrite Hsel. vm_compute in Hsel. by injection Hsel as <-.
Defined.

(** Without candidates every mode returns [undefined]. *)
Lemma selectEmoji_no_candidate (row col totalRows totalCols : Z)
    (mode : EmojiMode) (random : SeededRandom) :
  fst (selectEmoji [] row col totalRows totalCols mode random) = None.
Proof.
  unfold selectEmoji. simpl length. change (Z.of_nat 0 =? 1) with false.
  cbv iota. destruct mode; try done.
  - unfold nextInt. destruct (next random) as [x random']. simpl.
    unfold at_index. by destruct (_ <? _).
  - unfold at_index. by destruct (_ <? _).
  - unfold at_index. by destruct (_ <? _).
Qed.

Section WithHost.

Variable Extended_Pictographic : Z -> bool.
Variable graphemeSegmenter : option (jsstring -> list jsstring).
Variable getBackgroundEmoji : jsstring.
Variable getThemeEmojis_github : list jsstring.
Variable Math_sin : Q -> Q.
Variable Math_cos : Q -> Q.

Local Abbreviation getDisplayWidth :=
  (getDisplayWidth Extended_Pictographic graphemeSegmenter).
Local Abbreviation isLikelyCustomEmoji :=
  (isLikelyCustomEmoji Extended_Pictographic).
Local Abbreviation fitToWidth :=
  (fitToWidth Extended_Pictographic graphemeSegmenter).
Local Abbreviation padToWidth :=
  (padToWidth Extended_Pictographic graphemeSegmenter).
Local Abbreviation cellWidthOf :=
  (cellWidthOf Extended_Pictographic graphemeSegmenter).
Local Abbreviation emojisOf := (emojisOf getThemeEmojis_github).
Local Abbreviation bgEmojiOf := (bgEmojiOf getBackgroundEmoji).
Local Abbreviation widthStep := (widthStep Extended_Pictographic).
Local Abbreviation selectable := (selectable getThemeEmojis_github).
Local Abbreviation calculateGitHubIntensity :=
  (calculateGitHubIntensity Math_sin Math_cos).
Local Abbreviation renderCell :=
  (renderCell Extended_Pictographic graphemeSegmenter getBackgroundEmoji
     getThemeEmojis_github Math_sin Math_cos).
Local Abbreviation renderCols :=
  (renderCols Extended_Pictographic graphemeSegmenter getBackgroundEmoji
     getThemeEmojis_github Math_sin Math_cos).
Local Abbreviation renderRows :=
  (renderRows Extended_Pictographic graphemeSegmenter getBackgroundEmoji
     getThemeEmojis_github Math_sin Math_cos).
Local Abbreviation renderLines :=
  (renderLines Extended_Pictographic graphemeSegmenter getBackgroundEmoji
     getThemeEmojis_github Math_sin Math_cos).
Local Abbreviation renderBitmap :=
  (renderBitmap Extended_Pictographic graphemeSegmenter getBackgroundEmoji
     getThemeEmojis_github Math_sin Math_cos).

(** ** The intensity of the GitHub theme *)

(** X10. The level is one of 1 to 4, never the background level 0, and
    computing it advances the generator by one step. *)
Theorem calculateGitHubIntensity_level (row col totalRows totalCols : Z)
    (random : SeededRandom) :
  1 <= fst (calculateGitHubIntensity row col totalRows totalCols random) <= 4
  /\ snd (calculateGitHubIntensity row col totalRows totalCols random)
     = {| seed := next_seed (seed random) |}.
Proof.
  split; [apply calculateGitHubIntensity_range|].
  unfold Renderer.calculateGitHubIntensity, next. done.
Qed.

(** ** Loops whose cells do not touch the generator *)

Lemma renderCols_stateless (config : RenderConfig) (bitmap : Bitmap)
    (height width row : nat) (cellText : nat -> jsstring) (cols : list nat) :
  forall (line : jsstring) (random : SeededRandom),
    (forall col random0, col ∈ cols ->
       renderCell config bitmap height width row col random0
       = Some (cellText col, random0)) ->
    renderCols config bitmap height width row cols line random
    = Some (line ++ concat (cellText <$> cols), random).
Proof.
  induction cols as [|col cols IH]; intros line random Hcell; simpl.
  - by rewrite app_nil_r.
  - rewrite Hcell by by left. rewrite IH.
    + by rewrite <- app_assoc.
    + intros col' random0 Hin. apply Hcell. by right.
Qed.

Lemma renderRows_stateless (config : RenderConfig) (bitmap : Bitmap)
    (height width : nat) (cellText : nat -> nat -> jsstring) (rows : list nat) :
  forall (lines : list jsstring) (random : SeededRandom),
    (forall row col random0, row ∈ rows -> col ∈ seq 0 width ->
       renderCell config bitmap height width row col random0
       = Some (cellText row col, random0)) ->
    renderRows config bitmap height width rows lines random
    = Some (lines ++ ((fun row => concat (cellText row <$> seq 0 width)) <$> rows),
            random).
Proof.
  induction rows as [|row rows IH]; intros lines random Hcell; simpl.
  - by rewrite app_nil_r.
  - rewrite (renderCols_stateless config bitmap height width row (cellText row)).
    + simpl. rewrite IH.
      * by rewrite <- app_assoc.
      * intros row' col random0 Hrow Hcol. apply Hcell; [by right|done].
    + intros col random0 Hcol. apply Hcell; [by left|done].
Qed.

Lemma fmap_seq_const {A : Type} (x : A) (start n : nat) :
  (fun _ => x) <$> seq start n = replicate n x.
Proof.
  revert start. induction n as [|n IH]; intros start; [done|].
  simpl. by rewrite IH.
Qed.

Lemma fitToWidth_fits (glyph : jsstring) (cellWidth : Z) :
  getDisplayWidth glyph <= cellWidth ->
  fitToWidth glyph cellWidth
  = glyph ++ replicate (Z.to_nat (cellWidth - getDisplayWidth glyph)) SPACE.
Proof.
  intros Hle. unfold Renderer.fitToWidth.
  destruct (Z.eqb_spec (getDisplayWidth glyph) cellWidth) as [Heq|Hne].
  - rewrite Heq, Z.sub_diag. simpl. by rewrite app_nil_r.
  - destruct (Z.ltb_spec (getDisplayWidth glyph) cellWidth) as [_|?]; [|lia].
    apply padToWidth_spec.
Qed.

(** ** One candidate *)

Lemma renderLines_single (host : Host) (bitmap : Bitmap)
    (config : RenderConfig) (emoji : jsstring) (mode' : EmojiMode) :
  theme config = theme_default ->
  foregroundEmojis config = [emoji] ->
  let cellWidth := Z.max (getDisplayWidth emoji) 2 in
  let width := match bitmap with [] => 0%nat | row0 :: _ => length row0 end in
  renderLines host bitmap (with_mode config mode')
  = Some ((fun row =>
             concat ((fun col =>
                        if isForegroundAt bitmap row col
                        then emoji ++ replicate
                                        (Z.to_nat (cellWidth - getDisplayWidth emoji))
                                        SPACE
                        else fitToWidth (bgEmojiOf config) cellWidth)
                       <$> seq 0 width))
            <$> seq 0 (length bitmap)).
Proof.
  intros Htheme Hfg cellWidth width.
  unfold Renderer.renderLines. fold width.
  rewrite (renderRows_stateless _ _ _ _
             (fun row col =>
                if isForegroundAt bitmap row col
                then emoji ++ replicate
                                (Z.to_nat (cellWidth - getDisplayWidth emoji)) SPACE
                else fitToWidth (bgEmojiOf config) cellWidth)); [done|].
  intros row col random0 _ _. unfold Renderer.renderCell, Renderer.emojisOf.
  simpl theme. rewrite Htheme. simpl foregroundEmojis. rewrite Hfg.
  change (cellWidthOf [emoji]) with cellWidth.
  unfold isForegroundAt.
  destruct (default false (bitmap !! row ≫= (.!! col))); [|done].
  unfold selectEmoji. simpl. rewrite fitToWidth_fits by lia. done.
Qed.

Lemma with_mode_same (config : RenderConfig) :
  with_mode config (mode config) = config.
Proof. by destruct config. Qed.

(** X11. With exactly one candidate and no theme, every foreground cell is
    that emoji, padded to the cell width and never replaced by blanks, every
    other cell is the fitted background, and the mode does not matter. *)
Theorem renderBitmap_single_candidate (host : Host) (bitmap : Bitmap)
    (config : RenderConfig) (emoji : jsstring) :
  theme config = theme_default ->
  foregroundEmojis config = [emoji] ->
  let cellWidth := Z.max (getDisplayWidth emoji) 2 in
  let width := match bitmap with [] => 0%nat | row0 :: _ => length row0 end in
  renderLines host bitmap config
  = Some ((fun row =>
             concat ((fun col =>
                        if isForegroundAt bitmap row col
                        then emoji ++ replicate
                                        (Z.to_nat (cellWidth - getDisplayWidth emoji))
                                        SPACE
                        else fitToWidth (bgEmojiOf config) cellWidth)
                       <$> seq 0 width))
            <$> seq 0 (length bitmap))
  /\ forall mode',
       renderBitmap host bitmap (with_mode config mode')
       = renderBitmap host bitmap config.
Proof.
  intros Htheme Hfg cellWidth width. split.
  - rewrite <- (with_mode_same config) at 1. by apply renderLines_single.
  - intros mode'. unfold Renderer.renderBitmap.
    rewrite (renderLines_single host bitmap config emoji mode') by done.
    pose proof (renderLines_single host bitmap config emoji (mode config)
                  Htheme Hfg) as Hsame.
    rewrite with_mode_same in Hsame. rewrite Hsame. done.
Qed.

(** ** The custom renderer *)

Lemma imap_lookup_seq {A B : Type} (f : nat -> A -> B) (d : A) (l : list A) :
  imap f l = (fun i => f i (default d (l !! i))) <$> seq 0 (length l).
Proof.
  apply list_eq. intros i.
  rewrite list_lookup_imap, list_lookup_fmap.
  destruct (l !! i) as [x|] eqn:Hi; simpl.
  - rewrite lookup_seq_lt by (by eapply lookup_lt_Some). simpl. by rewrite Hi.
  - rewrite lookup_seq_ge; [done|]. by apply lookup_ge_None.
Qed.

(** X12. On a rectangular bitmap, [renderBitmapCustom] with the selector that
    fits the single candidate or the background into the cell gives the text
    of [renderBitmap]. *)
Theorem renderBitmapCustom_single_candidate (host : Host) (bitmap : Bitmap)
    (config : RenderConfig) (emoji : jsstring) :
  theme config = theme_default ->
  foregroundEmojis config = [emoji] ->
  Bitmap.validateBitmap bitmap = true ->
  let cellWidth := Z.max (getDisplayWidth emoji) 2 in
  BannerResult.text <$> renderBitmap host bitmap config
  = Some (renderBitmapCustom bitmap
            (fun _ _ isForeground =>
               if isForeground then fitToWidth emoji cellWidth
               else fitToWidth (bgEmojiOf config) cellWidth)).
Proof.
  intros Htheme Hfg Hvalid cellWidth.
  unfold Renderer.renderBitmap.
  pose proof (renderLines_single host bitmap config emoji (mode config)
                Htheme Hfg) as Hsame.
  rewrite with_mode_same in Hsame. rewrite Hsame.
  simpl. f_equal. unfold renderBitmapCustom. f_equal.
  rewrite (imap_lookup_seq _ []).
  apply list_fmap_ext. intros row ? [-> Hrow]%lookup_seq. simpl.
  destruct (bitmap !! row) as [cells|] eqn:Hcells;
    [|apply lookup_ge_None in Hcells; lia].
  simpl. f_equal. rewrite (imap_lookup_seq _ false).
  assert (Hlen : length cells
                 = match bitmap with [] => 0%nat | row0 :: _ => length row0 end).
  { destruct bitmap as [|row0 rest]; [done|].
    unfold Bitmap.validateBitmap in Hvalid.
    rewrite forallb_forall in Hvalid.
    apply Nat.eqb_eq, Hvalid, list_elem_of_In. by eapply list_elem_of_lookup_2. }
  rewrite Hlen. apply list_fmap_ext. intros j col _.
  unfold isForegroundAt. rewrite Hcells. simpl.
  destruct (default false (cells !! col)); [|done].
  fold cellWidth. rewrite fitToWidth_fits by (subst cellWidth; lia). done.
Qed.

(** ** Bitmaps without foreground *)

(** X13. A bitmap without a foreground cell renders for every configuration,
    with or without candidates: every line is the fitted background, once per
    column. *)
Theorem renderBitmap_all_background (host : Host) (bitmap : Bitmap)
    (config : RenderConfig) :
  let width := match bitmap with [] => 0%nat | row0 :: _ => length row0 end in
  (forall row col, (row < length bitmap)%nat -> (col < width)%nat ->
     isForegroundAt bitmap row col = false) ->
  renderLines host bitmap config
  = Some (replicate (length bitmap)
            (concat (replicate width
                       (fitToWidth (bgEmojiOf config)
                          (cellWidthOf (emojisOf config)))))).
Proof.
  intros width Hbg. unfold Renderer.renderLines. fold width.
  rewrite (renderRows_stateless _ _ _ _
             (fun _ _ => fitToWidth (bgEmojiOf config)
                           (cellWidthOf (emojisOf config)))).
  - simpl. by rewrite !fmap_seq_const.
  - intros row col random0 Hrow Hcol.
    apply elem_of_seq in Hrow, Hcol.
    unfold Renderer.renderCell.
    change (default false (bitmap !! row ≫= (.!! col)))
      with (isForegroundAt bitmap row col).
    by rewrite Hbg by lia.
Qed.

(** ** No candidates *)

Lemma renderCell_no_candidates (config : RenderConfig) (bitmap : Bitmap)
    (height width row col : nat) (random : SeededRandom) :
  theme config = theme_default ->
  foregroundEmojis config = [] ->
  renderCell config bitmap height width row col random
  = if isForegroundAt bitmap row col then None
    else Some (fitToWidth (bgEmojiOf config) 2, random).
Proof.
  intros Htheme Hfg. unfold Renderer.renderCell, Renderer.emojisOf.
  rewrite Htheme, Hfg. change (cellWidthOf []) with 2.
  unfold isForegroundAt.
  destruct (default false (bitmap !! row ≫= (.!! col))); [|done].
  pose proof (selectEmoji_no_candidate (Z.of_nat row) (Z.of_nat col)
                (Z.of_nat height) (Z.of_nat width) (mode config) random) as Hsel.
  destruct (selectEmoji [] _ _ _ _ _ _) as [rawEmoji random'].
  simpl in Hsel. by rewrite Hsel.
Qed.

Lemma renderCols_no_candidates (config : RenderConfig) (bitmap : Bitmap)
    (height width row : nat) (cols : list nat) :
  theme config = theme_default ->
  foregroundEmojis config = [] ->
  forall line random,
    renderCols config bitmap height width row cols line random
    = if existsb (isForegroundAt bitmap row) cols then None
      else Some (line ++ concat ((fun _ => fitToWidth (bgEmojiOf config) 2)
                                   <$> cols),
                 random).
Proof.
  intros Htheme Hfg. induction cols as [|col cols IH]; intros line random.
  - simpl. by rewrite app_nil_r.
  - cbn [Renderer.renderCols existsb].
    rewrite renderCell_no_candidates by done.
    destruct (isForegroundAt bitmap row col); [done|].
    cbn [orb]. rewrite IH. destruct (existsb _ cols); [done|].
    rewrite fmap_cons. simpl concat. by rewrite (assoc (++)).
Qed.

Lemma renderRows_no_candidates (config : RenderConfig) (bitmap : Bitmap)
    (height width : nat) (rows : list nat) :
  theme config = theme_default ->
  foregroundEmojis config = [] ->
  forall lines random,
    renderRows config bitmap height width rows lines random = None
    <-> exists row col, row ∈ rows /\ col ∈ seq 0 width
                        /\ isForegroundAt bitmap row col = true.
Proof.
  intros Htheme Hfg. induction rows as [|row rows IH]; intros lines random.
  - simpl. split; [done|]. intros (row & col & Hrow & _). by apply elem_of_nil in Hrow.
  - cbn [Renderer.renderRows]. rewrite renderCols_no_candidates by done.
    destruct (existsb (isForegroundAt bitmap row) (seq 0 width)) eqn:Hex.
    + split; [intros _|done].
      apply existsb_exists in Hex as (col & Hcol & Hfgc).
      exists row, col. split; [left|]. split; [|done].
      by apply list_elem_of_In.
    + rewrite IH. split.
      * intros (row' & col & Hrow & Hcol & Hfgc).
        exists row', col. split; [by right|done].
      * intros (row' & col & Hrow & Hcol & Hfgc).
        apply elem_of_cons in Hrow as [->|Hrow].
        -- assert (existsb (isForegroundAt bitmap row) (seq 0 width) = true)
             as Hyes; [|congruence].
           apply existsb_exists. exists col. split; [|done].
           by apply list_elem_of_In.
        -- by exists row', col.
Qed.

(** X14. Without a candidate and without a theme, rendering throws exactly
    when the loop meets a foreground cell. *)
Theorem renderBitmap_no_candidates (host : Host) (bitmap : Bitmap)
    (config : RenderConfig) :
  theme config = theme_default ->
  foregroundEmojis config = [] ->
  let width := match bitmap with [] => 0%nat | row0 :: _ => length row0 end in
  renderBitmap host bitmap config = None
  <-> exists row col, (row < length bitmap)%nat /\ (col < width)%nat
                      /\ isForegroundAt bitmap row col = true.
Proof.
  intros Htheme Hfg width.
  transitivity (renderRows config bitmap (length bitmap) width
                  (seq 0 (length bitmap)) [] (new_SeededRandom host (Some 42))
                = None).
  - unfold Renderer.renderBitmap, Renderer.renderLines. fold width.
    destruct (renderRows _ _ _ _ _ _ _) as [[lines random']|]; simpl; split; done.
  - rewrite renderRows_no_candidates by done. split.
    + intros (row & col & Hrow & Hcol & Hfgc). exists row, col.
      apply elem_of_seq in Hrow, Hcol. split; [lia|]. split; [lia|done].
    + intros (row & col & Hrow & Hcol & Hfgc). exists row, col.
      split; [apply elem_of_seq; lia|]. split; [apply elem_of_seq; lia|done].
Qed.

(** ** How far the generator advances *)

Lemma renderCell_seed (config : RenderConfig) (bitmap : Bitmap)
    (height width row col : nat) (random random' : SeededRandom)
    (cell : jsstring) :
  renderCell config bitmap height width row col random = Some (cell, random') ->
  seed random'
  = Nat.iter (if isForegroundAt bitmap row col
              then drawsPerCell (emojisOf config) config else 0%nat)
      next_seed (seed random).
Proof.
  unfold Renderer.renderCell, isForegroundAt, drawsPerCell.
  destruct (default false (bitmap !! row ≫= (.!! col))).
  2:{ intros [= _ <-]. done. }
  destruct (theme config) eqn:Htheme.
  - pose proof (selectEmoji_generator (emojisOf config) (Z.of_nat row)
                  (Z.of_nat col) (Z.of_nat height) (Z.of_nat width) (mode config)
                  random) as Hsnd.
    destruct (selectEmoji _ _ _ _ _ _ _) as [rawEmoji random''].
    simpl in Hsnd. destruct rawEmoji; [|done]. intros [= _ <-].
    rewrite Hsnd. destruct (mode config); try done.
    destruct (Z.eqb_spec (Z.of_nat (length (emojisOf config))) 1) as [Heq|Hne];
      destruct (Nat.eqb_spec (length (emojisOf config)) 1) as [Heq'|Hne'];
      try lia; done.
  - destruct (calculateGitHubIntensity _ _ _ _ _) as [level random''] eqn:Hcalc.
    destruct (at_index _ _); [|done]. intros [= _ <-].
    unfold Renderer.calculateGitHubIntensity, next in Hcalc.
    injection Hcalc as _ <-. done.
Qed.

Lemma iter_next_seed_add (n m : nat) (s : Z) :
  Nat.iter m next_seed (Nat.iter n next_seed s) = Nat.iter (n + m) next_seed s.
Proof. by rewrite Nat.add_comm, Nat.iter_add. Qed.

Lemma renderCols_seed (config : RenderConfig) (bitmap : Bitmap)
    (height width row : nat) (cols : list nat) :
  forall line random line' random',
    renderCols config bitmap height width row cols line random
    = Some (line', random') ->
    seed random'
    = Nat.iter (drawsPerCell (emojisOf config) config
                * length (filter (fun col => isForegroundAt bitmap row col) cols))
        next_seed (seed random).
Proof.
  induction cols as [|col cols IH]; intros line random line' random'.
  - intros [= _ <-]. by rewrite Nat.mul_0_r.
  - cbn [Renderer.renderCols].
    destruct (renderCell _ _ _ _ _ _ _) as [[cell random1]|] eqn:Hcell; [|done].
    intros Hrest. apply IH in Hrest. apply renderCell_seed in Hcell.
    rewrite Hrest, Hcell, iter_next_seed_add. f_equal.
    rewrite filter_cons. destruct (isForegroundAt bitmap row col).
    + rewrite decide_True by done. simpl length. lia.
    + rewrite decide_False by (intros []). lia.
Qed.

Lemma renderRows_seed (config : RenderConfig) (bitmap : Bitmap)
    (height width : nat) (rows : list nat) :
  forall lines random lines' random',
    renderRows config bitmap height width rows lines random
    = Some (lines', random') ->
    seed random'
    = Nat.iter (drawsPerCell (emojisOf config) config
                * sum_list ((fun row =>
                               length (filter (fun col => isForegroundAt bitmap row col)
                                         (seq 0 width))) <$> rows))
        next_seed (seed random).
Proof.
  induction rows as [|row rows IH]; intros lines random lines' random'.
  - intros [= _ <-]. by rewrite Nat.mul_0_r.
  - cbn [Renderer.renderRows].
    destruct (renderCols _ _ _ _ _ _ _ _) as [[line random1]|] eqn:Hcols; [|done].
    intros Hrest. apply IH in Hrest. apply renderCols_seed in Hcols.
    rewrite Hrest, Hcols, iter_next_seed_add. f_equal.
    rewrite fmap_cons. simpl sum_list. lia.
Qed.

(** X15. A render with a selectable configuration succeeds and leaves the
    generator where [drawsPerCell] steps per visited foreground cell take it
    from the seed 42: background cells never draw, and a foreground cell draws
    exactly once under the GitHub theme or in mode [random] with two or more
    candidates. *)
Theorem renderBitmap_generator_steps (host : Host) (bitmap : Bitmap)
    (config : RenderConfig) :
  selectable config ->
  let width := match bitmap with [] => 0%nat | row0 :: _ => length row0 end in
  exists lines random',
    renderRows config bitmap (length bitmap) width (seq 0 (length bitmap)) []
      (new_SeededRandom host (Some 42))
    = Some (lines, random')
    /\ renderLines host bitmap config = Some lines
    /\ seed random'
       = Nat.iter (drawsPerCell (emojisOf config) config * visitedForeground bitmap)
           next_seed 42.
Proof.
  intros Hsel width.
  destruct (renderRows_spec Extended_Pictographic graphemeSegmenter
              getBackgroundEmoji getThemeEmojis_github Math_sin Math_cos
              config bitmap (length bitmap) width
              (seq 0 (length bitmap)) Hsel [] (new_SeededRandom host (Some 42)))
    as (cells & random' & Hrows & _).
  eexists _, random'. split; [exact Hrows|]. split.
  - unfold Renderer.renderLines. fold width. by rewrite Hrows.
  - apply renderRows_seed in Hrows. exact Hrows.
Qed.

(** ** Display width and padding *)

Lemma trimStart_whitespace (s : jsstring) :
  forallb is_whitespace s = true -> trimStart s = [].
Proof.
  induction s as [|c s IH]; [done|]. simpl.
  destruct (is_whitespace c); [exact IH|done].
Qed.

Lemma trimStart_app (s t : jsstring) :
  trimStart (s ++ t)
  = if forallb is_whitespace s then trimStart t else trimStart s ++ t.
Proof.
  induction s as [|c s IH]; [done|]. simpl.
  destruct (is_whitespace c); [exact IH|done].
Qed.

Lemma spaces_whitespace (k : nat) :
  forallb is_whitespace (replicate k SPACE) = true.
Proof. induction k as [|k IH]; [done|exact IH]. Qed.

(** Spaces appended to a string do not survive [trim]. *)
Lemma trim_app_spaces (s : jsstring) (k : nat) :
  trim (s ++ replicate k SPACE) = trim s.
Proof.
  unfold trim. rewrite trimStart_app.
  destruct (forallb is_whitespace s) eqn:Hws.
  - rewrite (trimStart_whitespace (replicate k SPACE))
      by apply spaces_whitespace.
    by rewrite (trimStart_whitespace s).
  - rewrite reverse_app, reverse_replicate, trimStart_app, spaces_whitespace.
    done.
Qed.

Lemma isLikelyCustomEmoji_app_spaces (str : jsstring) (k : nat) :
  isLikelyCustomEmoji (str ++ replicate k SPACE) = isLikelyCustomEmoji str.
Proof. unfold Renderer.isLikelyCustomEmoji. by rewrite trim_app_spaces. Qed.

(** X16. An alias-like token measures 2 however many spaces pad it: fitted
    into a cell of width [targetWidth], it is followed by [targetWidth - 2]
    spaces and the result still measures 2. *)
Theorem fitToWidth_alias (str : jsstring) (targetWidth : Z) :
  isLikelyCustomEmoji str = true ->
  2 <= targetWidth ->
  fitToWidth str targetWidth = str ++ replicate (Z.to_nat (targetWidth - 2)) SPACE
  /\ getDisplayWidth (fitToWidth str targetWidth) = 2.
Proof.
  intros Halias Hwidth.
  assert (Hstr : getDisplayWidth str = 2)
    by (unfold Renderer.getDisplayWidth; by rewrite Halias).
  rewrite fitToWidth_fits by lia. rewrite Hstr. split; [done|].
  unfold Renderer.getDisplayWidth.
  by rewrite isLikelyCustomEmoji_app_spaces, Halias.
Qed.

Lemma Array_from_app_spaces (k : nat) :
  forall (n : nat) (s : jsstring),
    (length s <= n)%nat ->
    Array_from (s ++ replicate k SPACE) = Array_from s ++ replicate k [SPACE].
Proof.
  assert (Hspaces : Array_from (replicate k SPACE) = replicate k [SPACE]).
  { rewrite BitmapFacts.Array_from_no_high.
    - induction k as [|k IH]; [done|]. simpl. by rewrite <- IH.
    - apply Forall_replicate. done. }
  induction n as [|n IH]; intros s Hlen.
  - destruct s; [exact Hspaces|simpl in Hlen; lia].
  - destruct s as [|c [|d rest]]; [exact Hspaces| |].
    + destruct k as [|k']; [done|].
      change (([c] ++ replicate (S k') SPACE))
        with (c :: SPACE :: replicate k' SPACE).
      change (Array_from (c :: SPACE :: replicate k' SPACE))
        with (if is_high_surrogate c && is_low_surrogate SPACE
              then [c; SPACE] :: Array_from (replicate k' SPACE)
              else [c] :: Array_from (SPACE :: replicate k' SPACE)).
      change (is_low_surrogate SPACE) with false. rewrite andb_false_r.
      change (SPACE :: replicate k' SPACE) with (replicate (S k') SPACE).
      by rewrite Hspaces.
    + change ((c :: d :: rest) ++ replicate k SPACE)
        with (c :: d :: (rest ++ replicate k SPACE)).
      change (Array_from (c :: d :: (rest ++ replicate k SPACE)))
        with (if is_high_surrogate c && is_low_surrogate d
              then [c; d] :: Array_from (rest ++ replicate k SPACE)
              else [c] :: Array_from (d :: (rest ++ replicate k SPACE))).
      change (Array_from (c :: d :: rest))
        with (if is_high_surrogate c && is_low_surrogate d
              then [c; d] :: Array_from rest
              else [c] :: Array_from (d :: rest)).
      simpl in Hlen.
      destruct (is_high_surrogate c && is_low_surrogate d).
      * rewrite IH by lia. done.
      * change (d :: (rest ++ replicate k SPACE))
          with ((d :: rest) ++ replicate k SPACE).
        rewrite IH by (simpl; lia). done.
Qed.

Lemma widthStep_spaces (k : nat) (width : Z) :
  Extended_Pictographic SPACE = false ->
  foldl widthStep width (replicate k [SPACE]) = width + Z.of_nat k.
Proof.
  intros Hspace. revert width. induction k as [|k IH]; intros width.
  - simpl. lia.
  - cbn [replicate foldl]. rewrite IH.
    unfold RendererExtra.widthStep, EXTENDED_PICTO_REGEX_test. simpl. rewrite Hspace. simpl. lia.
Qed.

Lemma widthStep_bounds (chars : list jsstring) :
  forall width,
    width + Z.of_nat (length chars) <= foldl widthStep width chars
    <= width + 2 * Z.of_nat (length chars).
Proof.
  induction chars as [|char chars IH]; intros width; [simpl; lia|].
  cbn [foldl length]. specialize (IH (widthStep width char)).
  assert (width + 1 <= widthStep width char <= width + 2); [|lia].
  unfold RendererExtra.widthStep. destruct (bool_decide _); [lia|].
  destruct (_ || _); lia.
Qed.

(** X17. An alias-like token measures 2; any other string measures between one
    and two columns for each of its graphemes. *)
Theorem getDisplayWidth_bounds (str : jsstring) :
  if isLikelyCustomEmoji str then getDisplayWidth str = 2
  else Z.of_nat (length (getGraphemes graphemeSegmenter str))
       <= getDisplayWidth str
       <= 2 * Z.of_nat (length (getGraphemes graphemeSegmenter str)).
Proof.
  unfold Renderer.getDisplayWidth.
  destruct (isLikelyCustomEmoji str); [done|].
  apply (widthStep_bounds (getGraphemes graphemeSegmenter str) 0).
Qed.

Lemma getDisplayWidth_app_spaces (str : jsstring) (k : nat) :
  graphemeSegmenter = None ->
  Extended_Pictographic SPACE = false ->
  getDisplayWidth (str ++ replicate k SPACE)
  = if isLikelyCustomEmoji str then 2 else getDisplayWidth str + Z.of_nat k.
Proof.
  intros Hseg Hspace. unfold Renderer.getDisplayWidth.
  rewrite isLikelyCustomEmoji_app_spaces.
  destruct (isLikelyCustomEmoji str); [done|].
  unfold getGraphemes. rewrite Hseg.
  rewrite (Array_from_app_spaces k (length str)) by done.
  rewrite foldl_app. by apply widthStep_spaces.
Qed.

(** X18. On a host without a segmenter, a string that is not an alias-like
    token measures exactly the target width once fitted: padded when narrower,
    replaced by spaces when wider. *)
Theorem fitToWidth_measured (str : jsstring) (targetWidth : Z) :
  graphemeSegmenter = None ->
  Extended_Pictographic SPACE = false ->
  isLikelyCustomEmoji str = false ->
  0 <= targetWidth ->
  getDisplayWidth (fitToWidth str targetWidth) = targetWidth.
Proof.
  intros Hseg Hspace Hplain Hwidth. unfold Renderer.fitToWidth.
  assert (Hnil : getDisplayWidth [] = 0).
  { unfold Renderer.getDisplayWidth, getGraphemes. by rewrite Hseg. }
  destruct (Z.eqb_spec (getDisplayWidth str) targetWidth) as [Heq|Hne]; [done|].
  rewrite !padToWidth_spec.
  destruct (Z.ltb_spec (getDisplayWidth str) targetWidth) as [Hlt|Hge].
  - rewrite getDisplayWidth_app_spaces, Hplain by done. lia.
  - rewrite getDisplayWidth_app_spaces by done.
    change (isLikelyCustomEmoji []) with false. cbv iota. lia.
Qed.

End WithHost.

(** ** Instances on the sample host *)

(** The sample configuration has the single candidate U+1F525. *)
Lemma renderBitmap_single_candidate_witness :
  Renderer.renderBitmap Sample.pictographic None Sample.background Sample.github
    Sample.sin Sample.cos {| Date_now := 0 |} Sample.bitmap_AB
    (with_mode Sample.config mode_column_gradient)
  = Renderer.renderBitmap Sample.pictographic None Sample.background
      Sample.github Sample.sin Sample.cos {| Date_now := 0 |} Sample.bitmap_AB
      Sample.config.
Proof.
  apply (renderBitmap_single_candidate Sample.pictographic None Sample.background
           Sample.github Sample.sin Sample.cos {| Date_now := 0 |}
           Sample.bitmap_AB Sample.config Sample.fire).
  - reflexivity.
  - reflexivity.
Defined.

(** A two by two bitmap, its diagonal foreground. *)
Lemma renderBitmapCustom_single_candidate_witness :
  BannerResult.text
    <$> Renderer.renderBitmap Sample.pictographic None Sample.background
          Sample.github Sample.sin Sample.cos {| Date_now := 0 |}
          [[true; false]; [false; true]] Sample.config
  = Some (Sample.fire ++ [SPACE; SPACE; LF; SPACE; SPACE] ++ Sample.fire).
Proof.
  rewrite (renderBitmapCustom_single_candidate Sample.pictographic None
             Sample.background Sample.github Sample.sin Sample.cos
             {| Date_now := 0 |} [[true; false]; [false; true]] Sample.config
             Sample.fire).
  - reflexivity.
  - reflexivity.
  - reflexivity.
  - reflexivity.
Defined.

(** Two rows of two background cells, and no candidate at all. *)
Lemma renderBitmap_all_background_witness :
  Renderer.renderLines Sample.pictographic None Sample.background Sample.github
    Sample.sin Sample.cos {| Date_now := 0 |} [[false; false]; [false; false]]
    {| foregroundEmojis := []; backgroundEmoji := []; borderEmoji := None;
       mode := mode_row; theme := theme_default |}
  = Some [[SPACE; SPACE; SPACE; SPACE]; [SPACE; SPACE; SPACE; SPACE]].
Proof.
  rewrite (renderBitmap_all_background Sample.pictographic None Sample.background
             Sample.github Sample.sin Sample.cos {| Date_now := 0 |}
             [[false; false]; [false; false]]).
  - reflexivity.
  - intros [|[|row]] [|[|col]] Hrow Hcol; simpl in *; try reflexivity; lia.
Defined.

(** ["AB"] without candidates: the cell at row 0, column 1 is foreground. *)
Lemma renderBitmap_no_candidates_witness :
  Renderer.renderBitmap Sample.pictographic None Sample.background Sample.github
    Sample.sin Sample.cos {| Date_now := 0 |} Sample.bitmap_AB
    {| foregroundEmojis := []; backgroundEmoji := []; borderEmoji := None;
       mode := mode_random; theme := theme_default |}
  = None.
Proof.
  apply (renderBitmap_no_candidates Sample.pictographic None Sample.background
           Sample.github Sample.sin Sample.cos {| Date_now := 0 |}
           Sample.bitmap_AB).
  - reflexivity.
  - reflexivity.
  - exists 0%nat, 1%nat. simpl. split; [lia|]. split; [lia|reflexivity].
Defined.

(** ["AB"] under the GitHub theme: twenty foreground cells, twenty steps. *)
Lemma renderBitmap_generator_steps_witness :
  exists lines random',
    Renderer.renderRows Sample.pictographic None Sample.background Sample.github
      Sample.sin Sample.cos
      {| foregroundEmojis := []; backgroundEmoji := []; borderEmoji := None;
         mode := mode_random; theme := theme_github |}
      Sample.bitmap_AB 5 7 (seq 0 5) [] {| seed := 42 |}
    = Some (lines, random')
    /\ seed random' = Nat.iter 20 next_seed 42.
Proof.
  destruct (renderBitmap_generator_steps Sample.pictographic None
              Sample.background Sample.github Sample.sin Sample.cos
              {| Date_now := 0 |} Sample.bitmap_AB
              {| foregroundEmojis := []; backgroundEmoji := [];
                 borderEmoji := None; mode := mode_random;
                 theme := theme_github |})
    as (lines & random' & Hrows & _ & Hseed).
  - split; [simpl; lia|]. intros _. simpl. lia.
  - exists lines, random'. split; [exact Hrows|exact Hseed].
Defined.

(** The alias [:fire:] in a cell of width 4. *)
Lemma fitToWidth_alias_witness :
  Renderer.fitToWidth Sample.pictographic None
    [58; 102; 105; 114; 101; 58] 4
  = [58; 102; 105; 114; 101; 58; SPACE; SPACE]
  /\ Renderer.getDisplayWidth Sample.pictographic None
       (Renderer.fitToWidth Sample.pictographic None
          [58; 102; 105; 114; 101; 58] 4)
     = 2.
Proof.
  apply (fitToWidth_alias Sample.pictographic None
           [58; 102; 105; 114; 101; 58] 4).
  - reflexivity.
  - lia.
Defined.

(** U+1F525 measures 2 and fills a cell of width 3 with one space. *)
Lemma fitToWidth_measured_witness :
  Renderer.getDisplayWidth Sample.pictographic None
    (Renderer.fitToWidth Sample.pictographic None Sample.fire 3)
  = 3.
Proof.
  apply (fitToWidth_measured Sample.pictographic None Sample.fire 3).
  - reflexivity.
  - reflexivity.
  - reflexivity.
  - lia.
Defined.

End RendererExtraFacts.

(** ** Alignment of the rendered lines *)

Module AlignmentFacts.

Import JS Float Renderer RendererFacts RendererExtra RendererExtraFacts.
Local Open Scope Z_scope.

(** *** Code-point splitting *)

Lemma ends_high_cons (c d : Z) (rest : jsstring) :
  ends_high (c :: d :: rest) = ends_high (d :: rest).
Proof. unfold ends_high. by rewrite last_cons_cons. Qed.

Lemma Array_from_app :
  forall (n : nat) (s t : jsstring),
    (length s <= n)%nat -> ends_high s = false ->
    Array_from (s ++ t) = Array_from s ++ Array_from t.
Proof.
  induction n as [|n IH]; intros s t Hlen Hend.
  - destruct s; [done|simpl in Hlen; lia].
  - destruct s as [|c [|d rest]]; [done| |].
    + unfold ends_high in Hend. simpl in Hend.
      destruct t as [|e t']; [done|].
      change (Array_from ([c] ++ e :: t'))
        with (if is_high_surrogate c && is_low_surrogate e
              then [c; e] :: Array_from t'
              else [c] :: Array_from (e :: t')).
      by rewrite Hend.
    + rewrite ends_high_cons in Hend. simpl in Hlen.
      change (Array_from ((c :: d :: rest) ++ t))
        with (if is_high_surrogate c && is_low_surrogate d
              then [c; d] :: Array_from (rest ++ t)
              else [c] :: Array_from ((d :: rest) ++ t)).
      change (Array_from (c :: d :: rest))
        with (if is_high_surrogate c && is_low_surrogate d
              then [c; d] :: Array_from rest
              else [c] :: Array_from (d :: rest)).
      destruct (is_high_surrogate c && is_low_surrogate d).
      * destruct rest as [|e rest']; [done|].
        rewrite ends_high_cons in Hend.
        rewrite (IH (e :: rest')) by (simpl in *; lia || done). done.
      * rewrite (IH (d :: rest)) by (simpl; lia || done). done.
Qed.

Lemma Array_from_spaces (k : nat) :
  Array_from (replicate k SPACE) = replicate k [SPACE].
Proof.
  rewrite BitmapFacts.Array_from_no_high by (by apply Forall_replicate).
  by rewrite fmap_replicate.
Qed.

Lemma ends_high_spaces (k : nat) : ends_high (replicate k SPACE) = false.
Proof.
  unfold ends_high. destruct (last (replicate k SPACE)) as [c|] eqn:Hlast; [|done].
  apply last_Some_elem_of, elem_of_replicate in Hlast as [-> _]. done.
Qed.

Section WithHost.

Variable Extended_Pictographic : Z -> bool.
Variable graphemeSegmenter : option (jsstring -> list jsstring).
Variable getBackgroundEmoji : jsstring.
Variable getThemeEmojis_github : list jsstring.
Variable Math_sin : Q -> Q.
Variable Math_cos : Q -> Q.

Local Abbreviation getDisplayWidth :=
  (getDisplayWidth Extended_Pictographic graphemeSegmenter).
Local Abbreviation isLikelyCustomEmoji :=
  (isLikelyCustomEmoji Extended_Pictographic).
Local Abbreviation getGraphemes := (getGraphemes graphemeSegmenter).
Local Abbreviation fitToWidth :=
  (fitToWidth Extended_Pictographic graphemeSegmenter).
Local Abbreviation fitted_cell :=
  (fitted_cell Extended_Pictographic graphemeSegmenter).
Local Abbreviation cellWidthOf :=
  (cellWidthOf Extended_Pictographic graphemeSegmenter).
Local Abbreviation emojisOf := (emojisOf getThemeEmojis_github).
Local Abbreviation bgEmojiOf := (bgEmojiOf getBackgroundEmoji).
Local Abbreviation glyph_of := (glyph_of getBackgroundEmoji getThemeEmojis_github).
Local Abbreviation selectable := (selectable getThemeEmojis_github).
Local Abbreviation widthStep := (widthStep Extended_Pictographic).
Local Abbreviation line_of :=
  (line_of Extended_Pictographic graphemeSegmenter getThemeEmojis_github).
Local Abbreviation segmented_by_cell :=
  (segmented_by_cell Extended_Pictographic graphemeSegmenter getBackgroundEmoji
     getThemeEmojis_github).
Local Abbreviation renderRows :=
  (renderRows Extended_Pictographic graphemeSegmenter getBackgroundEmoji
     getThemeEmojis_github Math_sin Math_cos).
Local Abbreviation renderLines :=
  (renderLines Extended_Pictographic graphemeSegmenter getBackgroundEmoji
     getThemeEmojis_github Math_sin Math_cos).
Local Abbreviation renderBitmap :=
  (renderBitmap Extended_Pictographic graphemeSegmenter getBackgroundEmoji
     getThemeEmojis_github Math_sin Math_cos).

Lemma getGraphemes_code_points (s : jsstring) :
  graphemeSegmenter = None -> getGraphemes s = Array_from s.
Proof. intros Hseg. unfold Renderer.getGraphemes. by rewrite Hseg. Qed.

(** Without a segmenter a line is segmented cell by cell as soon as no
    glyph ends in a high surrogate. *)
Lemma segmented_by_code_point (config : RenderConfig) :
  graphemeSegmenter = None ->
  (forall glyph, glyph_of config glyph -> ends_high glyph = false) ->
  segmented_by_cell config.
Proof.
  intros Hseg Hends k glyphs Hglyphs rest. split.
  - subst rest. rewrite !getGraphemes_code_points by done.
    rewrite (Array_from_app k);
      [|rewrite length_replicate; lia|apply ends_high_spaces].
    by rewrite Array_from_spaces.
  - intros glyph Hglyph. rewrite !getGraphemes_code_points by done.
    apply (Array_from_app (length glyph)); [done|]. by apply Hends.
Qed.

(** *** Lines that are not taken for an alias *)

Lemma plain_glyph_spec (glyph : jsstring) :
  plain_glyph glyph = true -> blank_or_marked glyph.
Proof.
  unfold plain_glyph. intros [Hblank|Hmark]%orb_true_iff; [by left|right].
  apply existsb_exists in Hmark as (c & Hin & Hc).
  exists c. split; [by apply list_elem_of_In|done].
Qed.

Lemma trimStart_keeps (s : jsstring) (c : Z) :
  c ∈ s -> is_whitespace c = false -> c ∈ trimStart s.
Proof.
  intros Hin Hc. induction s as [|d s IH]; [done|]. simpl.
  destruct (is_whitespace d) eqn:Hd; [|done].
  apply elem_of_cons in Hin as [->|Hin]; [congruence|by apply IH].
Qed.

Lemma trim_keeps (s : jsstring) (c : Z) :
  c ∈ s -> is_whitespace c = false -> c ∈ trim s.
Proof.
  intros Hin Hc. unfold trim.
  apply elem_of_reverse, trimStart_keeps; [|done].
  by apply elem_of_reverse, trimStart_keeps.
Qed.

Lemma strip_colon_keeps (s : jsstring) (c : Z) :
  c ∈ s -> c <> 58 -> c ∈ strip_colon s.
Proof.
  intros Hin Hc. destruct s as [|d s]; [done|]. simpl.
  destruct (Z.eqb_spec d 58) as [->|_]; [|done].
  by apply elem_of_cons in Hin as [?|Hin].
Qed.

Lemma blank_or_marked_not_alias (s : jsstring) :
  blank_or_marked s -> isLikelyCustomEmoji s = false.
Proof.
  unfold Renderer.isLikelyCustomEmoji. intros [Hblank|(c & Hin & Hc)].
  - unfold trim. by rewrite (trimStart_whitespace s Hblank).
  - unfold outside_alias in Hc.
    apply andb_true_iff in Hc as [[Hws Halias]%andb_true_iff Hcolon].
    apply negb_true_iff in Hws, Halias, Hcolon. apply Z.eqb_neq in Hcolon.
    destruct (length (trim s) =? 0)%nat; [done|].
    destruct (_ || _); [done|].
    assert (Hbody : c ∈ reverse (strip_colon (reverse (strip_colon (trim s))))).
    { apply elem_of_reverse, strip_colon_keeps; [|done].
      apply elem_of_reverse, strip_colon_keeps; [|done].
      by apply trim_keeps. }
    unfold ALIAS_REGEX_test.
    replace (forallb is_alias_char _) with false; [by rewrite andb_false_r|].
    symmetry. apply not_true_iff_false. intros Hall.
    rewrite forallb_forall in Hall. apply list_elem_of_In in Hbody.
    apply Hall in Hbody. congruence.
Qed.

Lemma blank_or_marked_app (s t : jsstring) :
  blank_or_marked s -> blank_or_marked t -> blank_or_marked (s ++ t).
Proof.
  intros [Hs|(c & Hin & Hc)] Ht.
  - destruct Ht as [Ht|(c & Hin & Hc)].
    + left. rewrite forallb_app. by rewrite Hs, Ht.
    + right. exists c. split; [|done]. apply elem_of_app. by right.
  - right. exists c. split; [|done]. apply elem_of_app. by left.
Qed.

Lemma blank_or_marked_spaces (k : nat) : blank_or_marked (replicate k SPACE).
Proof. left. apply spaces_whitespace. Qed.

(** *** The width of a line *)

Lemma widthStep_shift (chars : list jsstring) :
  forall width,
    foldl widthStep width chars = width + foldl widthStep 0 chars.
Proof.
  induction chars as [|char chars IH]; intros width; [simpl; lia|].
  cbn [foldl]. rewrite IH, (IH (widthStep 0 char)).
  assert (widthStep width char = width + widthStep 0 char); [|lia].
  unfold RendererExtra.widthStep. destruct (bool_decide _); [lia|].
  destruct (_ || _); lia.
Qed.

Lemma getDisplayWidth_graphemes (s : jsstring) :
  isLikelyCustomEmoji s = false ->
  getDisplayWidth s = foldl widthStep 0 (getGraphemes s).
Proof. intros Hplain. unfold Renderer.getDisplayWidth. by rewrite Hplain. Qed.

Section Aligned.

Variable config : RenderConfig.

Hypothesis segment_empty :
  forall segment, graphemeSegmenter = Some segment -> segment [] = [].
Hypothesis space_not_pictographic : Extended_Pictographic SPACE = false.
Hypothesis glyphs_plain :
  forall glyph, glyph_of config glyph -> plain_glyph glyph = true.
Hypothesis cells_apart : segmented_by_cell config.

Local Abbreviation cellWidth := (cellWidthOf (emojisOf config)).

Lemma getGraphemes_nil : getGraphemes [] = [].
Proof.
  unfold Renderer.getGraphemes.
  destruct graphemeSegmenter as [segment|] eqn:Hseg; [|done].
  by apply segment_empty.
Qed.

Lemma line_of_cons (glyph : jsstring) (glyphs : list jsstring) :
  line_of config (glyph :: glyphs)
  = fitted_cell glyph cellWidth ++ line_of config glyphs.
Proof.
  unfold Renderer.line_of. rewrite fmap_cons. simpl concat.
  by rewrite (fitToWidth_spec Extended_Pictographic graphemeSegmenter
                segment_empty).
Qed.

Lemma line_of_marked (glyphs : list jsstring) :
  Forall (glyph_of config) glyphs -> blank_or_marked (line_of config glyphs).
Proof.
  induction 1 as [|glyph glyphs Hglyph _ IH]; [by left|].
  rewrite line_of_cons. apply blank_or_marked_app; [|done].
  unfold Renderer.fitted_cell. destruct (_ <? _).
  - apply blank_or_marked_spaces.
  - apply blank_or_marked_app; [|apply blank_or_marked_spaces].
    by apply plain_glyph_spec, glyphs_plain.
Qed.

Lemma line_of_graphemes (glyphs : list jsstring) :
  Forall (glyph_of config) glyphs ->
  foldl widthStep 0 (getGraphemes (line_of config glyphs))
  = Z.of_nat (length glyphs) * cellWidth.
Proof.
  pose proof (cellWidthOf_spec Extended_Pictographic graphemeSegmenter
                (emojisOf config)) as (Hcw & _).
  induction 1 as [|glyph glyphs Hglyph Hglyphs IH].
  { change (line_of config []) with ([] : jsstring).
    by rewrite getGraphemes_nil. }
  rewrite line_of_cons. unfold Renderer.fitted_cell.
  destruct (Z.ltb_spec cellWidth (getDisplayWidth glyph)) as [Hwide|Hfits].
  - destruct (cells_apart (Z.to_nat cellWidth) glyphs Hglyphs) as [-> _].
    rewrite foldl_app, widthStep_spaces by done.
    rewrite widthStep_shift, IH. simpl length. lia.
  - rewrite <- (assoc (++)).
    destruct (cells_apart (Z.to_nat (cellWidth - getDisplayWidth glyph)) glyphs
                Hglyphs) as [Hspaces Hglyph'].
    rewrite (Hglyph' glyph Hglyph), Hspaces.
    rewrite !foldl_app.
    rewrite <- getDisplayWidth_graphemes
      by (by apply blank_or_marked_not_alias, plain_glyph_spec, glyphs_plain).
    rewrite widthStep_spaces by done.
    rewrite widthStep_shift, IH. simpl length. lia.
Qed.

(** Under the hypotheses of the section a line measures its number of cells
    times the cell width. *)
Lemma line_of_width (glyphs : list jsstring) :
  Forall (glyph_of config) glyphs ->
  getDisplayWidth (line_of config glyphs)
  = Z.of_nat (length glyphs) * cellWidth.
Proof.
  intros Hglyphs.
  rewrite getDisplayWidth_graphemes
    by (by apply blank_or_marked_not_alias, line_of_marked).
  by apply line_of_graphemes.
Qed.

End Aligned.

(** C2, as the code has it. With a non-empty candidate set the render
    succeeds and every line is made of as many cells as the bitmap has
    columns, each the background or a candidate fitted to [cellWidth], the
    largest of the candidates' widths and 2: [cellWidth] spaces for a glyph
    wider than the cell, the glyph and the missing spaces otherwise. As
    [getDisplayWidth] measures the rendered text, every cell then has the
    width [cellWidth] and every line the width columns times [cellWidth]
    when every glyph is blank or holds a character that no alias holds, and
    the host segments a line cell by cell. *)
Theorem renderBitmap_width_alignment (host : Host) (bitmap : Bitmap)
    (config : RenderConfig) :
  let emojis := emojisOf config in
  let cellWidth := cellWidthOf emojis in
  let columns := match bitmap with [] => 0%nat | row0 :: _ => length row0 end in
  (forall segment, graphemeSegmenter = Some segment -> segment [] = []) ->
  foregroundEmojis config <> [] ->
  Z.of_nat (length emojis) < 2 ^ 32 ->
  (theme config = theme_github -> (5 <= length emojis)%nat) ->
  (2 <= cellWidth
   /\ (forall emoji, emoji ∈ emojis -> getDisplayWidth emoji <= cellWidth)
   /\ (cellWidth = 2
       \/ exists emoji, emoji ∈ emojis /\ getDisplayWidth emoji = cellWidth))
  /\ (forall glyph, fitToWidth glyph cellWidth = fitted_cell glyph cellWidth)
  /\ exists result cells,
       renderBitmap host bitmap config = Some result
       /\ renderLines host bitmap config = Some (line_of config <$> cells)
       /\ BannerResult.text result = join [LF] (line_of config <$> cells)
       /\ length cells = length bitmap
       /\ Forall (fun glyphs =>
                    length glyphs = columns /\ Forall (glyph_of config) glyphs)
            cells
       /\ (Extended_Pictographic SPACE = false ->
           (forall glyph, glyph_of config glyph -> plain_glyph glyph = true) ->
           segmented_by_cell config ->
           (forall glyph,
              glyph_of config glyph ->
              getDisplayWidth (fitToWidth glyph cellWidth) = cellWidth)
           /\ Forall (fun glyphs =>
                        getDisplayWidth (line_of config glyphs)
                        = Z.of_nat columns * cellWidth) cells).
Proof.
  intros emojis cellWidth columns Hempty Hfg Hlen Hgithub.
  pose proof (cellWidthOf_spec Extended_Pictographic graphemeSegmenter emojis)
    as Hcw. fold cellWidth in Hcw.
  assert (Hsel : selectable config).
  { split; [|done]. fold emojis. split; [|done].
    unfold emojis, Renderer.emojisOf in *. destruct (theme config).
    - destruct (foregroundEmojis config); [done|simpl; lia].
    - specialize (Hgithub eq_refl). lia. }
  split; [done|]. split.
  { intros glyph. by apply fitToWidth_spec. }
  destruct (renderRows_spec Extended_Pictographic graphemeSegmenter
              getBackgroundEmoji getThemeEmojis_github Math_sin Math_cos
              config bitmap (length bitmap) columns
              (seq 0 (length bitmap)) Hsel [] (new_SeededRandom host (Some 42)))
    as (cells & random' & Hrows & Hcells & Hall).
  rewrite length_seq in Hcells. simpl in Hrows.
  assert (Hlines : renderLines host bitmap config
                   = Some (line_of config <$> cells)).
  { unfold Renderer.renderLines. fold columns. by rewrite Hrows. }
  eexists _, cells. unfold Renderer.renderBitmap. rewrite Hlines.
  split; [done|]. split; [done|]. split; [done|]. split; [done|].
  split; [done|].
  intros Hspace Hplain Happart. split.
  - intros glyph Hglyph.
    pose proof (line_of_width config Hempty Hspace Hplain Happart [glyph])
      as Hone.
    unfold Renderer.line_of in Hone. simpl in Hone.
    rewrite app_nil_r in Hone. unfold cellWidth, emojis.
    rewrite Hone by (constructor; [exact Hglyph|constructor]). lia.
  - eapply Forall_impl; [exact Hall|]. intros glyphs [Hcount Hglyphs].
    rewrite (line_of_width config Hempty Hspace Hplain Happart glyphs Hglyphs).
    by rewrite Hcount.
Qed.

End WithHost.

(** C2, as stated, fails where a glyph is taken for an alias. The candidate
    U+65E5 U+672C measures 4, so cells are 4 wide; the background [x] counts
    as an alias of width 2 and gets two spaces. The two lines of a bitmap of
    two columns then measure 7 and 6, neither of them 2 times 4. *)
Lemma renderBitmap_alias_misaligned :
  let config :=
    {| foregroundEmojis := [[0x65E5; 0x672C]];
       backgroundEmoji := [120];
       borderEmoji := None;
       mode := mode_random;
       theme := theme_default |} in
  let bitmap := [[true; false]; [false; false]] in
  let getDisplayWidth := Renderer.getDisplayWidth Sample.pictographic None in
  Renderer.cellWidthOf Sample.pictographic None (foregroundEmojis config) = 4
  /\ Renderer.renderLines Sample.pictographic None Sample.background
       Sample.github Sample.sin Sample.cos {| Date_now := 0 |} bitmap config
     = Some [[0x65E5; 0x672C; 120; SPACE; SPACE];
             [120; SPACE; SPACE; 120; SPACE; SPACE]]
  /\ getDisplayWidth [0x65E5; 0x672C; 120; SPACE; SPACE] = 7
  /\ getDisplayWidth [120; SPACE; SPACE; 120; SPACE; SPACE] = 6.
Proof. repeat split; vm_compute; reflexivity. Qed.

(** ["AB"] in the sample font, the candidate U+1F525 and the default
    background of two spaces: five lines of seven cells, each line 14
    wide. *)
Lemma renderBitmap_width_alignment_witness :
  exists lines,
    Renderer.renderLines Sample.pictographic None Sample.background
      Sample.github Sample.sin Sample.cos {| Date_now := 0 |} Sample.bitmap_AB
      Sample.config
    = Some lines
    /\ length lines = 5%nat
    /\ Forall (fun line =>
                 Renderer.getDisplayWidth Sample.pictographic None line = 14)
         lines.
Proof.
  destruct (renderBitmap_width_alignment Sample.pictographic None
              Sample.background Sample.github Sample.sin Sample.cos
              {| Date_now := 0 |} Sample.bitmap_AB Sample.config)
    as (_ & _ & result & cells & _ & Hlines & _ & Hcount & _ & Hwidth).
  - discriminate.
  - discriminate.
  - simpl. lia.
  - discriminate.
  - eexists. split; [exact Hlines|]. split.
    + rewrite length_fmap. exact Hcount.
    + destruct Hwidth as [_ Hwidth].
      * reflexivity.
      * intros glyph [->| ->%list_elem_of_singleton]; reflexivity.
      * apply segmented_by_code_point; [reflexivity|].
        intros glyph [->| ->%list_elem_of_singleton]; reflexivity.
      * apply Forall_fmap. exact Hwidth.
Defined.

End AlignmentFacts.

(** ** The command line *)

Module CliFacts.

Import JS Text Renderer Cli.
Import String.StringSyntax.
Local Open Scope string_scope.
Local Open Scope Z_scope.

(** ** Reading the text from a file *)

Lemma readTextFromFile_resolved (fs : FileSystem) (filePath text : jsstring) :
  readTextFromFile fs filePath = inr text ->
  filePath <> []
  /\ includes (str "..") filePath = false
  /\ access fs filePath = None
  /\ exists size content,
       stat_size fs filePath = inr size /\ size <= 1048576
       /\ readFile fs filePath = inr content /\ text = trim content.
Proof.
  unfold readTextFromFile.
  destruct filePath as [|c rest]; [done|]. cbn [length Nat.eqb].
  destruct (includes (str "..") (c :: rest)); [done|].
  destruct (access fs (c :: rest)); [done|].
  destruct (stat_size fs (c :: rest)) as [error|size]; [done|].
  destruct (Z.gtb_spec size maxSize) as [Hbig|Hsmall]; [done|].
  destruct (readFile fs (c :: rest)) as [error|content]; [done|].
  intros [= <-]. split; [done|]. split; [done|]. split; [done|].
  exists size, content. unfold maxSize in Hsmall. done.
Qed.

(** X19. [readTextFromFile] resolves exactly when the path is not empty and
    holds no [..], the file is accessible, at most 1048576 bytes long and
    readable; its value is then the trimmed content. A path that holds [..] is
    rejected before the file system is consulted. *)
Theorem readTextFromFile_resolves_iff (fs : FileSystem) (filePath text : jsstring) :
  (readTextFromFile fs filePath = inr text
   <-> filePath <> []
       /\ includes (str "..") filePath = false
       /\ access fs filePath = None
       /\ exists size content,
            stat_size fs filePath = inr size /\ size <= 1048576
            /\ readFile fs filePath = inr content /\ text = trim content)
  /\ (includes (str "..") filePath = true ->
      forall fs', readTextFromFile fs' filePath
                  = inl (str "Path traversal not allowed")).
Proof.
  split.
  - split; [apply readTextFromFile_resolved|]. unfold readTextFromFile.
    + intros (Hne & Hdots & Haccess & size & content & Hstat & Hsize & Hread & ->).
      destruct filePath as [|c rest]; [done|]. cbn [length Nat.eqb].
      rewrite Hdots, Haccess, Hstat, Hread.
      destruct (Z.gtb_spec size maxSize) as [Hbig|Hsmall]; [|done].
      unfold maxSize in Hbig. lia.
  - intros Hdots fs'. unfold readTextFromFile.
    destruct filePath as [|c rest]; [done|]. cbn [length Nat.eqb].
    by rewrite Hdots.
Qed.

(** A file of three bytes. *)
Lemma readTextFromFile_resolves_iff_witness :
  readTextFromFile
    {| access := fun _ => None;
       stat_size := fun _ => inr 3;
       readFile := fun _ => inr (str " A" ++ [LF]) |}
    (str "banner.txt")
  = inr (str "A")
  /\ readTextFromFile
       {| access := fun _ => None;
          stat_size := fun _ => inr 3;
          readFile := fun _ => inr (str " A" ++ [LF]) |}
       (str "../banner.txt")
     = inl (str "Path traversal not allowed").
Proof.
  split.
  - apply (readTextFromFile_resolves_iff
             {| access := fun _ => None;
                stat_size := fun _ => inr 3;
                readFile := fun _ => inr (str " A" ++ [LF]) |}
             (str "banner.txt") (str "A")).
    split; [discriminate|]. split; [reflexivity|]. split; [reflexivity|].
    exists 3, (str " A" ++ [LF]).
    split; [reflexivity|]. split; [lia|]. split; reflexivity.
  - apply (readTextFromFile_resolves_iff
             {| access := fun _ => None;
                stat_size := fun _ => inr 3;
                readFile := fun _ => inr (str " A" ++ [LF]) |}
             (str "../banner.txt") []).
    reflexivity.
Defined.

(** ** Accepted options *)

Lemma mode_of_string_valid (mode : jsstring) :
  mode ∈ VALID_MODES -> RendererExtra.mode_of_string mode <> mode_unknown.
Proof.
  unfold VALID_MODES. rewrite !elem_of_cons, elem_of_nil.
  intros [->|[->|[->|[->|[->|[]]]]]]; vm_compute; discriminate.
Qed.

(** X20. Options that [parseCLIOptions] returns carry a mode, a format and a
    theme of the valid lists, so that [selectEmoji] never reaches its default
    branch on them; [vertical] is never set; the text is the trimmed content
    of the file when a file is given and the first argument otherwise. *)
Theorem parseCLIOptions_accepted (fs : FileSystem) (program : Command)
    (options : CLIOptions) :
  parseCLIOptions fs program = inr options ->
  (exists mode' format' theme',
     mode options = Some mode' /\ mode' ∈ VALID_MODES
     /\ RendererExtra.mode_of_string mode' <> mode_unknown
     /\ format options = Some format' /\ format' ∈ VALID_FORMATS
     /\ theme options = Some theme' /\ theme' ∈ VALID_THEMES)
  /\ vertical options = None
  /\ file options = opt_file (opts program)
  /\ (if truthy (file options)
      then exists content,
             readFile fs (default [] (file options)) = inr content
             /\ text options = Some (trim content)
      else text options = head (args program)).
Proof.
  unfold parseCLIOptions.
  destruct (truthy (opt_file (opts program))) eqn:Hfile.
  - destruct (readTextFromFile fs (default [] (opt_file (opts program))))
      as [message|content] eqn:Hread; [done|].
    apply readTextFromFile_resolved in Hread
      as (_ & _ & _ & size & raw & _ & _ & Hraw & ->).
    destruct (bool_decide_reflect (opt_mode (opts program) ∈ VALID_MODES))
      as [Hmode|]; [|done].
    destruct (bool_decide_reflect (opt_format (opts program) ∈ VALID_FORMATS))
      as [Hformat|]; [|done].
    destruct (bool_decide_reflect (opt_theme (opts program) ∈ VALID_THEMES))
      as [Htheme|]; [|done].
    intros [= <-]. cbn. split.
    { eexists _, _, _. split; [done|]. split; [done|].
      split; [by apply mode_of_string_valid|done]. }
    split; [done|]. split; [done|]. rewrite Hfile. by exists raw.
  - destruct (bool_decide_reflect (opt_mode (opts program) ∈ VALID_MODES))
      as [Hmode|]; [|done].
    destruct (bool_decide_reflect (opt_format (opts program) ∈ VALID_FORMATS))
      as [Hformat|]; [|done].
    destruct (bool_decide_reflect (opt_theme (opts program) ∈ VALID_THEMES))
      as [Htheme|]; [|done].
    intros [= <-]. cbn. split.
    { eexists _, _, _. split; [done|]. split; [done|].
      split; [by apply mode_of_string_valid|done]. }
    split; [done|]. split; [done|]. by rewrite Hfile.
Qed.

(** The sample command line is accepted. *)
Lemma parseCLIOptions_accepted_witness :
  parseCLIOptions SampleCli.fs SampleCli.program = inr SampleCli.options
  /\ vertical SampleCli.options = None
  /\ text SampleCli.options = Some [65; 66].
Proof.
  split; [reflexivity|].
  destruct (parseCLIOptions_accepted SampleCli.fs SampleCli.program
              SampleCli.options)
    as (_ & Hvertical & _ & Htext).
  - reflexivity.
  - split; [exact Hvertical|exact Htext].
Defined.

End CliFacts.

(** ** The banner of the command line *)

Module IndexFacts.

Import JS Text Renderer Index.
Import String.StringSyntax.
Local Open Scope string_scope.
Local Open Scope Z_scope.

Section WithHost.

Variable toUpperCase : jsstring -> jsstring.
Variable Extended_Pictographic : Z -> bool.
Variable graphemeSegmenter : option (jsstring -> list jsstring).
Variable getBackgroundEmoji : jsstring.
Variable getThemeEmojis_github : list jsstring.
Variable Math_sin : Q -> Q.
Variable Math_cos : Q -> Q.
Variable parseEmojis : jsstring -> option (list jsstring).
Variable resolveEmoji : jsstring -> option jsstring.
Variable getFont : jsstring -> option PixelFont.t.
Variable getThemeBackground_github : jsstring.
Variable DEFAULT_FONT_NAME : jsstring.

Local Abbreviation textToBitmap :=
  (textToBitmap toUpperCase getFont DEFAULT_FONT_NAME).
Local Abbreviation backgroundOf :=
  (backgroundOf resolveEmoji getThemeBackground_github).
Local Abbreviation borderOf := (borderOf resolveEmoji).
Local Abbreviation generateBanner :=
  (generateBanner toUpperCase Extended_Pictographic graphemeSegmenter
     getBackgroundEmoji getThemeEmojis_github Math_sin Math_cos parseEmojis
     resolveEmoji getFont getThemeBackground_github DEFAULT_FONT_NAME).
Local Abbreviation createDefaultConfig :=
  (RendererExtra.createDefaultConfig getBackgroundEmoji).
Local Abbreviation renderBitmap :=
  (renderBitmap Extended_Pictographic graphemeSegmenter getBackgroundEmoji
     getThemeEmojis_github Math_sin Math_cos).

(** ** The border *)

(** X21. No border is ever drawn: whenever a banner is generated with a border
    option, the same banner is generated without it. *)
Theorem generateBanner_border_ignored (host : Host) (options : Cli.CLIOptions)
    (border' : option Cli.Border) (result : BannerResult.t) :
  generateBanner host (Cli.with_border options border') = inr result ->
  generateBanner host (Cli.with_border options None) = inr result.
Proof.
  unfold Index.generateBanner. cbn [Cli.with_border Cli.emoji Cli.text Cli.font
    Cli.vertical Cli.mode Cli.theme].
  destruct (parseEmojis (Cli.emoji options)) as [foregroundEmojis|]; [|done].
  change (backgroundOf (Cli.with_border options border'))
    with (backgroundOf (Cli.with_border options None)).
  destruct (backgroundOf (Cli.with_border options None)) as [backgroundEmoji|];
    [|done].
  destruct (borderOf (Cli.with_border options border') backgroundEmoji)
    as [failure|borderEmoji]; [done|].
  done.
Qed.

Lemma textToBitmap_failure (text fontName : option jsstring)
    (options : Bitmap.TextToBitmapOptions) (failure : Failure) :
  textToBitmap text fontName options = inl failure ->
  failure <> BorderRequiresBackground.
Proof.
  unfold Index.textToBitmap. destruct text as [text|]; [|by intros [= <-]].
  destruct (length text =? 0)%nat; [by intros [= <-]|].
  destruct (length (Bitmap.sanitizedText text options) =? 0)%nat;
    [by intros [= <-]|].
  destruct (getFont (default DEFAULT_FONT_NAME fontName)) as [font|];
    [|by intros [= <-]].
  destruct (Bitmap.textToBitmap toUpperCase (Some text) font options);
    [by intros [= <-]|done].
Qed.

(** The border error is thrown by the border check only. *)
Lemma generateBanner_border_error (host : Host) (options : Cli.CLIOptions) :
  generateBanner host options = inl BorderRequiresBackground ->
  exists backgroundEmoji,
    backgroundOf options = Some backgroundEmoji
    /\ Cli.truthy_border (Cli.border options) = true
    /\ Cli.truthy backgroundEmoji = false.
Proof.
  unfold Index.generateBanner.
  destruct (parseEmojis (Cli.emoji options)) as [foregroundEmojis|]; [|done].
  destruct (backgroundOf options) as [backgroundEmoji|]; [|done].
  unfold Index.borderOf.
  destruct (Cli.truthy_border (Cli.border options)).
  - destruct (Cli.truthy backgroundEmoji) eqn:Htruthy; simpl.
    + intros Hfail. exfalso.
      destruct (Cli.border options) as [[flag|emoji']|].
      * destruct (textToBitmap _ _ _) as [failure|bitmap] eqn:Hbitmap.
        -- injection Hfail as ->. by apply textToBitmap_failure in Hbitmap.
        -- by destruct (Renderer.renderBitmap _ _ _ _ _ _ _ _ _).
      * destruct (resolveEmoji emoji'); [|done].
        destruct (textToBitmap _ _ _) as [failure|bitmap] eqn:Hbitmap.
        -- injection Hfail as ->. by apply textToBitmap_failure in Hbitmap.
        -- by destruct (Renderer.renderBitmap _ _ _ _ _ _ _ _ _).
      * destruct (textToBitmap _ _ _) as [failure|bitmap] eqn:Hbitmap.
        -- injection Hfail as ->. by apply textToBitmap_failure in Hbitmap.
        -- by destruct (Renderer.renderBitmap _ _ _ _ _ _ _ _ _).
    + intros _. by exists backgroundEmoji.
  - intros Hfail. exfalso.
    destruct (textToBitmap _ _ _) as [failure|bitmap] eqn:Hbitmap.
    + injection Hfail as ->. by apply textToBitmap_failure in Hbitmap.
    + by destruct (Renderer.renderBitmap _ _ _ _ _ _ _ _ _).
Qed.

(** X22. When [resolveEmoji] never returns the empty string and the GitHub
    theme has a background, options that [validateOptions] accepts never make
    [generateBanner] throw its own border error. *)
Theorem validateOptions_border (host : Host) (options : Cli.CLIOptions) :
  (forall name emoji, resolveEmoji name = Some emoji -> emoji <> []) ->
  getThemeBackground_github <> [] ->
  Cli.validateOptions options = inr tt ->
  generateBanner host options <> inl BorderRequiresBackground.
Proof.
  intros Hresolve Hgithub Hvalid Hfail.
  apply generateBanner_border_error in Hfail
    as (backgroundEmoji & Hbackground & Hborder & Hfalsy).
  unfold Cli.validateOptions in Hvalid. rewrite Hborder in Hvalid.
  destruct (negb (Cli.truthy (Cli.text options))
            && negb (Cli.truthy (Cli.file options))); [done|].
  destruct (length (Cli.emoji options) =? 0)%nat; [done|].
  unfold Index.backgroundOf in Hbackground.
  destruct (Cli.truthy (Cli.background options)).
  - destruct (resolveEmoji (default [] (Cli.background options)))
      as [emoji|] eqn:Hres; [|done].
    injection Hbackground as <-. apply Hresolve in Hres.
    by destruct emoji.
  - simpl in Hvalid.
    destruct (bool_decide (Cli.theme options = Some (str "github"))); [|done].
    injection Hbackground as <-. by destruct getThemeBackground_github.
Qed.

(** ** Success *)

Lemma textToBitmap_resolves (text : jsstring) (fontName : option jsstring)
    (options : Bitmap.TextToBitmapOptions) (font : PixelFont.t) :
  Bitmap.sanitizedText text options <> [] ->
  getFont (default DEFAULT_FONT_NAME fontName) = Some font ->
  exists bitmap w,
    textToBitmap (Some text) fontName options = inr bitmap
    /\ Bitmap.textToBitmap toUpperCase (Some text) font options = inr bitmap
    /\ Bitmap.rectangular w bitmap.
Proof.
  intros Hsanitized Hfont. unfold Index.textToBitmap, Bitmap.textToBitmap.
  destruct text as [|c text].
  { by rewrite BitmapFacts.sanitizedText_nil in Hsanitized. }
  cbn [length Nat.eqb].
  destruct (Bitmap.sanitizedText (c :: text) options) as [|d sanitized] eqn:Hs;
    [done|].
  cbn [length Nat.eqb]. rewrite Hfont. cbn [length Nat.eqb].
  destruct (BitmapFacts.mergeLines_rectangular
              ((fun line => Bitmap.renderLineToBitmap toUpperCase line font)
                 <$> split LF (slice0 Bitmap.MAX_TEXT_LENGTH (d :: sanitized)))
              (PixelFont.lineSpacing font)) as [w Hw].
  - intros lineBitmap Hin. apply list_elem_of_fmap in Hin as (line & -> & _).
    apply BitmapFacts.renderLineToBitmap_rectangular.
  - by eexists _, w.
Qed.

(** X23. When the helpers return, the text is not empty once sanitised and
    there is a candidate to select, [generateBanner] resolves: its bitmap is
    the one [textToBitmap] gives for the text in the named font, that bitmap
    is rectangular, the width and height of the result are its dimensions, and
    the background is the resolved one or, when that is missing or empty, the
    default. *)
Theorem generateBanner_resolves (host : Host) (options : Cli.CLIOptions)
    (emojis : list jsstring) (backgroundEmoji borderEmoji : option jsstring)
    (text : jsstring) (font : PixelFont.t) :
  parseEmojis (Cli.emoji options) = Some emojis ->
  backgroundOf options = Some backgroundEmoji ->
  borderOf options backgroundEmoji = inr borderEmoji ->
  Cli.text options = Some text ->
  Bitmap.sanitizedText text
    {| Bitmap.vertical := Some (default false (Cli.vertical options)) |} <> [] ->
  getFont (default DEFAULT_FONT_NAME (Cli.font options)) = Some font ->
  selectable getThemeEmojis_github
    (createDefaultConfig emojis backgroundEmoji (Cli.mode options)
       (Cli.theme options)) ->
  exists result,
    generateBanner host options = inr result
    /\ Bitmap.textToBitmap toUpperCase (Some text) font
         {| Bitmap.vertical := Some (default false (Cli.vertical options)) |}
       = inr (BannerResult.bitmap result)
    /\ Bitmap.validateBitmap (BannerResult.bitmap result) = true
    /\ Bitmap.getBitmapDimensions (BannerResult.bitmap result)
       = {| Bitmap.width := BannerResult.width result;
            Bitmap.height := BannerResult.height result |}
    /\ BannerResult.backgroundEmoji result
       = match backgroundEmoji with
         | Some (c :: rest) => c :: rest
         | _ => getBackgroundEmoji
         end.
Proof.
  intros Hparse Hbackground Hborder Htext Hsanitized Hfont Hsel.
  destruct (textToBitmap_resolves text (Cli.font options) _ font Hsanitized Hfont)
    as (bitmap & w & Hnamed & Hbitmap & Hrect).
  unfold Index.generateBanner.
  rewrite Hparse, Hbackground, Hborder, Htext, Hnamed.
  destruct (RendererFacts.renderRows_spec Extended_Pictographic graphemeSegmenter
              getBackgroundEmoji getThemeEmojis_github Math_sin Math_cos
              _ bitmap (length bitmap)
              match bitmap with [] => 0%nat | row0 :: _ => length row0 end
              (seq 0 (length bitmap)) Hsel [] (new_SeededRandom host (Some 42)))
    as (cells & random' & Hrows & _).
  unfold Renderer.renderBitmap, Renderer.renderLines. rewrite Hrows. simpl.
  eexists. split; [reflexivity|]. simpl.
  split; [exact Hbitmap|].
  split; [by apply (BitmapFacts.rectangular_validate w)|].
  split; [by destruct bitmap|].
  unfold Renderer.bgEmojiOf, RendererExtra.createDefaultConfig. simpl.
  destruct backgroundEmoji as [[|c rest]|]; simpl; try done;
    by destruct getBackgroundEmoji.
Qed.

(** ** A file of white space *)

Lemma trim_whitespace (s : jsstring) :
  forallb is_whitespace s = true -> trim s = [].
Proof.
  intros Hws. unfold trim.
  by rewrite (RendererExtraFacts.trimStart_whitespace s Hws).
Qed.

(** X24. A readable file that holds white space only passes [parseCLIOptions]
    and [validateOptions], since the file option is set, and is rejected by
    [textToBitmap] inside [generateBanner]: the text is the empty string that
    [trim] leaves. *)
Theorem whitespace_file_rejected (fs : Cli.FileSystem) (program : Cli.Command)
    (host : Host) (path content : jsstring) (size : Z)
    (emojis : list jsstring) :
  let opts := Cli.opts program in
  Cli.opt_file opts = Some path ->
  path <> [] -> includes (str "..") path = false ->
  Cli.access fs path = None ->
  Cli.stat_size fs path = inr size -> size <= 1048576 ->
  Cli.readFile fs path = inr content ->
  forallb is_whitespace content = true ->
  Cli.opt_mode opts ∈ Cli.VALID_MODES ->
  Cli.opt_format opts ∈ Cli.VALID_FORMATS ->
  Cli.opt_theme opts ∈ Cli.VALID_THEMES ->
  Cli.opt_emoji opts <> [] ->
  Cli.opt_background opts = None ->
  Cli.truthy_border (Cli.opt_border opts) = false ->
  parseEmojis (Cli.opt_emoji opts) = Some emojis ->
  exists options,
    Cli.parseCLIOptions fs program = inr options
    /\ Cli.validateOptions options = inr tt
    /\ generateBanner host options
       = inl (BitmapFailure Bitmap.TextInputRequired).
Proof.
  intros opts Hfile Hpath Hdots Haccess Hstat Hsize Hread Hws Hmode Hformat
    Htheme Hemoji Hbackground Hborder Hparse. subst opts.
  assert (Htext : Cli.readTextFromFile fs path = inr []).
  { unfold Cli.readTextFromFile.
    destruct path as [|c rest]; [done|]. cbn [length Nat.eqb].
    rewrite Hdots, Haccess, Hstat, Hread, (trim_whitespace content Hws).
    destruct (Z.gtb_spec size Cli.maxSize) as [Hbig|_]; [|done].
    unfold Cli.maxSize in Hbig. lia. }
  eexists. split; [|split].
  - unfold Cli.parseCLIOptions. rewrite Hfile.
    replace (Cli.truthy (Some path)) with true by (by destruct path).
    simpl default. rewrite Htext.
    rewrite !bool_decide_eq_true_2 by done. reflexivity.
  - unfold Cli.validateOptions.
    cbn [Cli.text Cli.file Cli.emoji Cli.border Cli.background Cli.theme].
    replace (Cli.truthy (Some path)) with true by (by destruct path).
    rewrite Hborder. by destruct (Cli.opt_emoji (Cli.opts program)).
  - unfold Index.generateBanner, Index.backgroundOf, Index.borderOf. cbn.
    rewrite Hparse, Hbackground, Hborder. cbn.
    by destruct (bool_decide _).
Qed.

End WithHost.

(** ** Instances on the sample host *)

(** The sample options, with the border flag and without. *)
Lemma generateBanner_border_ignored_witness :
  exists result,
    generateBanner Sample.upper Sample.pictographic None Sample.background
      Sample.github Sample.sin Sample.cos SampleCli.parseEmojis
      SampleCli.resolveEmoji SampleCli.getFont SampleCli.themeBackground
      SampleCli.fontName {| Date_now := 0 |}
      (Cli.with_border SampleCli.options (Some (Cli.border_flag true)))
    = inr result
    /\ generateBanner Sample.upper Sample.pictographic None Sample.background
         Sample.github Sample.sin Sample.cos SampleCli.parseEmojis
         SampleCli.resolveEmoji SampleCli.getFont SampleCli.themeBackground
         SampleCli.fontName {| Date_now := 0 |}
         (Cli.with_border SampleCli.options None)
       = inr result.
Proof.
  eexists. split.
  - vm_compute. reflexivity.
  - apply (generateBanner_border_ignored Sample.upper Sample.pictographic None
             Sample.background Sample.github Sample.sin Sample.cos
             SampleCli.parseEmojis SampleCli.resolveEmoji SampleCli.getFont
             SampleCli.themeBackground SampleCli.fontName {| Date_now := 0 |}
             SampleCli.options (Some (Cli.border_flag true))).
    vm_compute. reflexivity.
Defined.

(** The sample options pass [validateOptions]. *)
Lemma validateOptions_border_witness :
  Cli.validateOptions SampleCli.options = inr tt
  /\ generateBanner Sample.upper Sample.pictographic None Sample.background
       Sample.github Sample.sin Sample.cos SampleCli.parseEmojis
       SampleCli.resolveEmoji SampleCli.getFont SampleCli.themeBackground
       SampleCli.fontName {| Date_now := 0 |} SampleCli.options
     <> inl BorderRequiresBackground.
Proof.
  split; [reflexivity|].
  apply (validateOptions_border Sample.upper Sample.pictographic None
           Sample.background Sample.github Sample.sin Sample.cos
           SampleCli.parseEmojis SampleCli.resolveEmoji SampleCli.getFont
           SampleCli.themeBackground SampleCli.fontName {| Date_now := 0 |}
           SampleCli.options).
  - intros [|c name] emoji; simpl; [discriminate|].
    intros Hsome. injection Hsome as <-. discriminate.
  - discriminate.
  - reflexivity.
Defined.

(** ["AB"] in the sample font: five rows of seven cells. *)
Lemma generateBanner_resolves_witness :
  exists result,
    generateBanner Sample.upper Sample.pictographic None Sample.background
      Sample.github Sample.sin Sample.cos SampleCli.parseEmojis
      SampleCli.resolveEmoji SampleCli.getFont SampleCli.themeBackground
      SampleCli.fontName {| Date_now := 0 |} SampleCli.options
    = inr result
    /\ Bitmap.getBitmapDimensions (BannerResult.bitmap result)
       = {| Bitmap.width := 7; Bitmap.height := 5 |}.
Proof.
  destruct (generateBanner_resolves Sample.upper Sample.pictographic None
              Sample.background Sample.github Sample.sin Sample.cos
              SampleCli.parseEmojis SampleCli.resolveEmoji SampleCli.getFont
              SampleCli.themeBackground SampleCli.fontName {| Date_now := 0 |}
              SampleCli.options [Sample.fire] (Some [SPACE; SPACE])
              (Some [SPACE; SPACE]) [65; 66] Sample.font)
    as (result & Hresult & _ & _ & Hdim & _).
  - reflexivity.
  - reflexivity.
  - reflexivity.
  - reflexivity.
  - discriminate.
  - reflexivity.
  - split; [simpl; lia|]. discriminate.
  - exists result. split; [exact Hresult|].
    vm_compute in Hresult. injection Hresult as <-. reflexivity.
Defined.

(** The file [blank.txt] holds a space and a line feed. *)
Lemma whitespace_file_rejected_witness :
  exists options,
    Cli.parseCLIOptions SampleCli.fs SampleCli.program_file = inr options
    /\ Cli.validateOptions options = inr tt
    /\ generateBanner Sample.upper Sample.pictographic None Sample.background
         Sample.github Sample.sin Sample.cos SampleCli.parseEmojis
         SampleCli.resolveEmoji SampleCli.getFont SampleCli.themeBackground
         SampleCli.fontName {| Date_now := 0 |} options
       = inl (BitmapFailure Bitmap.TextInputRequired).
Proof.
  apply (whitespace_file_rejected Sample.upper Sample.pictographic None
           Sample.background Sample.github Sample.sin Sample.cos
           SampleCli.parseEmojis SampleCli.resolveEmoji SampleCli.getFont
           SampleCli.themeBackground SampleCli.fontName SampleCli.fs
           SampleCli.program_file {| Date_now := 0 |} (str "blank.txt")
           [SPACE; LF] 2 [Sample.fire]).
  - reflexivity.
  - discriminate.
  - reflexivity.
  - reflexivity.
  - reflexivity.
  - lia.
  - reflexivity.
  - reflexivity.
  - left.
  - left.
  - left.
  - discriminate.
  - reflexivity.
  - reflexivity.
  - reflexivity.
Defined.

End IndexFacts.
